(** * Fire7: path accessor, reference scanner, one-time resolver and live
      subscriptions

    A shallow embedding of [src/helpers.js], [src/index.js] and
    [src/subscription.js].

    JavaScript values are finite trees of own properties.  The module is an
    ES module, hence strict mode: assigning a property on a primitive throws
    a [TypeError].  The outcome [Unmodelled] marks operator coercions
    between unlike types, property access on functions and class
    instances, and named (non-index) properties on arrays.

    Property access looks at own properties only, a string is a list of
    bytes, a new property goes last in the enumeration of its object, and
    every object of a tree is reached along one path.  The code sees more
    than that at a key that names a member of [Object.prototype], at a
    character outside ASCII in a path, at an own field [hasOwnProperty] of
    a scanned object, and at a reference that lacks the method
    [withConverter]; it enumerates a new key that is an array index before
    the keys that are not, which changes the order of a scan and nothing
    else.  The predicates [safe_key], [safe_seg], [scannable], [handles]
    and [safe_document] mark the inputs on which the rest does not come
    into play; the theorems that assert that the code completes, or what
    it yields, carry them as hypotheses. *)

From Stdlib Require Import String Ascii List ZArith Lia Bool Arith.
From Stdlib Require Import DecimalString DecimalNat DecimalFacts.
From stdpp Require Import gmap strings.
Import ListNotations.

Local Open Scope string_scope.
Local Open Scope list_scope.

(** ** Characters and regular-expression classes *)

Module Chars.

Definition code (c : ascii) : nat := nat_of_ascii c.

(** [\d] *)
Definition is_digit (c : ascii) : bool :=
  (48 <=? code c)%nat && (code c <=? 57)%nat.

(** [\w], that is [[A-Za-z0-9_]] *)
Definition is_word (c : ascii) : bool :=
  is_digit c
  || ((65 <=? code c)%nat && (code c <=? 90)%nat)
  || ((97 <=? code c)%nat && (code c <=? 122)%nat)
  || (code c =? 95)%nat.

(** The characters the regular-expression dot does not match. *)
Definition is_line_terminator (c : ascii) : bool :=
  (code c =? 10)%nat || (code c =? 13)%nat.

Definition dot : ascii := "."%char.
Definition lbracket : ascii := "["%char.
Definition rbracket : ascii := "]"%char.

End Chars.

(** ** String primitives used by the path functions *)

Module Str.
Import Chars.

Fixpoint forallb (p : ascii -> bool) (s : string) : bool :=
  match s with
  | EmptyString => true
  | String c s' => p c && forallb p s'
  end.

Fixpoint rev_onto (s acc : string) : string :=
  match s with
  | EmptyString => acc
  | String c s' => rev_onto s' (String c acc)
  end.

Definition rev (s : string) : string := rev_onto s EmptyString.

(** Longest prefix of [s] whose characters satisfy [p], and the rest. *)
Fixpoint span (p : ascii -> bool) (s : string) : string * string :=
  match s with
  | EmptyString => (EmptyString, EmptyString)
  | String c s' =>
      if p c then let '(a, b) := span p s' in (String c a, b)
      else (EmptyString, s)
  end.

(** [s.split('.')]: never empty; an empty [s] gives one empty segment. *)
Fixpoint split (sep : ascii) (s : string) : list string :=
  match s with
  | EmptyString => [EmptyString]
  | String c s' =>
      if Ascii.eqb c sep then EmptyString :: split sep s'
      else match split sep s' with
           | h :: t => String c h :: t
           | [] => [String c EmptyString]
           end
  end.

(** [s.slice(n)] for a non-negative [n]. *)
Fixpoint slice (n : nat) (s : string) : string :=
  match n, s with
  | O, _ => s
  | S n', String _ s' => slice n' s'
  | S _, EmptyString => EmptyString
  end.

Arguments slice : simpl never.

(** Template literal [`${i}`] for a non-negative integer. *)
Definition of_nat (n : nat) : string :=
  NilZero.string_of_uint (Nat.to_uint n).

(** [Number(ds)] for a string of decimal digits. *)
Definition to_nat (ds : string) : nat :=
  match NilZero.uint_of_string ds with
  | Some d => Nat.of_uint d
  | None => 0
  end.

End Str.

(** ** The three regular expressions of [helpers.js] *)

Module Regex.
Import Chars.

(** One attempt of [/\[(\w+)\]/] at the head of [s]: the captured group
    and what follows the match.  [\w+] is greedy and the closing bracket is
    not a word character, so only the longest run can match. *)
Definition bracket_at (s : string) : option (string * string) :=
  match s with
  | String c s' =>
      if Ascii.eqb c lbracket then
        match Str.span is_word s' with
        | (String w ws, String r rest) =>
            if Ascii.eqb r rbracket then Some (String w ws, rest) else None
        | _ => None
        end
      else None
  | EmptyString => None
  end.

(** [s.replace(/\[(\w+)\]/g, '.$1')], scanning left to right; [skip]
    counts the characters of the last match still to be passed over. *)
Fixpoint brackets_to_dots_from (skip : nat) (s : string) : string :=
  match s with
  | EmptyString => EmptyString
  | String c s' =>
      match skip with
      | S k => brackets_to_dots_from k s'
      | O =>
          match bracket_at s with
          | Some (w, _) =>
              String dot (w +:+ brackets_to_dots_from (S (String.length w)) s')
          | None => String c (brackets_to_dots_from O s')
          end
      end
  end.

Definition brackets_to_dots (s : string) : string :=
  brackets_to_dots_from O s.

(** [s.replace(/^\./, '')] *)
Definition strip_leading_dot (s : string) : string :=
  match s with
  | String c s' => if Ascii.eqb c dot then s' else s
  | EmptyString => s
  end.

(** [segment.match(/^(.+)\[(\d+)\]$/)]: the two captures, the second one
    through [Number].  The string must end in a closing bracket preceded
    by digits and an opening bracket; since digits contain no bracket the
    split is unique.  The dot does not match line terminators. *)
Definition array_match (seg : string) : option (string * nat) :=
  match Str.rev seg with
  | String c r =>
      if Ascii.eqb c rbracket then
        match Str.span is_digit r with
        | (String d ds, String b nm) =>
            if Ascii.eqb b lbracket
               && negb (String.eqb nm EmptyString)
               && Str.forallb (fun x => negb (is_line_terminator x)) nm
            then Some (Str.rev nm, Str.to_nat (Str.rev (String d ds)))
            else None
        | _ => None
        end
      else None
  | EmptyString => None
  end.

End Regex.

(** ** Outcomes of JavaScript operations *)

Inductive exn : Type := TypeError | RangeError | Error (message : string).

Inductive outcome (A : Type) : Type :=
| Ok (a : A)
| Throw (e : exn)
| Unmodelled.

Arguments Ok {A} a.
Arguments Throw {A} e.
Arguments Unmodelled {A}.

Definition bind {A B : Type} (k : A -> outcome B) (m : outcome A) : outcome B :=
  match m with
  | Ok a => k a
  | Throw e => Throw e
  | Unmodelled => Unmodelled
  end.

#[global] Instance outcome_ret : MRet outcome := fun A a => Ok a.
#[global] Instance outcome_bind : MBind outcome := fun A B k m => bind k m.

(** ** Values

    [I] is the type of class-instance handles that may sit at the leaves of
    a structure: document data has none, the [subscriptions] container of a
    [Subscription] holds its children there.  Property lists are in
    enumeration order; arrays are lists with holes. *)

#[warnings="-register-all"]
Inductive value (I : Type) : Type :=
| VUndef
| VNull
| VBool (b : bool)
| VNum (n : Z)
| VStr (s : string)
| VFun (f : nat)
| VInst (i : I)
| VObj (props : list (string * value I))
| VArr (elems : list (option (value I))).

Arguments VUndef {I}.
Arguments VNull {I}.
Arguments VBool {I} b.
Arguments VNum {I} n.
Arguments VStr {I} s.
Arguments VFun {I} f.
Arguments VInst {I} i.
Arguments VObj {I} props.
Arguments VArr {I} elems.

(** Largest array length, [2^32 - 1]. *)
Definition max_array_length : Z := 4294967295.

Section Values.
Context {I : Type}.
Abbreviation value := (value I).

(** [!!v] *)
Definition truthy (v : value) : bool :=
  match v with
  | VUndef | VNull => false
  | VBool b => b
  | VNum n => negb (n =? 0)%Z
  | VStr s => negb (String.eqb s EmptyString)
  | VFun _ | VInst _ | VObj _ | VArr _ => true
  end.

(** [typeof v === 'object'] *)
Definition typeof_object (v : value) : bool :=
  match v with
  | VNull | VInst _ | VObj _ | VArr _ => true
  | _ => false
  end.

(** A property key that is an array index: the canonical decimal numeral
    of a number below [2^32 - 1]. *)
Definition index_of_key (k : string) : option nat :=
  match NilZero.uint_of_string k with
  | Some d =>
      let n := Nat.of_uint d in
      if String.eqb (Str.of_nat n) k && (Z.of_nat n <? max_array_length)%Z
      then Some n else None
  | None => None
  end.

Fixpoint lookup_prop (k : string) (ps : list (string * value)) : option value :=
  match ps with
  | [] => None
  | (k', v) :: ps' => if String.eqb k' k then Some v else lookup_prop k ps'
  end.

(** Assignment to an own property: an existing key keeps its place, a new
    key goes last. *)
Fixpoint assign_prop (k : string) (v : value) (ps : list (string * value))
  : list (string * value) :=
  match ps with
  | [] => [(k, v)]
  | (k', v') :: ps' =>
      if String.eqb k' k then (k, v) :: ps' else (k', v') :: assign_prop k v ps'
  end.

(** [arr[i] = v], growing the array with holes when [i] is past the end. *)
Fixpoint assign_elem (i : nat) (v : value) (es : list (option value))
  : list (option value) :=
  match i, es with
  | O, [] => [Some v]
  | O, _ :: es' => Some v :: es'
  | S i', [] => None :: assign_elem i' v []
  | S i', e :: es' => e :: assign_elem i' v es'
  end.

(** [arr.length = n]: truncate, or grow with holes. *)
Fixpoint resize (n : nat) (es : list (option value)) : list (option value) :=
  match n, es with
  | O, _ => []
  | S n', [] => None :: resize n' []
  | S n', e :: es' => e :: resize n' es'
  end.

Definition elem_at (i : nat) (es : list (option value)) : option value :=
  match nth_error es i with
  | Some (Some v) => Some v
  | _ => None
  end.

Definition length_key : string := "length".

(** [o[k]] *)
Definition get_prop (o : value) (k : string) : outcome value :=
  match o with
  | VUndef | VNull => Throw TypeError
  | VBool _ | VNum _ => Ok VUndef
  | VStr s =>
      if String.eqb k length_key then Ok (VNum (Z.of_nat (String.length s)))
      else match index_of_key k with
           | Some i => match String.get i s with
                       | Some c => Ok (VStr (String c EmptyString))
                       | None => Ok VUndef
                       end
           | None => Ok VUndef
           end
  | VFun _ | VInst _ => Unmodelled
  | VObj ps => Ok (match lookup_prop k ps with Some v => v | None => VUndef end)
  | VArr es =>
      if String.eqb k length_key then Ok (VNum (Z.of_nat (List.length es)))
      else match index_of_key k with
           | Some i => Ok (match elem_at i es with Some v => v | None => VUndef end)
           | None => Ok VUndef
           end
  end.

(** [k in o], for an [o] that is an object. *)
Definition has_prop (o : value) (k : string) : outcome bool :=
  match o with
  | VObj ps => Ok (match lookup_prop k ps with Some _ => true | None => false end)
  | VArr es =>
      if String.eqb k length_key then Ok true
      else match index_of_key k with
           | Some i => Ok (match elem_at i es with Some _ => true | None => false end)
           | None => Ok false
           end
  | VInst _ => Unmodelled
  | _ => Throw TypeError
  end.

(** [o[k] = v] in strict mode; the result is [o] after the assignment. *)
Definition set_prop (o : value) (k : string) (v : value) : outcome value :=
  match o with
  | VUndef | VNull | VBool _ | VNum _ | VStr _ => Throw TypeError
  | VFun _ | VInst _ => Unmodelled
  | VObj ps => Ok (VObj (assign_prop k v ps))
  | VArr es =>
      if String.eqb k length_key then
        match v with
        | VNum n =>
            if (0 <=? n)%Z && (n <=? max_array_length)%Z
            then Ok (VArr (resize (Z.to_nat n) es))
            else Throw RangeError
        | _ => Unmodelled
        end
      else match index_of_key k with
           | Some i => Ok (VArr (assign_elem i v es))
           | None => Unmodelled
           end
  end.

(** [a < n] for a number [n]; [undefined] converts to [NaN]. *)
Definition lt_number (a : value) (n : Z) : outcome bool :=
  match a with
  | VNum m => Ok (m <? n)%Z
  | VUndef => Ok false
  | _ => Unmodelled
  end.

(** ** helpers.js: predicates *)

Definition isArray (target : value) : bool :=
  match target with VArr _ => true | _ => false end.

Definition isObject (target : value) : bool :=
  truthy target && typeof_object target.

(** [target.onSnapshot] read on an object. *)
Definition onSnapshot_of (target : value) : value :=
  match target with
  | VObj ps => match lookup_prop "onSnapshot" ps with Some v => v | None => VUndef end
  | _ => VUndef
  end.

Definition isFirestoreRef (target : value) : bool :=
  isObject target && truthy (onSnapshot_of target).

(** ['update' in query]; the operator throws on a primitive. *)
Definition isSingleDocumentQuery (query : value) : outcome bool :=
  match query with
  | VObj ps => Ok (match lookup_prop "update" ps with Some _ => true | None => false end)
  | VArr _ => Ok false
  | VFun _ | VInst _ => Unmodelled
  | _ => Throw TypeError
  end.

(** ** helpers.js: walkGet *)

Definition path_keys (path : string) : list string :=
  Str.split Chars.dot (Regex.strip_leading_dot (Regex.brackets_to_dots path)).

Fixpoint walkGet_keys (object : value) (arr : list string) : outcome value :=
  match arr with
  | [] => Ok object
  | key :: arr' =>
      if truthy object && typeof_object object then
        present ← has_prop object key;
        if present : bool then
          next ← get_prop object key;
          walkGet_keys next arr'
        else Ok VUndef
      else Ok VUndef
  end.

Definition walkGet (object : value) (path : string) : outcome value :=
  walkGet_keys object (path_keys path).

(** ** helpers.js: walkSet

    The reducer mutates the object it is handed and returns either the
    next object to descend into or, at the last segment, the object it
    was handed.  On trees the mutation of a child is stored back into its
    parent's slot; the result pairs the root after the call with the value
    the reduction returns. *)

Definition store_back (o : value) (k : string) (child : value) : value :=
  match set_prop o k child with
  | Ok o' => o'
  | _ => o
  end.

Fixpoint walkSet_from (obj : value) (segmentList : list string) (v : value)
  : outcome (value * value) :=
  match segmentList with
  | [] => Ok (obj, obj)
  | segment :: rest =>
      let last := match rest with [] => true | _ :: _ => false end in
      match Regex.array_match segment with
      | Some (arrayName, arrayIndex) =>
          let ix := Str.of_nat arrayIndex in
          cur ← get_prop obj arrayName;
          obj1 ← (if truthy cur then Ok obj else set_prop obj arrayName (VArr []));
          arr ← get_prop obj1 arrayName;
          len ← get_prop arr length_key;
          short ← lt_number len (Z.of_nat arrayIndex + 1);
          arr1 ← (if short : bool
                  then set_prop arr length_key (VNum (Z.of_nat arrayIndex + 1))
                  else Ok arr);
          if last then
            arr2 ← set_prop arr1 ix v;
            let obj2 := store_back obj1 arrayName arr2 in
            Ok (obj2, obj2)
          else
            item ← get_prop arr1 ix;
            arr2 ← (if truthy item then Ok arr1 else set_prop arr1 ix (VObj []));
            next ← get_prop arr2 ix;
            '(next', res) ← walkSet_from next rest v;
            Ok (store_back obj1 arrayName (store_back arr2 ix next'), res)
      | None =>
          if last then
            obj1 ← set_prop obj segment v;
            Ok (obj1, obj1)
          else
            cur ← get_prop obj segment;
            obj1 ← (if truthy cur then Ok obj else set_prop obj segment (VObj []));
            next ← get_prop obj1 segment;
            '(next', res) ← walkSet_from next rest v;
            Ok (store_back obj1 segment next', res)
      end
  end.

Definition walkSet (object : value) (path : string) (v : value)
  : outcome (value * value) :=
  walkSet_from object (Str.split Chars.dot path) v.

End Values.

(** ** helpers.js: extractRefs *)

(** Document data holds no class instances. *)
Abbreviation dval := (value Empty_set).

Record entry : Type := Entry { path : string; ref : dval }.

(** The loops push onto [subs]; the list is threaded through them. *)
Fixpoint extractRefs (obj : dval) (currentPath : string) (subs : list entry)
  : list entry :=
  match obj with
  | VArr elems =>
      (fix each (i : nat) (es : list (option dval)) (subs : list entry) :=
         match es with
         | [] => subs
         | e :: es' =>
             let here := currentPath +:+ "[" +:+ Str.of_nat i +:+ "]" in
             each (S i) es'
               match e with
               | Some x =>
                   if isObject x then
                     if isFirestoreRef x then subs ++ [Entry here x]
                     else extractRefs x here subs
                   else subs
               | None => subs
               end
         end) O elems subs
  | VObj props =>
      (fix each (ps : list (string * dval)) (subs : list entry) :=
         match ps with
         | [] => subs
         | (prop, x) :: ps' =>
             each ps'
               (if isObject x then
                  let startPath :=
                    if String.eqb currentPath EmptyString then EmptyString
                    else currentPath +:+ "." in
                  if isFirestoreRef x then subs ++ [Entry (startPath +:+ prop) x]
                  else extractRefs x (startPath +:+ prop) subs
                else subs)
         end) props subs
  | _ => subs
  end.

(** [obj.hasOwnProperty(prop)], as [extractRefs] calls it on every object
    it walks: an own field of that name takes the place of the inherited
    method, and the call throws unless the field is a function.  The
    outcome is that of the first call that does not go through, in the
    order of the scan. *)
Fixpoint scan_check (v : dval) : outcome unit :=
  let below (x : dval) : outcome unit :=
    if isObject x then
      if isFirestoreRef x then Ok tt else scan_check x
    else Ok tt in
  match v with
  | VArr elems =>
      (fix each (es : list (option dval)) : outcome unit :=
         match es with
         | [] => Ok tt
         | e :: es' =>
             _ ← match e with Some x => below x | None => Ok tt end;
             each es'
         end) elems
  | VObj props =>
      match lookup_prop "hasOwnProperty" props with
      | Some (VFun _) => Unmodelled
      | Some _ => Throw TypeError
      | None =>
          (fix each (ps : list (string * dval)) : outcome unit :=
             match ps with
             | [] => Ok tt
             | (_, x) :: ps' => _ ← below x; each ps'
             end) props
      end
  | _ => Ok tt
  end.

Definition scannable (v : dval) : bool :=
  match scan_check v with Ok _ => true | _ => false end.

(** [o.m] is a function. *)
Definition has_method (o : dval) (m : string) : bool :=
  match o with
  | VObj ps => match lookup_prop m ps with Some (VFun _) => true | _ => false end
  | _ => false
  end.

(** ** The remote store

    A document snapshot carries the document id and, when the document
    exists, its fields.  [get_doc q] is the settled result of
    [q.withConverter(converter).get()] for a document query or a reference
    handle, [get_docs q] the one for a collection query; [None] is a
    rejected promise. *)

Record snapshot : Type := Snapshot {
  snap_id : string;
  snap_fields : option (list (string * dval))
}.

Record remote : Type := Remote {
  get_doc : dval -> option snapshot;
  get_docs : dval -> option (list snapshot)
}.

(** [{ id: doc.id, ...doc.data(options) }] *)
Definition fromFirestore (id : string) (fields : list (string * dval)) : dval :=
  VObj (fold_left (fun ps kv => assign_prop (fst kv) (snd kv) ps)
                  fields [("id", VStr id)]).

(** [doc.data()] under the converter: [undefined] for a missing document. *)
Definition snapshot_data (doc : snapshot) : dval :=
  match snap_fields doc with
  | Some fields => fromFirestore (snap_id doc) fields
  | None => VUndef
  end.

Definition snapshot_exists (doc : snapshot) : bool :=
  match snap_fields doc with Some _ => true | None => false end.

(** [doc.data() || null] *)
Definition data_or_null (doc : snapshot) : dval :=
  if truthy (snapshot_data doc) then snapshot_data doc else VNull.

(** ** helpers.js: fillRefs *)

Inductive event : Type :=
| EvFetch (r : dval)                  (* [r.withConverter(converter).get()] issued *)
| EvAwaitAll                          (* [Promise.all] of the pass *)
| EvSplice (p : string) (v : dval)    (* [walkSet({ data: obj }, p, v)] *)
| EvUpdate.                           (* [update?.()] *)

(** How the chain of passes ends: every pass ran, or the [Promise.all] of
    some pass was rejected and its [then] callback never ran. *)
Inductive fill_end : Type := AllPassesRan | PassRejected.

Record fill_result : Type := FillResult {
  fill_obj : dval;
  fill_trace : list event;
  fill_end_of : fill_end
}.

Inductive promise (A : Type) : Type :=
| Fulfilled (a : A)
| Rejected.
Arguments Fulfilled {A} a.
Arguments Rejected {A}.

Section OneTime.
Variable store : remote.

Definition wrap (obj : dval) : dval := VObj [("data", obj)].

(** [walkSet({ data: obj }, path, v)] seen from [obj]: every path but
    ["data"] itself leaves the wrapper's slot pointing at [obj]. *)
Definition walkSet_wrapped (obj : dval) (path : string) (v : dval) : outcome dval :=
  '(wrapper, _) ← walkSet (wrap obj) path v;
  if String.eqb path "data" then Ok obj
  else get_prop wrapper "data".

(** [refs.map((r) => r.ref.withConverter(converter).get())] under
    [Promise.all]: the results in order, or [None] when one is rejected. *)
Fixpoint fetch_all (refs : list entry) : option (list dval) :=
  match refs with
  | [] => Some []
  | r :: refs' =>
      match get_doc store (ref r), fetch_all refs' with
      | Some doc, Some results => Some (snapshot_data doc :: results)
      | _, _ => None
      end
  end.

(** The [refs.forEach] of the [then] callback. *)
Fixpoint splice_all (obj : dval) (refs : list entry) (results : list dval)
  : outcome dval :=
  match refs, results with
  | r :: refs', v :: results' =>
      obj' ← walkSet_wrapped obj (Str.slice 5 (path r)) v;
      splice_all obj' refs' results'
  | _, _ => Ok obj
  end.

Definition splice_events (refs : list entry) (results : list dval) : list event :=
  map (fun rv => EvSplice (Str.slice 5 (path (fst rv))) (snd rv))
      (combine refs results).

(** [fillRefs(obj, update, options)], followed until no callback is pending;
    the argument counts [options.maxRefDepth] down. *)
Fixpoint fillRefs_passes (maxRefDepth : nat) (obj : dval) : outcome fill_result :=
  match maxRefDepth with
  | O => Ok (FillResult obj [] AllPassesRan)
  | S depth =>
      let refs := extractRefs (wrap obj) "data" [] in
      let issued := map (fun r => EvFetch (ref r)) refs ++ [EvAwaitAll] in
      match fetch_all refs with
      | None => Ok (FillResult obj issued PassRejected)
      | Some results =>
          obj' ← splice_all obj refs results;
          rest ← fillRefs_passes depth obj';
          Ok (FillResult (fill_obj rest)
                (issued ++ splice_events refs results ++ [EvUpdate]
                        ++ fill_trace rest)
                (fill_end_of rest))
      end
  end.

Definition fillRefs (obj : dval) (maxRefDepth : Z) : outcome fill_result :=
  fillRefs_passes (Z.to_nat maxRefDepth) obj.

(** ** index.js: get *)

(** What a call of [get] leaves behind: the settlement of the promise it
    returns, [state] at that moment, and the fill that was started but
    neither awaited nor returned, followed to its end.  An exception in
    the body of the [async] function rejects its promise. *)
Record get_result : Type := GetResult {
  returned : promise dval;
  state_at_return : dval;
  filled : option (outcome fill_result)
}.

Definition assign_state (state : dval) (key : string) (v : dval)
           (fill : option (outcome fill_result)) : outcome get_result :=
  match set_prop state key v with
  | Ok state' => Ok (GetResult (Fulfilled v) state' fill)
  | Throw _ => Ok (GetResult Rejected state fill)
  | Unmodelled => Unmodelled
  end.

(** The part of [fillRefs(obj, update, options)] that runs before the
    call returns: the scan, and the calls
    [r.ref.withConverter(converter).get()] that issue the fetches of the
    first pass.  A throw here is a throw of [fillRefs] itself. *)
Definition fill_start (obj : dval) (maxRefDepth : Z) : outcome unit :=
  if (0 <? maxRefDepth)%Z then
    _ ← scan_check (wrap obj);
    if forallb (fun r => has_method (ref r) "withConverter")
               (extractRefs (wrap obj) "data" [])
    then Ok tt
    else Throw TypeError
  else Ok tt.

(** [fillRefs(data, ...); state[key] = data; return data]: a throw of
    [fillRefs] rejects the promise before the assignment. *)
Definition fill_and_assign (state : dval) (key : string) (data : dval)
           (maxRefDepth : Z) : outcome get_result :=
  match fill_start data maxRefDepth with
  | Ok _ => assign_state state key data (Some (fillRefs data maxRefDepth))
  | Throw _ => Ok (GetResult Rejected state None)
  | Unmodelled => Unmodelled
  end.

Definition get (key : string) (query : dval) (state : dval) (maxRefDepth : Z)
  : outcome get_result :=
  match isSingleDocumentQuery query with
  | Ok single =>
      if has_method query "withConverter" then
        if single then
          match get_doc store query with
          | None => Ok (GetResult Rejected state None)
          | Some doc =>
              let data := if snapshot_exists doc then snapshot_data doc
                          else VNull in
              if truthy data then fill_and_assign state key data maxRefDepth
              else assign_state state key data None
          end
        else
          match get_docs store query with
          | None => Ok (GetResult Rejected state None)
          | Some snaps =>
              let docs := VArr (map (fun d => Some (snapshot_data d)) snaps) in
              fill_and_assign state key docs maxRefDepth
          end
      else Ok (GetResult Rejected state None)
  | Throw _ => Ok (GetResult Rejected state None)
  | Unmodelled => Unmodelled
  end.

(** ** index.js: get, once no callback is pending

    The passes of [fillRefs] run after [get] has returned and write into
    the object [get] was fulfilled with, so that object ends as the passes
    leave it.  [state[key]] is that very object until the first pass has
    completed; every completed pass then calls
    [state[key] = Object.assign({}, state[key])] (for a collection,
    [state[key]] is the copy [[...docs]] from the start).  A copy has the
    slots of the original and shares with it every object that sits in
    one: a later splice that goes below a slot which already holds an
    object is seen through the copy, a splice that fills or replaces a
    slot of the object itself is not. *)




End OneTime.

(** ** subscription.js: the arena of Subscription instances

    Instances are objects with identity, so they live in an arena and are
    named by their index.  A child is held by its parent as an instance
    leaf of [subscriptions].  The remote store calls a listener only after
    [onSnapshot] has returned, so [bind] delivers nothing by itself. *)

(** [bindingTarget.object]: the store state, another instance, or an item
    object of a mirrored list (named by the identity the owner gave it). *)
Inductive target_object : Type :=
| TState
| TInstance (i : nat)
| TItem (owner : nat) (item : nat).

(** An element of [this.references]: an entry [{ path, ref }] in document
    mode, an array of entries per item in collection mode. *)
Inductive ref_slot : Type :=
| SlotEntry (e : entry)
| SlotList (es : list entry).

Record instance : Type := Instance {
  query : dval;
  targetObject : target_object;
  targetProperty : string;
  maxRefDepth : Z;                 (* [options.maxRefDepth] *)
  subscriptions : value nat;
  references : list ref_slot;
  data : dval;
  items : list nat;                (* identities of the objects in [data] *)
  unsubscription : option nat      (* [#unsubscription] *)
}.

Inductive live_event : Type :=
| LSubscribe (i : nat) (h : nat)     (* [query.onSnapshot] called by [i], handle [h] *)
| LUnsubscribe (i : nat) (h : nat)   (* [#unsubscription()] called by [i] *)
| LSetData (i : nat) (v : dval)      (* [this.data = ...] in a document listener *)
| LWrite (i : nat) (t : target_object) (p : string) (v : dval)
| LUpdate (i : nat).                 (* [this.#update()] *)

Record world : Type := World {
  insts : gmap nat instance;
  next_inst : nat;
  registry : gmap string nat;      (* the module-level [subscriptions] of index.js *)
  state : dval;
  listening : gset nat;            (* handles not yet released *)
  next_handle : nat;
  next_item : nat;
  trace : list live_event
}.

Definition set_insts (f : gmap nat instance -> gmap nat instance) (w : world) : world :=
  World (f (insts w)) (next_inst w) (registry w) (state w) (listening w)
        (next_handle w) (next_item w) (trace w).

Definition set_state (st : dval) (w : world) : world :=
  World (insts w) (next_inst w) (registry w) st (listening w)
        (next_handle w) (next_item w) (trace w).

Definition set_registry (f : gmap string nat -> gmap string nat) (w : world) : world :=
  World (insts w) (next_inst w) (f (registry w)) (state w) (listening w)
        (next_handle w) (next_item w) (trace w).

Definition emit (e : live_event) (w : world) : world :=
  World (insts w) (next_inst w) (registry w) (state w) (listening w)
        (next_handle w) (next_item w) (trace w ++ [e]).

Definition update_inst (i : nat) (f : instance -> instance) (w : world) : world :=
  set_insts (alter f i) w.

Definition set_subscriptions (c : value nat) (s : instance) : instance :=
  Instance (query s) (targetObject s) (targetProperty s) (maxRefDepth s)
           c (references s) (data s) (items s) (unsubscription s).

Definition set_references (r : list ref_slot) (s : instance) : instance :=
  Instance (query s) (targetObject s) (targetProperty s) (maxRefDepth s)
           (subscriptions s) r (data s) (items s) (unsubscription s).

Definition set_data (d : dval) (s : instance) : instance :=
  Instance (query s) (targetObject s) (targetProperty s) (maxRefDepth s)
           (subscriptions s) (references s) d (items s) (unsubscription s).

Definition set_items (l : list nat) (s : instance) : instance :=
  Instance (query s) (targetObject s) (targetProperty s) (maxRefDepth s)
           (subscriptions s) (references s) (data s) l (unsubscription s).

Definition set_unsubscription (h : option nat) (s : instance) : instance :=
  Instance (query s) (targetObject s) (targetProperty s) (maxRefDepth s)
           (subscriptions s) (references s) (data s) (items s) h.

Definition DEFAULT_maxRefDepth : Z := 2.

(** [new Subscription(query, bindingTarget, update)] *)
Definition new_Subscription (query : dval) (t : target_object) (property : string)
           (w : world) : outcome (nat * world) :=
  single ← isSingleDocumentQuery query;
  let s := Instance query t property DEFAULT_maxRefDepth
                    (if single : bool then VObj [] else VArr [])
                    [] VUndef [] None in
  let i := next_inst w in
  Ok (i, World (<[i := s]> (insts w)) (S i) (registry w) (state w) (listening w)
               (next_handle w) (next_item w) (trace w)).

(** [setOptions(options)] with [options.maxRefDepth] given or not. *)
Definition setOptions (i : nat) (depth : option Z) (w : world) : world :=
  match depth with
  | Some d =>
      update_inst i (fun s =>
        Instance (query s) (targetObject s) (targetProperty s) d
                 (subscriptions s) (references s) (data s) (items s)
                 (unsubscription s)) w
  | None => w
  end.

(** [bind()]: both branches store the handle that [onSnapshot] returns. *)
Definition bind_Subscription (i : nat) (w : world) : outcome world :=
  match insts w !! i with
  | None => Unmodelled
  | Some s =>
      if truthy (query s) then
        _ ← isSingleDocumentQuery (query s);
        let h := next_handle w in
        let w1 := update_inst i (set_unsubscription (Some h)) w in
        Ok (emit (LSubscribe i h)
              (World (insts w1) (next_inst w1) (registry w1) (state w1)
                     ({[h]} ∪ listening w1) (S h) (next_item w1) (trace w1)))
      else Throw (Error "Subscription query not defined")
  end.

Definition insert_at {A : Type} (index : nat) (x : A) (l : list A) : list A :=
  firstn index l ++ x :: skipn index l.

Definition remove_at {A : Type} (index : nat) (l : list A) : list A :=
  firstn index l ++ skipn (S index) l.

(** [arr.splice(index, 0, x)] and [arr.splice(index, 1)] on a value; only
    arrays have the method. *)
Definition splice_in {I : Type} (index : nat) (x : value I) (arr : value I)
  : outcome (value I) :=
  match arr with
  | VArr es => Ok (VArr (insert_at index (Some x) es))
  | VInst _ | VFun _ => Unmodelled
  | _ => Throw TypeError
  end.

Definition splice_out {I : Type} (index : nat) (arr : value I) : outcome (value I) :=
  match arr with
  | VArr es => Ok (VArr (remove_at index es))
  | VInst _ | VFun _ => Unmodelled
  | _ => Throw TypeError
  end.

Definition the_instance (i : nat) (w : world) : outcome instance :=
  match insts w !! i with
  | Some s => Ok s
  | None => Unmodelled
  end.

Fixpoint index_of (x : nat) (l : list nat) : option nat :=
  match l with
  | [] => None
  | y :: l' => if Nat.eqb x y then Some O
               else match index_of x l' with Some n => Some (S n) | None => None end
  end.

(** [walkSet(this.targetObject, this.targetProperty, this.data)].  The
    assignment is replayed on the object the target names; what other
    holders of the same object see through their own slots is left out. *)
Definition write_target (i : nat) (w : world) : outcome world :=
  s ← the_instance i w;
  let w' := emit (LWrite i (targetObject s) (targetProperty s) (data s)) w in
  match targetObject s with
  | TState =>
      '(st, _) ← walkSet (state w) (targetProperty s) (data s);
      Ok (set_state st w')
  | TInstance p =>
      sp ← the_instance p w;
      '(this, _) ← walkSet (VObj [("data", data sp)]) (targetProperty s) (data s);
      d ← get_prop this "data";
      Ok (update_inst p (set_data d) w')
  | TItem p it =>
      sp ← the_instance p w;
      match index_of it (items sp) with
      | Some j =>
          item ← get_prop (data sp) (Str.of_nat j);
          '(item', _) ← walkSet item (targetProperty s) (data s);
          d ← set_prop (data sp) (Str.of_nat j) item';
          Ok (update_inst p (set_data d) w')
      | None => Ok w'
      end
  end.

(** [this.#unsubscription?.()] *)
Definition release (i : nat) (w : world) : outcome world :=
  s ← the_instance i w;
  match unsubscription s with
  | Some h =>
      Ok (emit (LUnsubscribe i h)
            (World (insts w) (next_inst w) (registry w) (state w)
                   (listening w ∖ {[h]}) (next_handle w) (next_item w) (trace w)))
  | None => Ok w
  end.

Section Unbind.
(** [unbind] of the instance found under a path; the recursion is tied
    below. *)
Variable unbind_child : nat -> world -> outcome world.

(** The body of [references.forEach]: [reference.path] is [undefined] when
    the element is not an entry, and [walkGet] then fails on
    [path.replace]. *)
Definition unbind_at (subscriptions : value nat) (path : option string)
           (w : world) : outcome world :=
  match path with
  | None => Throw TypeError
  | Some p =>
      subscription ← walkGet subscriptions p;
      match subscription with
      | VInst c => unbind_child c w
      | VFun _ => Unmodelled
      | _ => Throw TypeError
      end
  end.

Fixpoint unbind_each (subscriptions : value nat) (paths : list (option string))
         (w : world) : outcome world :=
  match paths with
  | [] => Ok w
  | p :: paths' =>
      w' ← unbind_at subscriptions p w;
      unbind_each subscriptions paths' w'
  end.

Definition slot_path (r : ref_slot) : option string :=
  match r with
  | SlotEntry e => Some (path e)
  | SlotList _ => None
  end.

(** [#unbindReferences(index)] *)
Definition unbindReferences (i : nat) (index : option nat) (w : world)
  : outcome world :=
  s ← the_instance i w;
  match index with
  | None =>
      w' ← unbind_each (subscriptions s) (map slot_path (references s)) w;
      Ok (update_inst i (fun s => set_subscriptions (VObj []) (set_references [] s)) w')
  | Some n =>
      subs ← get_prop (subscriptions s) (Str.of_nat n);
      match nth_error (references s) n with
      | Some (SlotList es) =>
          w' ← unbind_each subs (map (fun e => Some (path e)) es) w;
          container ← set_prop (subscriptions s) (Str.of_nat n) (VObj []);
          Ok (update_inst i (fun s =>
                set_subscriptions container
                  (set_references
                     (firstn n (references s) ++ SlotList [] :: skipn (S n) (references s))
                     s)) w')
      | _ => Throw TypeError
      end
  end.

End Unbind.

(** [unbind()]: the children first, then the instance's own listener. *)
Fixpoint unbind_fuel (fuel : nat) (i : nat) (w : world) : outcome world :=
  match fuel with
  | O => Unmodelled
  | S fuel' =>
      w' ← unbindReferences (unbind_fuel fuel') i None w;
      release i w'
  end.

(** Children are created after their parents, so the nesting of instances
    is never deeper than their number. *)
Definition unbind_Subscription (i : nat) (w : world) : outcome world :=
  unbind_fuel (S (next_inst w)) i w.

(** The body of [references.forEach] in [#bindReferences]: construct the
    child, give it the decremented depth, bind it, and file it in the
    container under the reference's path. *)
Definition bind_reference (t : target_object) (startPath : string) (depth : Z)
           (reference : entry) (acc : value nat * world)
  : outcome (value nat * world) :=
  let '(container, w) := acc in
  '(c, w1) ← new_Subscription (ref reference) t (startPath +:+ path reference) w;
  w2 ← bind_Subscription c (setOptions c (Some depth) w1);
  '(container', _) ← walkSet container (path reference) (VInst c);
  Ok (container', w2).

Fixpoint bind_each (t : target_object) (startPath : string) (depth : Z)
         (references : list entry) (acc : value nat * world)
  : outcome (value nat * world) :=
  match references with
  | [] => Ok acc
  | r :: references' =>
      acc' ← bind_reference t startPath depth r acc;
      bind_each t startPath depth references' acc'
  end.

(** [#bindReferences(index)] *)
Definition bindReferences (i : nat) (index : option nat) (w : world)
  : outcome world :=
  s ← the_instance i w;
  if (0 <? maxRefDepth s)%Z then
    match index with
    | None =>
        let refs := extractRefs (data s) "" [] in
        '(container, w') ← bind_each (TInstance i) "data." (maxRefDepth s - 1)
                                     refs (VObj [], w);
        Ok (update_inst i (fun s =>
              set_subscriptions container
                (set_references (map SlotEntry refs) s)) w')
    | Some n =>
        item ← get_prop (data s) (Str.of_nat n);
        _ ← set_prop (subscriptions s) (Str.of_nat n) (VObj []);
        let refs := extractRefs item "" [] in
        '(container, w') ← bind_each (TItem i (nth n (items s) O)) ""
                                     (maxRefDepth s - 1) refs (VObj [], w);
        subs ← set_prop (subscriptions s) (Str.of_nat n) container;
        Ok (update_inst i (fun s =>
              set_subscriptions subs
                (set_references
                   (firstn n (references s) ++ SlotList refs
                           :: skipn (S n) (references s))
                   s)) w')
    end
  else Ok w.

(** The listener of [#bindDocument]. *)
Definition on_document (i : nat) (doc : snapshot) (w : world) : outcome world :=
  _ ← the_instance i w;
  let d := data_or_null doc in
  let w1 := emit (LSetData i d) (update_inst i (set_data d) w) in
  w2 ← write_target i w1;
  w3 ← unbindReferences unbind_Subscription i None w2;
  w4 ← bindReferences i None w3;
  Ok (emit (LUpdate i) w4).

(** One element of [snapshot.docChanges()]. *)
Inductive change : Type :=
| Added (newIndex : nat) (doc : snapshot)
| Modified (oldIndex newIndex : nat) (doc : snapshot)
| Removed (oldIndex : nat) (doc : snapshot).

(** [#addItem(index, data)] *)
Definition addItem (i : nat) (index : nat) (d : dval) (w : world) : outcome world :=
  s ← the_instance i w;
  data' ← splice_in index d (data s);
  subs' ← splice_in index (VObj []) (subscriptions s);
  let w1 :=
    update_inst i (fun s =>
      set_items (insert_at index (next_item w) (items s))
        (set_data data'
           (set_subscriptions subs'
              (set_references (insert_at index (SlotList []) (references s)) s)))) w in
  let w2 := World (insts w1) (next_inst w1) (registry w1) (state w1) (listening w1)
                  (next_handle w1) (S (next_item w1)) (trace w1) in
  bindReferences i (Some index) w2.

(** [#removeItem(index)] *)
Definition removeItem (i : nat) (index : nat) (w : world) : outcome world :=
  w1 ← unbindReferences unbind_Subscription i (Some index) w;
  s ← the_instance i w1;
  data' ← splice_out index (data s);
  subs' ← splice_out index (subscriptions s);
  Ok (update_inst i (fun s =>
        set_items (remove_at index (items s))
          (set_data data'
             (set_subscriptions subs'
                (set_references (remove_at index (references s)) s)))) w1).

Definition apply_change (i : nat) (c : change) (w : world) : outcome world :=
  match c with
  | Added newIndex doc => addItem i newIndex (snapshot_data doc) w
  | Modified oldIndex newIndex doc =>
      w' ← removeItem i oldIndex w;
      addItem i newIndex (snapshot_data doc) w'
  | Removed oldIndex _ => removeItem i oldIndex w
  end.

Fixpoint apply_changes (i : nat) (cs : list change) (w : world) : outcome world :=
  match cs with
  | [] => Ok w
  | c :: cs' =>
      w' ← apply_change i c w;
      apply_changes i cs' w'
  end.

(** The listener of [#bindCollection]. *)
Definition on_collection (i : nat) (changes : list change) (w : world)
  : outcome world :=
  s ← the_instance i w;
  let w1 := if isArray (data s) then w
            else update_inst i (fun s => set_items [] (set_data (VArr []) s)) w in
  w2 ← apply_changes i changes w1;
  write_target i w2.

(** ** index.js: bindFirestoreRef and unbind *)

Section Facade.
(** The result of calling a function value with no arguments. *)
Variable call : nat -> dval.

Definition bindFirestoreRef (key : string) (query : dval) (depth : option Z)
           (w : world) : outcome world :=
  '(i, w1) ← new_Subscription query TState key w;
  let w2 := set_registry (<[key := i]>) w1 in
  bind_Subscription i (setOptions i depth w2).

Definition unbind (key : string) (reset : dval) (w : world) : outcome world :=
  w1 ← match registry w !! key with
       | Some i => unbind_Subscription i w
       | None => Ok w
       end;
  let w2 := set_registry (delete key) w1 in
  match reset with
  | VBool false => Ok w2
  | _ =>
      let v := match reset with VFun f => call f | _ => VNull end in
      st ← set_prop (state w2) key v;
      Ok (set_state st w2)
  end.

End Facade.

Definition empty_world (st : dval) : world :=
  World ∅ O ∅ st ∅ O O [].

(** ** subscription.js: the default update callback

    [this.#update] of an instance constructed without an [update]
    argument: a timer that replaces [this.data] by a shallow copy and
    writes it to the target.  [#bindReferences] hands [this.#update] to
    every child it constructs, so the callback of an instance whose
    target is another instance is the callback of that instance; the
    instances that [bindFirestoreRef] constructs have the state as target
    and the default callback. *)

(** [isArray(d) ? [...d] : { ...d }]: the iterator reads holes as
    [undefined]; spreading [null], [undefined], a number or a boolean
    gives the empty object. *)
Definition shallow_copy (d : dval) : outcome dval :=
  match d with
  | VArr es =>
      Ok (VArr (map (fun e => Some (match e with Some x => x | None => VUndef end))
                    es))
  | VObj ps => Ok (VObj ps)
  | VUndef | VNull | VBool _ | VNum _ => Ok (VObj [])
  | VStr _ | VFun _ | VInst _ => Unmodelled
  end.

(** The body of the timer of the default callback of instance [i]. *)
Definition default_update (i : nat) (w : world) : outcome world :=
  s ← the_instance i w;
  copy ← shallow_copy (data s);
  write_target i (update_inst i (set_data copy) w).

(** The instance whose default callback [this.#update] of [i] is. *)
Fixpoint callback_owner (fuel : nat) (i : nat) (w : world) : option nat :=
  match insts w !! i with
  | None => None
  | Some s =>
      match targetObject s with
      | TState => Some i
      | TInstance p | TItem p _ =>
          match fuel with
          | O => None
          | S fuel' => callback_owner fuel' p w
          end
      end
  end.

(** The timer that [this.#update()] of instance [i] sets, when it fires. *)
Definition run_update (i : nat) (w : world) : outcome world :=
  match callback_owner (next_inst w) i w with
  | Some r => default_update r w
  | None => Unmodelled
  end.

(** * Properties *)

(** ** Scenarios used below *)

Module Scenario.

(** A reference handle: an object with the methods that the program calls
    on a document reference. *)
Definition handle (n : Z) : dval :=
  VObj [("onSnapshot", VFun 0); ("update", VFun 1); ("withConverter", VFun 3);
        ("id", VNum n)].

Definition document_query : dval :=
  VObj [("update", VFun 1); ("onSnapshot", VFun 0); ("withConverter", VFun 3)].
Definition collection_query : dval :=
  VObj [("where", VFun 2); ("onSnapshot", VFun 0); ("withConverter", VFun 3)].

Definition docA : snapshot := Snapshot "A" (Some [("name", VStr "a")]).
Definition docB : snapshot := Snapshot "B" (Some [("name", VStr "b")]).

(** [bindFirestoreRef('employees', query)] on a collection, then one batch
    that adds a single document without any reference in it. *)
Definition bound_collection : outcome world :=
  w ← bindFirestoreRef "employees" collection_query None (empty_world (VObj []));
  on_collection 0 [Added 0 docA] w.

(** A reference whose own fields look like references too, placed at
    [a.b] next to leaves that are not objects. *)
Definition reference_with_inner : dval :=
  VObj [("onSnapshot", VFun 0); ("update", VFun 1); ("withConverter", VFun 3);
        ("parent", handle 2); ("converter", VNull)].

Definition holder : dval :=
  VObj [("n", VNum 3);
        ("a", VObj [("b", reference_with_inner); ("s", VStr "x")])].

(** Two references whose paths read as one inside the other: a field
    [a] and a field named [a.b]. *)
Definition two_handles : dval :=
  VObj [("a", handle 1); ("a.b", handle 2)].

(** References behind a key with a line break and inside an array, next
    to a field with a dotted name that holds no reference. *)
Definition odd_keys : dval :=
  VObj [("a.b", VObj [("n", VNum 1)]);
        (String "x" (String (Ascii.ascii_of_nat 10) "y"), handle 1);
        ("r", VArr [Some (handle 2)])].

(** A store that serves the root document [{ boss: <handle 1> }] and
    rejects every fetch of a reference. *)
Definition failing_store : remote :=
  Remote (fun q => match get_prop q "id" with
                   | Ok (VNum _) => None
                   | _ => Some (Snapshot "root" (Some [("boss", handle 1)]))
                   end)
         (fun _ => None).

(** [bindFirestoreRef('profile', query)] on a single document, and three
    snapshots of it: one with a reference under a plain key, one with two
    references, one with a reference under a key that reads as an index. *)
Definition bound_document : world :=
  match bindFirestoreRef "profile" document_query None (empty_world (VObj [])) with
  | Ok w => w
  | _ => empty_world (VObj [])
  end.

Definition with_friend : snapshot :=
  Snapshot "P" (Some [("name", VStr "p"); ("friend", handle 1)]).

Definition with_team : snapshot :=
  Snapshot "P" (Some [("team", VArr [Some (handle 2); Some (handle 3)])]).



(** The world a listener run ends in, when it ends. *)
Definition after (o : outcome world) : world :=
  match o with
  | Ok w => w
  | _ => empty_world VUndef
  end.


(** [bindFirestoreRef('employees', query)] on a collection, and the world
    after a first batch that adds a document with a reference and one
    without. *)
Definition employees_world : world :=
  after (bindFirestoreRef "employees" collection_query None (empty_world (VObj []))).

Definition two_employees : world :=
  after (on_collection 0 [Added 0 with_friend; Added 1 docB] employees_world).

Definition employees_instance : instance :=
  Instance collection_query TState "employees" DEFAULT_maxRefDepth
           (VArr [Some (VObj [("friend", VInst 1)]); Some (VObj [])])
           [SlotList [Entry "friend" (handle 1)]; SlotList []]
           (VArr [Some (snapshot_data with_friend); Some (snapshot_data docB)])
           [0; 1] (Some 0).


Definition friend_world : world := after (on_document 0 with_friend bound_document).

End Scenario.

(** ** Positions

    A position is the route from a value to something inside it: object
    keys and array indices.  [render] is the path string that the scanner
    builds for a position; [follow] walks a position by plain property
    access. *)

Inductive step : Type :=
| Key (k : string)
| Idx (i : nat).

Definition step_key (s : step) : string :=
  match s with
  | Key k => k
  | Idx i => Str.of_nat i
  end.

Definition child (v : dval) (s : step) : option dval :=
  match v, s with
  | VObj ps, Key k => lookup_prop k ps
  | VArr es, Idx i => elem_at i es
  | _, _ => None
  end.

Fixpoint follow (v : dval) (pos : list step) : option dval :=
  match pos with
  | [] => Some v
  | s :: pos' =>
      match child v s with
      | Some x => follow x pos'
      | None => None
      end
  end.

Definition extend (cur : string) (s : step) : string :=
  match s with
  | Key k => (if String.eqb cur EmptyString then EmptyString else cur +:+ ".") +:+ k
  | Idx i => cur +:+ "[" +:+ Str.of_nat i +:+ "]"
  end.

Definition render (cur : string) (pos : list step) : string :=
  fold_left extend pos cur.

(** The references of a value as the scanner is specified: walk objects
    and arrays in order, report a reference where one is met and do not
    look inside it, ignore everything that is not an object. *)
Fixpoint scan (v : dval) : list (list step * dval) :=
  let visit (s : step) (x : dval) : list (list step * dval) :=
    if isObject x then
      if isFirestoreRef x then [([s], x)]
      else map (fun pr => (s :: fst pr, snd pr)) (scan x)
    else [] in
  match v with
  | VArr elems =>
      (fix each (i : nat) (es : list (option dval)) :=
         match es with
         | [] => []
         | e :: es' =>
             match e with Some x => visit (Idx i) x | None => [] end
               ++ each (S i) es'
         end) O elems
  | VObj props =>
      (fix each (ps : list (string * dval)) :=
         match ps with
         | [] => []
         | (k, x) :: ps' => visit (Key k) x ++ each ps'
         end) props
  | _ => []
  end.

(** [r] is a reference at [pos] with no reference strictly above it
    (the scanned value itself apart). *)
Definition outermost (v : dval) (pos : list step) (r : dval) : Prop :=
  pos <> []
  /\ follow v pos = Some r
  /\ isFirestoreRef r = true
  /\ forall pre suf x,
       pos = pre ++ suf -> pre <> [] -> suf <> [] ->
       follow v pre = Some x -> isFirestoreRef x = false.

(** Representation invariant of document data: an object has each key
    once, an array is no longer than the largest array length. *)
Fixpoint nodup_strings (l : list string) : bool :=
  match l with
  | [] => true
  | k :: l' => negb (existsb (String.eqb k) l') && nodup_strings l'
  end.

Fixpoint well_formed (v : dval) : bool :=
  match v with
  | VObj props =>
      nodup_strings (map fst props)
      && (fix all (ps : list (string * dval)) :=
            match ps with
            | [] => true
            | (_, x) :: ps' => well_formed x && all ps'
            end) props
  | VArr elems =>
      (Z.of_nat (length elems) <=? max_array_length)%Z
      && (fix all (es : list (option dval)) :=
            match es with
            | [] => true
            | Some x :: es' => well_formed x && all es'
            | None :: es' => all es'
            end) elems
  | _ => true
  end.

(** A key that the path syntax can carry: not empty, and free of the dot,
    the opening bracket and line terminators. *)
Definition plain_char (c : ascii) : bool :=
  negb (Ascii.eqb c Chars.dot) && negb (Ascii.eqb c Chars.lbracket)
  && negb (Chars.is_line_terminator c).

Definition plain_key (k : string) : bool :=
  negb (String.eqb k EmptyString) && Str.forallb plain_char k.

(** Every key on the way to a reference is plain. *)
Fixpoint addressable (v : dval) : bool :=
  let below (x : dval) : bool :=
    if isObject x then isFirestoreRef x || addressable x else true in
  match v with
  | VObj props =>
      (fix all (ps : list (string * dval)) :=
         match ps with
         | [] => true
         | (k, x) :: ps' =>
             (if isObject x then plain_key k else true) && below x && all ps'
         end) props
  | VArr elems =>
      (fix all (es : list (option dval)) :=
         match es with
         | [] => true
         | Some x :: es' => below x && all es'
         | None :: es' => all es'
         end) elems
  | _ => true
  end.


(** What [render] appends to a non-empty path, and the same text after
    [walkGet] has rewritten the brackets. *)
Fixpoint suffix (pos : list step) : string :=
  match pos with
  | [] => EmptyString
  | Key k :: pos' => String Chars.dot (k +:+ suffix pos')
  | Idx i :: pos' =>
      String Chars.lbracket (Str.of_nat i +:+ String Chars.rbracket (suffix pos'))
  end.

Fixpoint dotted (pos : list step) : string :=
  match pos with
  | [] => EmptyString
  | s :: pos' => String Chars.dot (step_key s +:+ dotted pos')
  end.

(** ** Paths as dot-separated segments

    A segment is a key, optionally followed by one bracketed index: the
    form that the regular expression of [walkSet] recognises. *)

Definition seg : Type := string * option nat.







(** The values that cannot hold properties. *)
Definition primitive {I : Type} (v : value I) : bool :=
  match v with
  | VUndef | VNull | VBool _ | VNum _ | VStr _ => true
  | _ => false
  end.



(** Two key lists that part ways at some key: neither is a prefix of the
    other. *)
Inductive diverge : list string -> list string -> Prop :=
| diverge_here a b t t' : a <> b -> diverge (a :: t) (b :: t')
| diverge_later a t t' : diverge t t' -> diverge (a :: t) (a :: t').

(** The segments of a position: every index must follow a key. *)
Fixpoint segs_of_pos (pos : list step) : option (list seg) :=
  match pos with
  | [] => Some []
  | Idx _ :: _ => None
  | Key k :: pos' =>
      match pos' with
      | Idx i :: pos'' =>
          match segs_of_pos pos'' with
          | Some segs => Some ((k, Some i) :: segs)
          | None => None
          end
      | _ =>
          match segs_of_pos pos' with
          | Some segs => Some ((k, None) :: segs)
          | None => None
          end
      end
  end.

(** On the way to a reference no array sits directly inside an array, and
    the value itself is no array ([top] marks the places where an index
    would have no key before it). *)
Fixpoint segmentable (top : bool) (v : dval) : bool :=
  let below (t : bool) (x : dval) : bool :=
    if isObject x && negb (isFirestoreRef x) then segmentable t x else true in
  match v with
  | VObj props =>
      (fix all (ps : list (string * dval)) :=
         match ps with
         | [] => true
         | (_, x) :: ps' => below false x && all ps'
         end) props
  | VArr elems =>
      if top then match scan v with [] => true | _ :: _ => false end
      else (fix all (es : list (option dval)) :=
              match es with
              | [] => true
              | Some x :: es' => below true x && all es'
              | None :: es' => all es'
              end) elems
  | _ => true
  end.

(** The document data the path syntax serves: well formed, plain keys on
    the way to references, no directly nested arrays. *)
Definition plain_document (d : dval) : bool :=
  well_formed d && addressable d && segmentable true d.

(** ** Where the tree of own properties is the whole story

    [get_prop], [has_prop] and [set_prop] look at own properties only, a
    string is a list of bytes, and [extractRefs] is the list that the scan
    builds when it runs to its end.  The predicates below mark the inputs
    on which nothing else comes into play in the code: keys that name no
    member of [Object.prototype], written in ASCII; indices that an array
    can hold; objects on which [obj.hasOwnProperty(prop)] reaches
    [Object.prototype.hasOwnProperty]; references that carry the method
    through which they are fetched and listened to. *)

(** The names that every object answers to through [Object.prototype]. *)
Definition object_prototype_names : list string :=
  ["constructor"; "__defineGetter__"; "__defineSetter__"; "hasOwnProperty";
   "__lookupGetter__"; "__lookupSetter__"; "isPrototypeOf";
   "propertyIsEnumerable"; "toString"; "valueOf"; "__proto__";
   "toLocaleString"].

Definition inherited_name (k : string) : bool :=
  existsb (String.eqb k) object_prototype_names.

Definition ascii_only (k : string) : bool :=
  Str.forallb (fun c => Nat.ltb (Chars.code c) 128) k.

(** A key that [walkSet] and [walkGet] treat alike, in the code as in the
    embedding: plain, in ASCII, and not the name of an inherited member. *)
Definition safe_key (k : string) : bool :=
  plain_key k && ascii_only k && negb (inherited_name k).



Definition safe_step (s : step) : bool :=
  match s with
  | Key k => safe_key k
  | Idx _ => true
  end.

(** A key that [walkGet] reads back from a path as one key: not empty,
    without dot and without opening bracket. *)
Definition gettable_key (k : string) : bool :=
  negb (String.eqb k EmptyString)
  && Str.forallb (fun c => negb (Ascii.eqb c Chars.dot)
                           && negb (Ascii.eqb c Chars.lbracket)) k.

Definition gettable_step (s : step) : bool :=
  match s with
  | Key k => gettable_key k
  | Idx _ => true
  end.

(** Every step on the way to a reference satisfies [P]. *)
Definition routes (P : step -> bool) (v : dval) : bool :=
  forallb (fun pr => forallb P (fst pr)) (scan v).

(** Every reference of [v] can be asked for a converted query:
    [ref.withConverter] is a function. *)
Definition handles (v : dval) : bool :=
  forallb (fun pr => has_method (snd pr) "withConverter") (scan v).

(** A plain document on which code and embedding agree. *)
Definition safe_document (d : dval) : bool :=
  plain_document d && routes safe_step d && scannable d && handles d.

(** ** Resolving references, as the specification has it

    [subst f v] is [v] with every reference that the scan reports
    replaced by what [f] makes of it; [resolve store n d] is [d] with [n]
    levels of references replaced by the documents they lead to. *)
Fixpoint subst (f : dval -> dval) (v : dval) : dval :=
  let visit (x : dval) : dval :=
    if isObject x then
      if isFirestoreRef x then f x else subst f x
    else x in
  match v with
  | VObj props =>
      VObj ((fix each (ps : list (string * dval)) :=
               match ps with
               | [] => []
               | (k, x) :: ps' => (k, visit x) :: each ps'
               end) props)
  | VArr elems =>
      VArr ((fix each (es : list (option dval)) :=
               match es with
               | [] => []
               | e :: es' =>
                   match e with Some x => Some (visit x) | None => None end
                     :: each es'
               end) elems)
  | _ => v
  end.

(** What the fetch of [r] is fulfilled with, [r] itself where the store
    rejects the fetch. *)
Definition fetched (store : remote) (r : dval) : dval :=
  match get_doc store r with
  | Some doc => snapshot_data doc
  | None => r
  end.

Fixpoint resolve (store : remote) (n : nat) (d : dval) : dval :=
  match n with
  | O => d
  | S n' => subst (fun r => resolve store n' (fetched store r)) d
  end.

(** Down to depth [n] below [d], every document satisfies [P], every
    reference leads to a document that the store serves, and no document
    looks like a reference itself. *)
Fixpoint levels (P : dval -> bool) (store : remote) (n : nat) (d : dval) : bool :=
  match n with
  | O => true
  | S n' =>
      P d
      && forallb (fun pr =>
                    match get_doc store (snd pr) with
                    | Some doc =>
                        negb (isFirestoreRef (snapshot_data doc))
                        && levels P store n' (snapshot_data doc)
                    | None => false
                    end) (scan d)
  end.

(** [n] levels of [d] can be resolved: down to that depth the documents
    are ones on which code and embedding agree. *)
Definition resolvable : remote -> nat -> dval -> bool := levels safe_document.




(** Every reference that the scan reports satisfies [G]. *)
Definition on_refs (G : dval -> Prop) (v : dval) : Prop :=
  forall pos r, In (pos, r) (scan v) -> G r.

(** What [subst] makes of a field or an element. *)
Definition subst_visit (f : dval -> dval) (x : dval) : dval :=
  if isObject x then
    if isFirestoreRef x then f x else subst f x
  else x.









(** [#bindReferences], the container alone: the children are filed under
    the paths of the references, in order, named from [n] on. *)
Fixpoint file_each (n : nat) (refs : list entry) (c : value nat)
  : outcome (value nat) :=
  match refs with
  | [] => Ok c
  | r :: refs' =>
      '(c', _) ← walkSet c (path r) (VInst n);
      file_each (S n) refs' c'
  end.








(** ** Reading the live trace *)

Definition is_unsubscribe (e : live_event) : bool :=
  match e with LUnsubscribe _ _ => true | _ => false end.

(** The children that [#bindReferences] creates for [n] references in a
    world whose next instance and next handle are [i0] and [h0]: instance
    and handle, in order. *)
Definition children_of (i0 h0 n : nat) : list (nat * nat) :=
  map (fun k => (i0 + k, h0 + k)) (seq 0 n).

Definition subscribes (l : list (nat * nat)) : list live_event :=
  map (fun ch => LSubscribe (fst ch) (snd ch)) l.


(** An instance apart from the two fields that unbinding resets. *)
Definition core (s : instance) : instance :=
  set_subscriptions (VObj []) (set_references [] s).

(** The instance whose [data] a write to the target lands in. *)
Definition owner (t : target_object) : option nat :=
  match t with
  | TState => None
  | TInstance p => Some p
  | TItem p _ => Some p
  end.

(** ** Reading a batch of changes

    What a batch does to the mirrored list and to the list of reference
    slots, written as list operations. *)

Definition elems_of {I : Type} (v : value I) : list (option (value I)) :=
  match v with
  | VArr es => es
  | _ => []
  end.

(** The references that binding looks at, under a depth budget that is
    positive or not. *)
Definition refs_of (budget : bool) (d : dval) : list entry :=
  if budget then extractRefs d "" [] else [].

Definition mirror_change (c : change) (es : list (option dval))
  : list (option dval) :=
  match c with
  | Added n doc => insert_at n (Some (snapshot_data doc)) es
  | Modified o n doc => insert_at n (Some (snapshot_data doc)) (remove_at o es)
  | Removed o _ => remove_at o es
  end.

Definition mirror (cs : list change) (es : list (option dval))
  : list (option dval) :=
  fold_left (fun es c => mirror_change c es) cs es.

Definition slots_change (budget : bool) (c : change) (rs : list ref_slot)
  : list ref_slot :=
  match c with
  | Added n doc => insert_at n (SlotList (refs_of budget (snapshot_data doc))) rs
  | Modified o n doc =>
      insert_at n (SlotList (refs_of budget (snapshot_data doc))) (remove_at o rs)
  | Removed o _ => remove_at o rs
  end.

Definition slots (budget : bool) (cs : list change) (rs : list ref_slot)
  : list ref_slot :=
  fold_left (fun rs c => slots_change budget c rs) cs rs.

(** The indices of a batch fit a list of [len] items: an added item goes
    at most one past the end, a removed one is there. *)
Fixpoint in_range (cs : list change) (len : nat) : bool :=
  match cs with
  | [] => true
  | Added n _ :: cs' => Nat.leb n len && in_range cs' (S len)
  | Modified o n _ :: cs' =>
      Nat.ltb o len && Nat.leb n (len - 1) && in_range cs' len
  | Removed o _ :: cs' => Nat.ltb o len && in_range cs' (len - 1)
  end.

Definition is_subscribe (e : live_event) : bool :=
  match e with LSubscribe _ _ => true | _ => false end.

Definition is_binding (e : live_event) : bool :=
  is_subscribe e || is_unsubscribe e.

(** The events of a batch, change by change: an added document subscribes
    once per reference it holds, a removed one only unsubscribes, a
    modified one does the one and then the other. *)
Inductive batch_events (budget : bool) : list change -> list live_event -> Prop :=
| batch_done : batch_events budget [] []
| batch_added n doc cs B E :
    forallb is_subscribe B = true ->
    length B = length (refs_of budget (snapshot_data doc)) ->
    batch_events budget cs E ->
    batch_events budget (Added n doc :: cs) (B ++ E)
| batch_modified o n doc cs U B E :
    forallb is_unsubscribe U = true ->
    forallb is_subscribe B = true ->
    length B = length (refs_of budget (snapshot_data doc)) ->
    batch_events budget cs E ->
    batch_events budget (Modified o n doc :: cs) (U ++ B ++ E)
| batch_removed o doc cs U E :
    forallb is_unsubscribe U = true ->
    batch_events budget cs E ->
    batch_events budget (Removed o doc :: cs) (U ++ E).

(** The three parallel lists of a collection listener have one length. *)
Definition aligned (s : instance) : Prop :=
  length (references s) = length (elems_of (data s))
  /\ exists ss, subscriptions s = VArr ss
                /\ length ss = length (elems_of (data s)).

(** ** Parents before children

    Instances are numbered as they are constructed, and a child is
    constructed by its parent: the instances filed in the [subscriptions]
    of an instance have larger numbers than the instance itself. *)

Fixpoint all_insts (p : nat -> bool) (v : value nat) : bool :=
  match v with
  | VInst c => p c
  | VObj ps => forallb (fun kv => all_insts p (snd kv)) ps
  | VArr es => forallb (fun e => match e with
                                 | Some x => all_insts p x
                                 | None => true
                                 end) es
  | _ => true
  end.

Definition above (j : nat) (v : value nat) : bool := all_insts (Nat.ltb j) v.

Definition ordered (w : world) : Prop :=
  map_Forall (fun j s => above j (subscriptions s) = true) (insts w).

(** ** The shape of a fill trace

    A trace is phased when it is a sequence of passes, each one made of the
    fetches it issues, the single await, and then either nothing more (the
    pass was rejected and ends the chain) or one splice per fetch and the
    update callback. *)

Definition is_fetch (e : event) : bool :=
  match e with EvFetch _ => true | _ => false end.

Definition is_splice (e : event) : bool :=
  match e with EvSplice _ _ => true | _ => false end.

Inductive phased : list event -> fill_end -> Prop :=
| phased_done : phased [] AllPassesRan
| phased_rejected fetches :
    forallb is_fetch fetches = true ->
    phased (fetches ++ [EvAwaitAll]) PassRejected
| phased_pass fetches splices rest e :
    forallb is_fetch fetches = true ->
    forallb is_splice splices = true ->
    length splices = length fetches ->
    phased rest e ->
    phased (fetches ++ [EvAwaitAll] ++ splices ++ [EvUpdate] ++ rest) e.

(** The object obtained from [obj] by the splices of a trace, in order. *)
Fixpoint replay (tr : list event) (obj : dval) : outcome dval :=
  match tr with
  | [] => Ok obj
  | EvSplice p v :: tr' => obj' ← walkSet_wrapped obj p v; replay tr' obj'
  | _ :: tr' => replay tr' obj
  end.

(** What the caller of [get] observes when the returned promise settles. *)
Definition settlement (o : outcome get_result) : outcome (promise dval * dval) :=
  r ← o; Ok (returned r, state_at_return r).

(** ** A chain of nested references

    Document [k] holds, under [next], a reference to document [k + 1]. *)

Module Chain.

Definition link (k : nat) : dval :=
  VObj [("onSnapshot", VFun 0); ("update", VFun 1); ("withConverter", VFun 3);
        ("level", VNum (Z.of_nat k))].

Definition name (k : nat) : string := "doc" +:+ Str.of_nat k.

Definition store : remote :=
  Remote (fun q => match get_prop q "level" with
                   | Ok (VNum z) =>
                       Some (Snapshot (name (Z.to_nat z))
                                      (Some [("next", link (S (Z.to_nat z)))]))
                   | _ => None
                   end)
         (fun _ => None).

(** Document [k] with [j] levels below it inlined and [inner] in the
    innermost [next]. *)
Fixpoint nest (j k : nat) (inner : dval) : dval :=
  VObj [("id", VStr (name k));
        ("next", match j with
                 | O => inner
                 | S j' => nest j' (S k) inner
                 end)].

(** Document [0] with [j] levels resolved: the innermost [next] is still
    the handle of document [j + 1]. *)
Definition resolved (j : nat) : dval := nest j 0 (link (S j)).



End Chain.

(** ** walkSet: what the reduction returns *)

(** C9, at the input [walkSet({}, 'a.b', 1)]: the root is mutated in place
    and becomes [{ a: { b: 1 } }], but the value returned is the inner
    object [{ b: 1 }] that received the last segment, not the root. *)
Theorem walkSet_returns_last_container :
  walkSet (VObj [] : dval) "a.b" (VNum 1)
  = Ok (VObj [("a", VObj [("b", VNum 1)])], VObj [("b", VNum 1)])
  /\ (VObj [("b", VNum 1)] : dval) <> VObj [("a", VObj [("b", VNum 1)])].
Proof. split; [reflexivity | discriminate]. Qed.

(** ** Subscription.unbind on a collection *)

(** C8, at a bound collection holding one document: [unbind()] enters
    [#unbindReferences] with no index, reads [path] off the per-item array
    in [this.references], and [walkGet] throws a [TypeError]; the remote
    listener is still registered. *)
Theorem unbind_collection_throws :
  exists w,
    Scenario.bound_collection = Ok w
    /\ data <$> (insts w !! 0) = Some (VArr [Some (snapshot_data Scenario.docA)])
    /\ references <$> (insts w !! 0) = Some [SlotList []]
    /\ unsubscription <$> (insts w !! 0) = Some (Some 0)
    /\ 0 ∈ listening w
    /\ unbind_Subscription 0 w = Throw TypeError.
Proof.
  eexists. split; [vm_compute; reflexivity |].
  split; [vm_compute; reflexivity |].
  split; [vm_compute; reflexivity |].
  split; [vm_compute; reflexivity |].
  split; [| vm_compute; reflexivity].
  apply (bool_decide_unpack _). vm_compute. exact I.
Qed.

(** C6, at the same bound collection: [unbind(state, 'employees')] throws
    out of [subscriptions[key]?.unbind()], before the registry entry is
    deleted and before [state[key]] is reset. *)
Theorem facade_unbind_collection_throws :
  forall call,
  exists w,
    Scenario.bound_collection = Ok w
    /\ registry w !! "employees" = Some 0
    /\ unbind call "employees" VUndef w = Throw TypeError.
Proof.
  intros call. eexists. split; [vm_compute; reflexivity |].
  split; vm_compute; reflexivity.
Qed.

(** ** One-time mode: a rejected pass *)

Lemma fetch_all_length store refs results :
  fetch_all store refs = Some results -> length results = length refs.
Proof.
  revert results. induction refs as [| r refs IH]; intros results H; simpl in H.
  - injection H as <-. reflexivity.
  - destruct (get_doc store (ref r)); [| discriminate].
    destruct (fetch_all store refs) as [rs |]; [| discriminate].
    injection H as <-. simpl. f_equal. apply IH. reflexivity.
Qed.

Lemma replay_fetches refs tr obj :
  replay (map (fun r => EvFetch (ref r)) refs ++ tr) obj = replay tr obj.
Proof. induction refs as [| r refs IH]; simpl; auto. Qed.

Lemma replay_splices refs : forall results tr obj,
  replay (splice_events refs results ++ tr) obj
  = (obj' ← splice_all obj refs results; replay tr obj').
Proof.
  induction refs as [| r refs IH]; intros results tr obj.
  - reflexivity.
  - destruct results as [| v results]; [reflexivity |].
    change (replay (splice_events (r :: refs) (v :: results) ++ tr) obj)
      with (obj' ← walkSet_wrapped obj (Str.slice 5 (path r)) v;
            replay (splice_events refs results ++ tr) obj').
    change (splice_all obj (r :: refs) (v :: results))
      with (obj' ← walkSet_wrapped obj (Str.slice 5 (path r)) v;
            splice_all obj' refs results).
    destruct (walkSet_wrapped obj (Str.slice 5 (path r)) v) as [obj' | e |];
      simpl; try reflexivity.
    apply IH.
Qed.

Lemma forallb_fetches refs :
  forallb is_fetch (map (fun r => EvFetch (ref r)) refs) = true.
Proof. induction refs; simpl; auto. Qed.

Lemma forallb_splices refs results :
  forallb is_splice (splice_events refs results) = true.
Proof.
  unfold splice_events.
  induction (combine refs results) as [| [r v] l IH]; simpl; auto.
Qed.

Lemma splice_events_length store refs results :
  fetch_all store refs = Some results ->
  length (splice_events refs results) = length refs.
Proof.
  intros H. apply fetch_all_length in H. unfold splice_events.
  rewrite length_map, length_combine. lia.
Qed.

Lemma fillRefs_passes_S store depth obj :
  fillRefs_passes store (S depth) obj
  = let refs := extractRefs (wrap obj) "data" [] in
    let issued := map (fun r => EvFetch (ref r)) refs ++ [EvAwaitAll] in
    match fetch_all store refs with
    | None => Ok (FillResult obj issued PassRejected)
    | Some results =>
        obj' ← splice_all obj refs results;
        rest ← fillRefs_passes store depth obj';
        Ok (FillResult (fill_obj rest)
              (issued ++ splice_events refs results ++ [EvUpdate]
                      ++ fill_trace rest)
              (fill_end_of rest))
    end.
Proof. reflexivity. Qed.

Lemma fill_phased_replay store n : forall obj r,
  fillRefs_passes store n obj = Ok r ->
  phased (fill_trace r) (fill_end_of r)
  /\ replay (fill_trace r) obj = Ok (fill_obj r).
Proof.
  induction n as [| n IH]; intros obj r H.
  - injection H as <-. split; [constructor | reflexivity].
  - rewrite fillRefs_passes_S in H.
    set (refs := extractRefs (wrap obj) "data" []) in *. cbv zeta in H.
    destruct (fetch_all store refs) as [results |] eqn:Hf.
    + destruct (splice_all obj refs results) as [obj' | |] eqn:Hs;
        try discriminate.
      cbn [mbind outcome_bind bind] in H.
      destruct (fillRefs_passes store n obj') as [rest | |] eqn:Hr;
        try discriminate.
      cbn [mbind outcome_bind bind] in H. injection H as <-.
      cbn [fill_trace fill_end_of fill_obj].
      destruct (IH _ _ Hr) as [Hp Hrep]. split.
      * rewrite <- app_assoc.
        apply (phased_pass _ (splice_events refs results)); auto.
        -- apply forallb_fetches.
        -- apply forallb_splices.
        -- rewrite length_map. eapply splice_events_length; eauto.
      * rewrite <- app_assoc, replay_fetches.
        change (replay ([EvAwaitAll] ++ ?t) obj) with (replay t obj).
        rewrite replay_splices, Hs. exact Hrep.
    + injection H as <-. cbn [fill_trace fill_end_of fill_obj]. split.
      * apply phased_rejected, forallb_fetches.
      * rewrite replay_fetches. reflexivity.
Qed.

Lemma get_settlement_own_fetch store store' key q st d :
  get_doc store' q = get_doc store q -> get_docs store' q = get_docs store q ->
  settlement (get store' key q st d) = settlement (get store key q st d).
Proof.
  intros Hd Hds. unfold get. rewrite Hd, Hds.
  destruct (isSingleDocumentQuery q) as [[|] | |]; try reflexivity;
    destruct (has_method q "withConverter"); try reflexivity.
  - destruct (get_doc store q) as [doc |]; [| reflexivity].
    destruct (truthy _); [| reflexivity].
    unfold fill_and_assign, assign_state.
    destruct (fill_start _ d) as [[] | |]; try reflexivity.
    destruct (set_prop st key _); reflexivity.
  - destruct (get_docs store q) as [snaps |]; [| reflexivity].
    unfold fill_and_assign, assign_state.
    destruct (fill_start _ d) as [[] | |]; try reflexivity.
    destruct (set_prop st key _); reflexivity.
Qed.

Lemma fetch_all_rejected store refs e :
  In e refs -> get_doc store (ref e) = None -> fetch_all store refs = None.
Proof.
  induction refs as [| r refs IH]; [intros [] |].
  intros [-> | Hin] He; cbn [fetch_all].
  - now rewrite He.
  - rewrite (IH Hin He). now destruct (get_doc store (ref r)).
Qed.

Lemma fetch_all_None store refs :
  fetch_all store refs = None ->
  exists e, In e refs /\ get_doc store (ref e) = None.
Proof.
  induction refs as [| r refs IH]; [discriminate |].
  cbn [fetch_all]. destruct (get_doc store (ref r)) as [doc |] eqn:Hd.
  - destruct (fetch_all store refs) as [results |]; [discriminate |].
    intros _. destruct (IH eq_refl) as [e [Hin He]].
    exists e. split; [now right | exact He].
  - intros _. exists r. split; [now left | exact Hd].
Qed.

(** The pass that ends the chain left the object as it found it, and one
    of the fetches it issued was rejected. *)
Lemma rejected_pass_has_rejected_fetch store n : forall obj r,
  fillRefs_passes store n obj = Ok r -> fill_end_of r = PassRejected ->
  exists e, In e (extractRefs (wrap (fill_obj r)) "data" [])
            /\ get_doc store (ref e) = None.
Proof.
  induction n as [| n IH]; intros obj r H Hend.
  - injection H as <-. discriminate Hend.
  - rewrite fillRefs_passes_S in H. cbv zeta in H.
    destruct (fetch_all store (extractRefs (wrap obj) "data" []))
      as [results |] eqn:Hf.
    + destruct (splice_all obj _ results) as [obj' | |] eqn:Hs;
        try discriminate.
      cbn [mbind outcome_bind bind] in H.
      destruct (fillRefs_passes store n obj') as [rest | |] eqn:Hr;
        try discriminate.
      cbn [mbind outcome_bind bind] in H. injection H as <-.
      cbn [fill_end_of fill_obj] in *. now apply (IH obj' rest).
    + injection H as <-. cbn [fill_obj]. now apply fetch_all_None.
Qed.

(** C5 as it holds on the code.  Every pass issues all its fetches before
    its single await.  A pass one of whose fetches is rejected is rejected
    as a whole: it splices nothing, calls no update, and ends the chain,
    so the object is exactly what the splices of the completed passes made
    of it; a chain that ended this way stopped at a pass with a rejected
    fetch.  And the way the promise of [get] settles depends on the fetch
    of the query itself, not on what the store answers for a reference:
    the chain of passes is neither awaited nor returned. *)
Theorem fill_fails_fast_unobserved_by_get
  store n obj r (H : fillRefs_passes store n obj = Ok r) :
  phased (fill_trace r) (fill_end_of r)
  /\ replay (fill_trace r) obj = Ok (fill_obj r)
  /\ (forall e,
        n <> 0 -> scannable (wrap obj) = true ->
        forallb (fun x => has_method (ref x) "withConverter")
                (extractRefs (wrap obj) "data" []) = true ->
        In e (extractRefs (wrap obj) "data" []) ->
        get_doc store (ref e) = None ->
        r = FillResult obj
              (map (fun x => EvFetch (ref x)) (extractRefs (wrap obj) "data" [])
                   ++ [EvAwaitAll])
              PassRejected)
  /\ (fill_end_of r = PassRejected ->
      exists e, In e (extractRefs (wrap (fill_obj r)) "data" [])
                /\ get_doc store (ref e) = None)
  /\ (forall store' key q st d,
        get_doc store' q = get_doc store q ->
        get_docs store' q = get_docs store q ->
        settlement (get store' key q st d) = settlement (get store key q st d)).
Proof.
  destruct (fill_phased_replay store n obj r H) as [Hp Hr].
  split; [exact Hp |]. split; [exact Hr |]. split; [| split].
  - intros e Hn _ _ Hin He. destruct n as [| n]; [congruence |].
    rewrite fillRefs_passes_S in H. cbv zeta in H.
    rewrite (fetch_all_rejected store _ e Hin He) in H. now injection H as <-.
  - now apply (rejected_pass_has_rejected_fetch store n obj).
  - intros. now apply get_settlement_own_fetch.
Qed.

Lemma fill_fails_fast_unobserved_by_get_witness :
  exists r,
    fillRefs_passes Scenario.failing_store 2
      (VObj [("boss", Scenario.handle 1)]) = Ok r
    /\ phased (fill_trace r) (fill_end_of r)
    /\ replay (fill_trace r) (VObj [("boss", Scenario.handle 1)]) = Ok (fill_obj r)
    /\ r = FillResult (VObj [("boss", Scenario.handle 1)])
             [EvFetch (Scenario.handle 1); EvAwaitAll] PassRejected.
Proof.
  eexists. split; [reflexivity |].
  pose proof (fill_fails_fast_unobserved_by_get Scenario.failing_store 2
                (VObj [("boss", Scenario.handle 1)]) _ eq_refl)
    as [Hp [Hr [Hfast _]]].
  split; [exact Hp |]. split; [exact Hr |].
  apply (Hfast (Entry "data.data.boss" (Scenario.handle 1)));
    [discriminate | reflexivity | reflexivity | now left | reflexivity].
Defined.

(** C5 as stated fails: with a root document whose only reference cannot
    be fetched, the first pass is rejected, yet the promise returned by
    [get] is fulfilled with the document. *)
Lemma get_fulfilled_despite_rejected_fetch :
  exists r f,
    get Scenario.failing_store "company" Scenario.document_query (VObj []) 2 = Ok r
    /\ filled r = Some (Ok f)
    /\ fill_end_of f = PassRejected
    /\ fill_obj f = VObj [("id", VStr "root"); ("boss", Scenario.handle 1)]
    /\ returned r
       = Fulfilled (VObj [("id", VStr "root"); ("boss", Scenario.handle 1)]).
Proof.
  eexists. eexists. split; [vm_compute; reflexivity |].
  split; [reflexivity |]. repeat split; reflexivity.
Qed.

(** ** Facts about strings *)

Lemma append_assoc (a b c : string) : (a +:+ b) +:+ c = a +:+ (b +:+ c).
Proof.
  induction a as [| x a IH]; [reflexivity |].
  change (String x ((a +:+ b) +:+ c) = String x (a +:+ (b +:+ c))).
  now f_equal.
Qed.

Lemma append_cons c (a b : string) : String c a +:+ b = String c (a +:+ b).
Proof. reflexivity. Qed.

Lemma append_nonempty_l (a b : string) :
  a <> EmptyString -> String.eqb (a +:+ b) EmptyString = false.
Proof. destruct a; [congruence | reflexivity]. Qed.

(** ** The four steps of the walkSet reducer *)

Section WalkSetSteps.
Context {I : Type}.
Implicit Types (obj v : value I) (rest : list string).

Lemma walkSet_from_plain_last obj segment v :
  Regex.array_match segment = None ->
  walkSet_from obj [segment] v = (obj1 ← set_prop obj segment v; Ok (obj1, obj1)).
Proof. intros H. cbn [walkSet_from]. now rewrite H. Qed.

Lemma walkSet_from_plain_more obj segment s2 rest v :
  Regex.array_match segment = None ->
  walkSet_from obj (segment :: s2 :: rest) v
  = (cur ← get_prop obj segment;
     obj1 ← (if truthy cur then Ok obj else set_prop obj segment (VObj []));
     next ← get_prop obj1 segment;
     '(next', res) ← walkSet_from next (s2 :: rest) v;
     Ok (store_back obj1 segment next', res)).
Proof.
  intros H. change (walkSet_from obj (segment :: s2 :: rest) v)
    with (match Regex.array_match segment with
          | Some (arrayName, arrayIndex) =>
              let ix := Str.of_nat arrayIndex in
              cur ← get_prop obj arrayName;
              obj1 ← (if truthy cur then Ok obj else set_prop obj arrayName (VArr []));
              arr ← get_prop obj1 arrayName;
              len ← get_prop arr length_key;
              short ← lt_number len (Z.of_nat arrayIndex + 1);
              arr1 ← (if short : bool
                      then set_prop arr length_key (VNum (Z.of_nat arrayIndex + 1))
                      else Ok arr);
              item ← get_prop arr1 ix;
              arr2 ← (if truthy item then Ok arr1 else set_prop arr1 ix (VObj []));
              next ← get_prop arr2 ix;
              '(next', res) ← walkSet_from next (s2 :: rest) v;
              Ok (store_back obj1 arrayName (store_back arr2 ix next'), res)
          | None =>
              cur ← get_prop obj segment;
              obj1 ← (if truthy cur then Ok obj else set_prop obj segment (VObj []));
              next ← get_prop obj1 segment;
              '(next', res) ← walkSet_from next (s2 :: rest) v;
              Ok (store_back obj1 segment next', res)
          end).
  now rewrite H.
Qed.

Lemma walkSet_from_array_last obj segment arrayName arrayIndex v :
  Regex.array_match segment = Some (arrayName, arrayIndex) ->
  walkSet_from obj [segment] v
  = (cur ← get_prop obj arrayName;
     obj1 ← (if truthy cur then Ok obj else set_prop obj arrayName (VArr []));
     arr ← get_prop obj1 arrayName;
     len ← get_prop arr length_key;
     short ← lt_number len (Z.of_nat arrayIndex + 1);
     arr1 ← (if short : bool
             then set_prop arr length_key (VNum (Z.of_nat arrayIndex + 1))
             else Ok arr);
     arr2 ← set_prop arr1 (Str.of_nat arrayIndex) v;
     Ok (store_back obj1 arrayName arr2, store_back obj1 arrayName arr2)).
Proof. intros H. cbn [walkSet_from]. now rewrite H. Qed.

Lemma walkSet_from_array_more obj segment arrayName arrayIndex s2 rest v :
  Regex.array_match segment = Some (arrayName, arrayIndex) ->
  walkSet_from obj (segment :: s2 :: rest) v
  = (cur ← get_prop obj arrayName;
     obj1 ← (if truthy cur then Ok obj else set_prop obj arrayName (VArr []));
     arr ← get_prop obj1 arrayName;
     len ← get_prop arr length_key;
     short ← lt_number len (Z.of_nat arrayIndex + 1);
     arr1 ← (if short : bool
             then set_prop arr length_key (VNum (Z.of_nat arrayIndex + 1))
             else Ok arr);
     item ← get_prop arr1 (Str.of_nat arrayIndex);
     arr2 ← (if truthy item then Ok arr1
             else set_prop arr1 (Str.of_nat arrayIndex) (VObj []));
     next ← get_prop arr2 (Str.of_nat arrayIndex);
     '(next', res) ← walkSet_from next (s2 :: rest) v;
     Ok (store_back obj1 arrayName
           (store_back arr2 (Str.of_nat arrayIndex) next'), res)).
Proof.
  intros H. change (walkSet_from obj (segment :: s2 :: rest) v)
    with (match Regex.array_match segment with
          | Some (arrayName, arrayIndex) =>
              let ix := Str.of_nat arrayIndex in
              cur ← get_prop obj arrayName;
              obj1 ← (if truthy cur then Ok obj else set_prop obj arrayName (VArr []));
              arr ← get_prop obj1 arrayName;
              len ← get_prop arr length_key;
              short ← lt_number len (Z.of_nat arrayIndex + 1);
              arr1 ← (if short : bool
                      then set_prop arr length_key (VNum (Z.of_nat arrayIndex + 1))
                      else Ok arr);
              item ← get_prop arr1 ix;
              arr2 ← (if truthy item then Ok arr1 else set_prop arr1 ix (VObj []));
              next ← get_prop arr2 ix;
              '(next', res) ← walkSet_from next (s2 :: rest) v;
              Ok (store_back obj1 arrayName (store_back arr2 ix next'), res)
          | None =>
              cur ← get_prop obj segment;
              obj1 ← (if truthy cur then Ok obj else set_prop obj segment (VObj []));
              next ← get_prop obj1 segment;
              '(next', res) ← walkSet_from next (s2 :: rest) v;
              Ok (store_back obj1 segment next', res)
          end).
  now rewrite H.
Qed.

End WalkSetSteps.

(** ** Induction on values *)

Section ValueInduction.
Context {I : Type} (P : value I -> Prop).
Hypothesis Hleaf :
  forall v, match v with VObj _ | VArr _ => False | _ => True end -> P v.
Hypothesis Hobj : forall ps, Forall (fun kv => P (snd kv)) ps -> P (VObj ps).
Hypothesis Harr :
  forall es, Forall (fun e => forall x, e = Some x -> P x) es -> P (VArr es).

Fixpoint value_induction (v : value I) : P v :=
  match v with
  | VObj ps =>
      Hobj ps
        ((fix all (l : list (string * value I)) : Forall (fun kv => P (snd kv)) l :=
            match l with
            | [] => List.Forall_nil _
            | kv :: l' => @List.Forall_cons _ _ kv l' (value_induction (snd kv)) (all l')
            end) ps)
  | VArr es =>
      Harr es
        ((fix all (l : list (option (value I)))
            : Forall (fun e => forall x, e = Some x -> P x) l :=
            match l with
            | [] => List.Forall_nil _
            | e :: l' =>
                @List.Forall_cons _ _ e l'
                  (match e as e0 return forall x, e0 = Some x -> P x with
                   | Some y => fun x H =>
                       match H in _ = o
                             return match o with Some z => P z | None => True end
                       with eq_refl => value_induction y end
                   | None => fun x H =>
                       match H in _ = o
                             return match o with Some z => P x | None => True end
                       with eq_refl => Logic.I end
                   end)
                  (all l')
            end) es)
  | VUndef => Hleaf VUndef Logic.I
  | VNull => Hleaf VNull Logic.I
  | VBool b => Hleaf (VBool b) Logic.I
  | VNum n => Hleaf (VNum n) Logic.I
  | VStr s => Hleaf (VStr s) Logic.I
  | VFun f => Hleaf (VFun f) Logic.I
  | VInst i => Hleaf (VInst i) Logic.I
  end.

End ValueInduction.

(** ** The scanner agrees with its specification *)

Definition to_entry (cur : string) (pr : list step * dval) : entry :=
  Entry (render cur (fst pr)) (snd pr).

Lemma to_entry_cons cur s l :
  map (to_entry cur) (map (fun pr => (s :: fst pr, snd pr)) l)
  = map (to_entry (extend cur s)) l.
Proof. rewrite map_map. reflexivity. Qed.

Lemma extractRefs_scan (v : dval) : forall cur subs,
  extractRefs v cur subs = subs ++ map (to_entry cur) (scan v).
Proof.
  induction v as [v Hv | ps IH | es IH] using value_induction; intros cur subs.
  - destruct v; try contradiction; cbn; now rewrite app_nil_r.
  - cbn [extractRefs scan]. revert subs.
    induction IH as [| [k x] ps Hx _ IHps]; intros subs.
    + cbn. now rewrite app_nil_r.
    + cbn [fst snd] in Hx. rewrite map_app, app_assoc. rewrite <- IHps.
      f_equal. destruct (isObject x); [| now rewrite app_nil_r].
      destruct (isFirestoreRef x); [reflexivity |].
      rewrite to_entry_cons. apply Hx.
  - cbn [extractRefs scan]. generalize 0. revert subs.
    induction IH as [| e es He _ IHes]; intros subs i.
    + cbn. now rewrite app_nil_r.
    + rewrite map_app, app_assoc. rewrite <- IHes. f_equal.
      destruct e as [x |]; [| now rewrite app_nil_r].
      destruct (isObject x); [| now rewrite app_nil_r].
      destruct (isFirestoreRef x); [reflexivity |].
      rewrite to_entry_cons. apply (He x eq_refl).
Qed.

Definition visit (s : step) (x : dval) : list (list step * dval) :=
  if isObject x then
    if isFirestoreRef x then [([s], x)]
    else map (fun pr => (s :: fst pr, snd pr)) (scan x)
  else [].

Lemma in_visit s x pos r :
  In (pos, r) (visit s x)
  <-> isObject x = true
      /\ (isFirestoreRef x = true /\ pos = [s] /\ r = x
          \/ isFirestoreRef x = false
             /\ exists rest, pos = s :: rest /\ In (rest, r) (scan x)).
Proof.
  unfold visit. destruct (isObject x); [| simpl; intuition congruence].
  destruct (isFirestoreRef x).
  - simpl. split.
    + intros [H | []]. injection H as <- <-. auto.
    + intros [_ [[_ [-> ->]] | [H _]]]; [auto | discriminate].
  - rewrite in_map_iff. split.
    + intros [[rest r'] [H Hin]]. simpl in H. injection H as <- <-.
      split; [reflexivity |]. right. eauto.
    + intros [_ [[H _] | [_ [rest [-> Hin]]]]]; [discriminate |].
      exists (rest, r). auto.
Qed.

Lemma scan_obj ps :
  scan (VObj ps) = flat_map (fun kx => visit (Key (fst kx)) (snd kx)) ps.
Proof.
  cbn [scan]. induction ps as [| [k x] ps IH]; [reflexivity |].
  cbn [flat_map fst snd]. unfold visit; f_equal; apply IH.
Qed.

Fixpoint scan_elems (i : nat) (es : list (option dval)) : list (list step * dval) :=
  match es with
  | [] => []
  | e :: es' =>
      match e with Some x => visit (Idx i) x | None => [] end
        ++ scan_elems (S i) es'
  end.

Lemma scan_arr es : scan (VArr es) = scan_elems 0 es.
Proof.
  cbn [scan]. generalize 0.
  induction es as [| e es IH]; intros i; [reflexivity |].
  cbn [scan_elems]. unfold visit; f_equal; apply IH.
Qed.

Lemma in_scan_elems es : forall i pos r,
  In (pos, r) (scan_elems i es)
  <-> exists j x, nth_error es j = Some (Some x)
                  /\ In (pos, r) (visit (Idx (i + j)) x).
Proof.
  induction es as [| e es IH]; intros i pos r.
  - simpl. split; [intros [] | intros [j [x [H _]]]; destruct j; discriminate].
  - cbn [scan_elems]. rewrite in_app_iff, IH. split.
    + intros [H | [j [x [Hn Hin]]]].
      * destruct e as [x |]; [| destruct H].
        exists 0, x. now rewrite Nat.add_0_r.
      * exists (S j), x. now rewrite Nat.add_succ_r.
    + intros [[| j] [x [Hn Hin]]].
      * left. simpl in Hn. injection Hn as ->. now rewrite Nat.add_0_r in Hin.
      * right. exists j, x. now rewrite Nat.add_succ_r in Hin.
Qed.

Lemma lookup_prop_In {I : Type} k (ps : list (string * value I)) x :
  lookup_prop k ps = Some x -> In (k, x) ps.
Proof.
  induction ps as [| [k' y] ps IH]; [discriminate |].
  cbn [lookup_prop]. destruct (String.eqb_spec k' k) as [-> |].
  - intros H. injection H as ->. now left.
  - intros H. right. auto.
Qed.

Lemma existsb_eqb_In k (l : list string) :
  existsb (String.eqb k) l = true <-> In k l.
Proof.
  rewrite existsb_exists. split.
  - intros [y [Hin Heq]]. apply String.eqb_eq in Heq. now subst.
  - intros Hin. exists k. split; [assumption | apply String.eqb_refl].
Qed.

Lemma In_lookup_prop {I : Type} k (ps : list (string * value I)) x :
  nodup_strings (map fst ps) = true -> In (k, x) ps -> lookup_prop k ps = Some x.
Proof.
  induction ps as [| [k' y] ps IH]; [intros _ [] |].
  cbn [map fst nodup_strings lookup_prop]. intros Hnd [Heq | Hin].
  - injection Heq as -> ->. now rewrite String.eqb_refl.
  - apply andb_true_iff in Hnd as [Hfresh Hnd].
    destruct (String.eqb_spec k' k) as [-> |]; [| auto].
    apply negb_true_iff in Hfresh.
    assert (Hk : In k (map fst ps)) by (apply in_map_iff; exists (k, x); auto).
    apply existsb_eqb_In in Hk. congruence.
Qed.

Lemma child_isObject v s x : child v s = Some x -> isObject v = true.
Proof. destruct v, s; try discriminate; reflexivity. Qed.

Lemma isFirestoreRef_isObject {I : Type} (x : value I) :
  isFirestoreRef x = true -> isObject x = true.
Proof. unfold isFirestoreRef. now intros [H _]%andb_true_iff. Qed.

(** [outermost], one step at a time. *)
Lemma outermost_cons v s rest r :
  outermost v (s :: rest) r
  <-> exists x, child v s = Some x
      /\ (rest = [] /\ r = x /\ isFirestoreRef x = true
          \/ isFirestoreRef x = false /\ outermost x rest r).
Proof.
  unfold outermost. split.
  - intros [_ [Hf [Hr Hpre]]]. cbn [follow] in Hf.
    destruct (child v s) as [x |] eqn:Hc; [| discriminate].
    exists x. split; [reflexivity |].
    destruct rest as [| s' rest].
    + left. injection Hf as ->. auto.
    + right. split.
      * apply (Hpre [s] (s' :: rest)); try discriminate; [reflexivity |].
        cbn [follow]. now rewrite Hc.
      * split; [discriminate |]. split; [assumption |]. split; [assumption |].
        intros pre suf y Heq Hne Hsuf Hy.
        apply (Hpre (s :: pre) suf y); [now rewrite Heq | discriminate | assumption |].
        cbn [follow]. now rewrite Hc.
  - intros [x [Hc [[-> [-> Hx]] | [Hx [Hne [Hf [Hr Hpre]]]]]]].
    + split; [discriminate |]. split; [cbn [follow]; now rewrite Hc |].
      split; [assumption |].
      intros [| p pre] suf y Heq Hp Hs _; [congruence |].
      destruct pre, suf; try discriminate; congruence.
    + split; [discriminate |]. split; [cbn [follow]; now rewrite Hc |].
      split; [assumption |].
      intros [| p pre] suf y Heq Hp Hs Hy; [congruence |].
      injection Heq as <- Heq. cbn [follow] in Hy. rewrite Hc in Hy.
      destruct pre as [| p' pre]; [injection Hy as <-; assumption |].
      apply (Hpre (p' :: pre) suf y); auto; discriminate.
Qed.

Lemma well_formed_obj ps :
  well_formed (VObj ps) = true ->
  nodup_strings (map fst ps) = true
  /\ forall k x, In (k, x) ps -> well_formed x = true.
Proof.
  cbn [well_formed]. intros [Hnd Hall]%andb_true_iff. split; [assumption |].
  clear Hnd. induction ps as [| [k' y] ps IH]; [intros k x [] |].
  apply andb_true_iff in Hall as [Hy Hall].
  intros k x [Heq | Hin]; [injection Heq as <- <-; assumption | eauto].
Qed.

Lemma well_formed_arr es :
  well_formed (VArr es) = true ->
  (Z.of_nat (length es) <= max_array_length)%Z
  /\ forall x, In (Some x) es -> well_formed x = true.
Proof.
  cbn [well_formed]. intros [Hlen Hall]%andb_true_iff.
  split; [now apply Z.leb_le |].
  clear Hlen. induction es as [| [y |] es IH]; [intros x [] | |].
  - apply andb_true_iff in Hall as [Hy Hall].
    intros x [Heq | Hin]; [injection Heq as <-; assumption | eauto].
  - intros x [Heq | Hin]; [discriminate | eauto].
Qed.

Lemma elem_at_nth {I : Type} i (es : list (option (value I))) x :
  elem_at i es = Some x <-> nth_error es i = Some (Some x).
Proof.
  unfold elem_at. destruct (nth_error es i) as [[y |] |];
    split; intros H; try discriminate; congruence.
Qed.

(** The specification list holds exactly the outermost references. *)
Lemma scan_outermost v :
  well_formed v = true ->
  forall pos r, In (pos, r) (scan v) <-> outermost v pos r.
Proof.
  induction v as [v Hv | ps IH | es IH] using value_induction; intros Hwf pos r.
  - assert (Hs : scan v = []) by (destruct v; try contradiction; reflexivity).
    rewrite Hs. split; [intros [] |].
    intros [Hne [Hf _]]. destruct pos as [| s pos]; [congruence |].
    cbn [follow] in Hf. destruct v, s; try contradiction; discriminate.
  - apply well_formed_obj in Hwf as [Hnd Hsub].
    rewrite List.Forall_forall in IH.
    rewrite scan_obj, in_flat_map. split.
    + intros [[k x] [Hin Hv]]. cbn [fst snd] in Hv.
      apply in_visit in Hv as [Hobj Hcase].
      assert (Hc : child (VObj ps) (Key k) = Some x)
        by (apply In_lookup_prop; assumption).
      destruct Hcase as [[Hr [-> ->]] | [Hr [rest [-> Hrest]]]].
      * apply outermost_cons. exists x. auto.
      * apply outermost_cons. exists x. split; [assumption |]. right.
        split; [assumption |].
        apply (IH (k, x) Hin (Hsub k x Hin)). assumption.
    + intros Ho. destruct pos as [| s rest]; [destruct Ho; congruence |].
      apply outermost_cons in Ho as [x [Hc Hcase]].
      destruct s as [k | i]; [| discriminate].
      cbn [child] in Hc. apply lookup_prop_In in Hc.
      exists (k, x). split; [assumption |]. cbn [fst snd]. apply in_visit.
      destruct Hcase as [[-> [-> Hr]] | [Hr Ho]].
      * split; [now apply isFirestoreRef_isObject | auto].
      * split.
        -- destruct Ho as [Hne [Hf _]]. destruct rest as [| s' rest]; [congruence |].
           cbn [follow] in Hf. destruct (child x s') eqn:Hc'; [| discriminate].
           eapply child_isObject; eauto.
        -- right. split; [assumption |]. exists rest. split; [reflexivity |].
           apply (IH (k, x) Hc (Hsub k x Hc)). assumption.
  - apply well_formed_arr in Hwf as [_ Hsub].
    rewrite List.Forall_forall in IH.
    rewrite scan_arr, in_scan_elems. split.
    + intros [j [x [Hn Hv]]]. cbn [Nat.add] in Hv.
      apply in_visit in Hv as [Hobj Hcase].
      assert (Hc : child (VArr es) (Idx j) = Some x) by (now apply elem_at_nth).
      assert (Hin : In (Some x) es) by (eapply nth_error_In; eauto).
      destruct Hcase as [[Hr [-> ->]] | [Hr [rest [-> Hrest]]]].
      * apply outermost_cons. exists x. auto.
      * apply outermost_cons. exists x. split; [assumption |]. right.
        split; [assumption |].
        apply (IH (Some x) Hin x eq_refl (Hsub x Hin)). assumption.
    + intros Ho. destruct pos as [| s rest]; [destruct Ho; congruence |].
      apply outermost_cons in Ho as [x [Hc Hcase]].
      destruct s as [k | i]; [discriminate |].
      cbn [child] in Hc. apply elem_at_nth in Hc.
      assert (Hin : In (Some x) es) by (eapply nth_error_In; eauto).
      exists i, x. split; [assumption |]. cbn [Nat.add]. apply in_visit.
      destruct Hcase as [[-> [-> Hr]] | [Hr Ho]].
      * split; [now apply isFirestoreRef_isObject | auto].
      * split.
        -- destruct Ho as [Hne [Hf _]]. destruct rest as [| s' rest]; [congruence |].
           cbn [follow] in Hf. destruct (child x s') eqn:Hc'; [| discriminate].
           eapply child_isObject; eauto.
        -- right. split; [assumption |]. exists rest. split; [reflexivity |].
           apply (IH (Some x) Hin x eq_refl (Hsub x Hin)). assumption.
Qed.

Lemma extractRefs_leaf x base subs :
  isObject x = false -> extractRefs x base subs = subs.
Proof. destruct x; try discriminate; reflexivity. Qed.

Lemma outermost_antichain v pos suf r r' :
  outermost v pos r -> outermost v (pos ++ suf) r' -> suf = [].
Proof.
  intros [Hne [Hf [Hr _]]] [_ [_ [_ Hpre]]].
  destruct suf as [| s suf]; [reflexivity |].
  specialize (Hpre pos (s :: suf) r eq_refl Hne). 
  rewrite Hpre in Hr; [discriminate | discriminate | assumption].
Qed.

Lemma in_extractRefs v base p r :
  well_formed v = true ->
  In (Entry p r) (extractRefs v base [])
  <-> exists pos, p = render base pos /\ outermost v pos r.
Proof.
  intros Hwf. rewrite extractRefs_scan. cbn [app]. rewrite in_map_iff. split.
  - intros [[pos r'] [Heq Hin]]. unfold to_entry in Heq. cbn [fst snd] in Heq.
    injection Heq as <- <-. exists pos. split; [reflexivity |].
    now apply scan_outermost.
  - intros [pos [-> Ho]]. exists (pos, r). split; [reflexivity |].
    now apply scan_outermost.
Qed.

(** Each outermost reference is listed once. *)
Lemma visit_head s x pos :
  In pos (map fst (visit s x)) -> exists rest, pos = s :: rest.
Proof.
  intros [[p r] [<- Hin]]%in_map_iff. apply in_visit in Hin as [_ Hcase].
  destruct Hcase as [[_ [-> _]] | [_ [rest [-> _]]]]; eauto.
Qed.

Lemma nodup_map_cons {A : Type} (a : A) (l : list (list A)) :
  List.NoDup l -> List.NoDup (map (cons a) l).
Proof.
  induction 1 as [| x l Hx Hl IH]; cbn [map]; constructor; [| assumption].
  intros [y [Heq Hin]]%in_map_iff. injection Heq as ->. contradiction.
Qed.

Lemma visit_nodup s x :
  List.NoDup (map fst (scan x)) -> List.NoDup (map fst (visit s x)).
Proof.
  intros Hx. unfold visit. destruct (isObject x); [| constructor].
  destruct (isFirestoreRef x).
  - cbn [map fst]. constructor; [intros [] | constructor].
  - rewrite map_map. cbn [fst].
    rewrite <- (map_map fst (cons s)). now apply nodup_map_cons.
Qed.

Lemma scan_nodup v :
  well_formed v = true -> List.NoDup (map fst (scan v)).
Proof.
  induction v as [v Hv | ps IH | es IH] using value_induction; intros Hwf.
  - destruct v; try contradiction; constructor.
  - apply well_formed_obj in Hwf as [Hnd Hsub].
    rewrite List.Forall_forall in IH. rewrite scan_obj.
    induction ps as [| [k x] ps IHps]; [constructor |].
    cbn [flat_map fst snd map nodup_strings] in *.
    apply andb_true_iff in Hnd as [Hfresh Hnd].
    rewrite map_app. apply List.NoDup_app.
    + apply visit_nodup, (IH (k, x)); [now left | apply (Hsub k x); now left].
    + apply IHps; auto.
      * intros kv Hin. apply IH. now right.
      * intros k' y Hin. apply (Hsub k' y). now right.
    + intros pos Hin Hin'.
      apply visit_head in Hin as [rest ->].
      apply in_map_iff in Hin' as [[p r] [Hp Hin']]. cbn [fst] in Hp. subst p.
      apply in_flat_map in Hin' as [[k' y] [Hk' Hv]]. cbn [fst snd] in Hv.
      assert (Hh : In (Key k :: rest) (map fst (visit (Key k') y)))
        by (apply in_map_iff; exists (Key k :: rest, r); auto).
      apply visit_head in Hh as [rest' Heq]. injection Heq as -> _.
      apply negb_true_iff in Hfresh.
      assert (Hk : In k' (map fst ps)) by (apply in_map_iff; exists (k', y); auto).
      apply existsb_eqb_In in Hk. congruence.
  - apply well_formed_arr in Hwf as [_ Hsub].
    rewrite List.Forall_forall in IH. rewrite scan_arr. generalize 0.
    induction es as [| e es IHes]; intros i; [constructor |].
    cbn [scan_elems]. rewrite map_app. apply List.NoDup_app.
    + destruct e as [x |]; [| constructor].
      apply visit_nodup, (IH (Some x)); [now left | reflexivity |].
      apply Hsub. now left.
    + apply IHes.
      * intros e' Hin. apply IH. now right.
      * intros y Hin. apply Hsub. now right.
    + intros pos Hin Hin'.
      destruct e as [x |]; [| destruct Hin].
      apply visit_head in Hin as [rest ->].
      apply in_map_iff in Hin' as [[p r] [Hp Hin']]. cbn [fst] in Hp. subst p.
      apply in_scan_elems in Hin' as [j [y [_ Hv]]].
      assert (Hh : In (Idx i :: rest) (map fst (visit (Idx (S i + j)) y)))
        by (apply in_map_iff; exists (Idx i :: rest, r); auto).
      apply visit_head in Hh as [rest' Heq]. injection Heq as Heq _. lia.
Qed.

(** ** Paths: splitting at dots and rewriting brackets *)

Section PathFacts.
Import Chars.

Definition no_dot (a : string) : bool :=
  Str.forallb (fun c => negb (Ascii.eqb c dot)) a.

Definition no_bracket (a : string) : bool :=
  Str.forallb (fun c => negb (Ascii.eqb c lbracket)) a.


Lemma forallb_weaken (p q : ascii -> bool) a :
  (forall c, p c = true -> q c = true) ->
  Str.forallb p a = true -> Str.forallb q a = true.
Proof.
  intros Hpq. induction a as [| c a IH]; [reflexivity |].
  cbn [Str.forallb]. intros [Hc Ha]%andb_true_iff.
  now rewrite (Hpq c Hc), IH.
Qed.

Lemma split_no_dot a : no_dot a = true -> Str.split dot a = [a].
Proof.
  induction a as [| c a IH]; [reflexivity |].
  cbn [no_dot Str.forallb Str.split]. intros [Hc Ha]%andb_true_iff.
  apply negb_true_iff in Hc. rewrite Hc. now rewrite (IH Ha).
Qed.

Lemma split_append_dot a r :
  no_dot a = true -> Str.split dot (a +:+ String dot r) = a :: Str.split dot r.
Proof.
  induction a as [| c a IH].
  - intros _. reflexivity.
  - intros [Hc Ha]%andb_true_iff. apply negb_true_iff in Hc.
    simpl. rewrite Hc. now rewrite (IH Ha).
Qed.

Lemma brackets_skip a : forall r,
  Regex.brackets_to_dots_from (String.length a) (a +:+ r)
  = Regex.brackets_to_dots_from 0 r.
Proof.
  induction a as [| c a IH]; intros r.
  - reflexivity.
  - simpl. apply IH.
Qed.

Lemma brackets_plain a : forall r,
  no_bracket a = true ->
  Regex.brackets_to_dots_from 0 (a +:+ r)
  = a +:+ Regex.brackets_to_dots_from 0 r.
Proof.
  induction a as [| c a IH]; intros r; [reflexivity |].
  intros [Hc Ha]%andb_true_iff. apply negb_true_iff in Hc.
  rewrite !append_cons.
  cbn [Regex.brackets_to_dots_from Regex.bracket_at]. rewrite Hc.
  f_equal. now apply IH.
Qed.

Lemma span_word_run ds r :
  Str.forallb is_word ds = true ->
  Str.span is_word (ds +:+ String rbracket r) = (ds, String rbracket r).
Proof.
  induction ds as [| c ds IH]; [reflexivity |].
  intros [Hc Hds]%andb_true_iff. simpl. now rewrite Hc, (IH Hds).
Qed.

Lemma length_append a b :
  String.length (a +:+ b) = String.length a + String.length b.
Proof.
  induction a as [| c a IH]; [reflexivity |].
  simpl. now rewrite IH.
Qed.

Lemma brackets_index ds r :
  ds <> EmptyString -> Str.forallb is_word ds = true ->
  Regex.brackets_to_dots_from 0 (String lbracket (ds +:+ String rbracket r))
  = String dot (ds +:+ Regex.brackets_to_dots_from 0 r).
Proof.
  intros Hne Hds.
  cbn [Regex.brackets_to_dots_from Regex.bracket_at].
  change (Ascii.eqb lbracket lbracket) with true. cbv iota.
  rewrite (span_word_run ds r Hds).
  destruct ds as [| d ds]; [congruence |].
  change (Ascii.eqb rbracket rbracket) with true. cbv iota.
  f_equal. f_equal.
  replace (String d ds +:+ String rbracket r)
    with ((String d ds +:+ String rbracket EmptyString) +:+ r)
    by (now rewrite append_assoc).
  replace (S (String.length (String d ds)))
    with (String.length (String d ds +:+ String rbracket EmptyString))
    by (rewrite length_append; cbn [String.length]; lia).
  apply brackets_skip.
Qed.

End PathFacts.

(** ** Decimal numerals as keys *)

Section NumeralFacts.
Import Chars.
Context {I : Type}.

Lemma digits_of_uint d :
  Str.forallb is_digit (NilEmpty.string_of_uint d) = true.
Proof. induction d; simpl; auto. Qed.

Lemma of_nat_digits n : Str.forallb is_digit (Str.of_nat n) = true.
Proof.
  unfold Str.of_nat, NilZero.string_of_uint.
  destruct (Nat.to_uint n); try apply digits_of_uint. reflexivity.
Qed.

Lemma of_nat_nonempty n : Str.of_nat n <> EmptyString.
Proof.
  unfold Str.of_nat, NilZero.string_of_uint.
  destruct (Nat.to_uint n); discriminate.
Qed.

Lemma to_uint_nonnil n : Nat.to_uint n <> Decimal.Nil.
Proof.
  intros H. pose proof (DecimalNat.Unsigned.of_to n) as Hn.
  rewrite H in Hn. cbn in Hn. subst n. discriminate.
Qed.

Lemma parse_of_nat n :
  NilZero.uint_of_string (Str.of_nat n) = Some (Nat.to_uint n).
Proof. apply NilZero.usu, to_uint_nonnil. Qed.

Lemma to_nat_of_nat n : Str.to_nat (Str.of_nat n) = n.
Proof.
  unfold Str.to_nat. rewrite parse_of_nat. apply DecimalNat.Unsigned.of_to.
Qed.

Lemma of_nat_inj n m : Str.of_nat n = Str.of_nat m -> n = m.
Proof.
  intros H. rewrite <- (to_nat_of_nat n), <- (to_nat_of_nat m). now rewrite H.
Qed.

Lemma index_of_key_of_nat n :
  (Z.of_nat n < max_array_length)%Z -> index_of_key (Str.of_nat n) = Some n.
Proof.
  intros Hn. unfold index_of_key. rewrite parse_of_nat.
  rewrite DecimalNat.Unsigned.of_to, String.eqb_refl.
  apply Z.ltb_lt in Hn. now rewrite Hn.
Qed.

Lemma index_of_key_sound k n : index_of_key k = Some n -> k = Str.of_nat n.
Proof.
  unfold index_of_key. destruct (NilZero.uint_of_string k) as [d |]; [| discriminate].
  destruct (String.eqb_spec (Str.of_nat (Nat.of_uint d)) k) as [Heq |]; [| discriminate].
  destruct (Z.of_nat (Nat.of_uint d) <? max_array_length)%Z; [| discriminate].
  intros H. injection H as <-. now symmetry.
Qed.

Lemma digit_is_word c : is_digit c = true -> is_word c = true.
Proof. unfold is_word. now intros ->. Qed.

Lemma digit_no_dot c : is_digit c = true -> negb (Ascii.eqb c dot) = true.
Proof.
  destruct (Ascii.eqb_spec c dot) as [-> |]; [discriminate | reflexivity].
Qed.

Lemma digit_no_bracket c : is_digit c = true -> negb (Ascii.eqb c lbracket) = true.
Proof.
  destruct (Ascii.eqb_spec c lbracket) as [-> |]; [discriminate | reflexivity].
Qed.

Lemma of_nat_not_length n : String.eqb (Str.of_nat n) length_key = false.
Proof.
  apply String.eqb_neq. intros H. pose proof (of_nat_digits n) as Hd.
  rewrite H in Hd. discriminate.
Qed.

End NumeralFacts.

(** ** From positions to the keys that walkGet follows *)

Section RenderFacts.
Import Chars.

Lemma append_nil_r (a : string) : a +:+ EmptyString = a.
Proof. induction a as [| c a IH]; [reflexivity |]. now rewrite append_cons, IH. Qed.

Lemma plain_key_facts k :
  plain_key k = true ->
  k <> EmptyString /\ no_dot k = true /\ no_bracket k = true
  /\ Str.forallb (fun x => negb (is_line_terminator x)) k = true.
Proof.
  unfold plain_key, no_dot, no_bracket. intros [Hne Hall]%andb_true_iff.
  apply negb_true_iff, String.eqb_neq in Hne. split; [assumption |].
  repeat split; (eapply forallb_weaken; [| exact Hall]); unfold plain_char;
    intros c [[H1 H2]%andb_true_iff H3]%andb_true_iff; assumption.
Qed.


Lemma extend_nonempty cur s : cur <> EmptyString -> extend cur s <> EmptyString.
Proof.
  intros Hc. destruct s as [k | i]; cbn [extend].
  - destruct (String.eqb_spec cur EmptyString); [contradiction |].
    destruct cur; [contradiction | discriminate].
  - destruct cur; [contradiction | discriminate].
Qed.

Lemma render_suffix pos : forall cur,
  cur <> EmptyString -> render cur pos = cur +:+ suffix pos.
Proof.
  induction pos as [| s pos IH]; intros cur Hc.
  - cbn [render fold_left suffix]. now rewrite append_nil_r.
  - change (render cur (s :: pos)) with (render (extend cur s) pos).
    rewrite IH by now apply extend_nonempty.
    destruct s as [k | i]; cbn [extend suffix].
    + destruct (String.eqb_spec cur EmptyString); [contradiction |].
      rewrite !append_assoc. reflexivity.
    + rewrite !append_assoc. reflexivity.
Qed.




End RenderFacts.

(** ** Entries as addresses *)




Lemma walkGet_follow pos : forall v r,
  well_formed v = true -> follow v pos = Some r ->
  walkGet_keys v (map step_key pos) = Ok r.
Proof.
  induction pos as [| s pos IH]; intros v r Hwf Hf.
  - injection Hf as <-. reflexivity.
  - cbn [follow] in Hf. destruct (child v s) as [x |] eqn:Hc; [| discriminate].
    destruct v as [| | | | | | | ps | es]; try discriminate.
    + destruct s as [k | i]; [| discriminate]. cbn [child] in Hc.
      cbn [map step_key walkGet_keys truthy typeof_object andb has_prop get_prop].
      rewrite Hc. cbn [mbind outcome_bind bind]. apply IH; [| assumption].
      apply well_formed_obj in Hwf as [_ Hsub].
      apply (Hsub k x). now apply lookup_prop_In.
    + destruct s as [k | i]; [discriminate |]. cbn [child] in Hc.
      apply well_formed_arr in Hwf as [Hlen Hsub].
      assert (Hi : (Z.of_nat i < max_array_length)%Z).
      { apply elem_at_nth in Hc.
        assert (i < length es) by (apply nth_error_Some; congruence). lia. }
      cbn [map step_key walkGet_keys truthy typeof_object andb has_prop get_prop].
      rewrite of_nat_not_length, (index_of_key_of_nat i Hi), Hc.
      cbn [mbind outcome_bind bind]. apply IH; [| assumption].
      apply Hsub. apply elem_at_nth in Hc. eapply nth_error_In; eauto.
Qed.

(** ** Keys that a path gives back

    What [walkGet] needs of a key on the way to a reference. *)

Section GettablePaths.
Import Chars.

Lemma gettable_key_facts k :
  gettable_key k = true ->
  k <> EmptyString /\ no_dot k = true /\ no_bracket k = true.
Proof.
  unfold gettable_key, no_dot, no_bracket. intros [Hne Hall]%andb_true_iff.
  apply negb_true_iff, String.eqb_neq in Hne. split; [assumption |].
  split; (eapply forallb_weaken; [| exact Hall]);
    intros c [H1 H2]%andb_true_iff; assumption.
Qed.

Lemma plain_key_gettable k : plain_key k = true -> gettable_key k = true.
Proof.
  intros H. apply plain_key_facts in H as [Hne [Hd [Hb _]]].
  unfold gettable_key. apply andb_true_iff. split.
  - now apply negb_true_iff, String.eqb_neq.
  - unfold no_dot, no_bracket in *. clear Hne.
    induction k as [| c k IH]; [reflexivity |].
    cbn [Str.forallb] in *.
    apply andb_true_iff in Hd as [Hd1 Hd2]. apply andb_true_iff in Hb as [Hb1 Hb2].
    now rewrite Hd1, Hb1, IH.
Qed.

Lemma gettable_step_facts s :
  gettable_step s = true ->
  step_key s <> EmptyString /\ no_dot (step_key s) = true
  /\ no_bracket (step_key s) = true.
Proof.
  destruct s as [k | i]; cbn [gettable_step step_key].
  - apply gettable_key_facts.
  - intros _. split; [apply of_nat_nonempty |]. split.
    + eapply forallb_weaken; [| apply of_nat_digits]. apply digit_no_dot.
    + eapply forallb_weaken; [| apply of_nat_digits]. apply digit_no_bracket.
Qed.

Lemma brackets_suffix_gettable pos :
  forallb gettable_step pos = true ->
  Regex.brackets_to_dots_from 0 (suffix pos) = dotted pos.
Proof.
  induction pos as [| s pos IH]; [reflexivity |].
  cbn [forallb]. intros [Hs Hpos]%andb_true_iff.
  destruct s as [k | i]; cbn [suffix dotted step_key].
  - apply gettable_key_facts in Hs as [_ [_ Hb]].
    change (String dot (k +:+ suffix pos)) with (String dot k +:+ suffix pos).
    rewrite brackets_plain by (cbn; exact Hb).
    now rewrite IH.
  - rewrite brackets_index.
    + now rewrite IH.
    + apply of_nat_nonempty.
    + eapply forallb_weaken; [| apply of_nat_digits]. apply digit_is_word.
Qed.

Lemma split_dotted_gettable pos : forall a,
  no_dot a = true -> forallb gettable_step pos = true ->
  Str.split dot (a +:+ dotted pos) = a :: map step_key pos.
Proof.
  induction pos as [| s pos IH]; intros a Ha Hpos.
  - cbn [dotted map]. rewrite append_nil_r. now apply split_no_dot.
  - cbn [forallb] in Hpos. apply andb_true_iff in Hpos as [Hs Hpos].
    cbn [dotted map]. rewrite split_append_dot by assumption.
    f_equal. apply IH; [| assumption]. now apply gettable_step_facts.
Qed.

(** The keys [walkGet] extracts from a rendered path are the keys of the
    position, as soon as no key is empty or holds a dot or an opening
    bracket. *)
Lemma path_keys_render_gettable pos :
  pos <> [] -> forallb gettable_step pos = true ->
  path_keys (render EmptyString pos) = map step_key pos.
Proof.
  destruct pos as [| s pos]; [congruence |]. intros _ Hall.
  cbn [forallb] in Hall. apply andb_true_iff in Hall as [Hs Hpos].
  change (render EmptyString (s :: pos)) with (render (extend EmptyString s) pos).
  unfold path_keys, Regex.brackets_to_dots.
  destruct s as [k | i].
  - pose proof (gettable_key_facts k Hs) as [Hne [Hd Hb]].
    cbn [extend String.eqb]. change (EmptyString +:+ k) with k.
    rewrite render_suffix by assumption.
    rewrite brackets_plain by assumption.
    rewrite brackets_suffix_gettable by assumption.
    assert (Hstrip : Regex.strip_leading_dot (k +:+ dotted pos) = k +:+ dotted pos).
    { destruct k as [| c k]; [congruence |]. rewrite append_cons.
      cbn [Regex.strip_leading_dot].
      cbn [no_dot Str.forallb] in Hd. apply andb_true_iff in Hd as [Hc _].
      apply negb_true_iff in Hc. now rewrite Hc. }
    rewrite Hstrip. now apply split_dotted_gettable.
  - cbn [extend]. change (EmptyString +:+ ?x) with x.
    rewrite render_suffix by discriminate.
    rewrite append_assoc, !append_cons.
    change (EmptyString +:+ ?x) with x.
    rewrite append_assoc, append_cons. change (EmptyString +:+ ?x) with x.
    rewrite brackets_index.
    + rewrite brackets_suffix_gettable by assumption.
      cbn [Regex.strip_leading_dot]. change (Ascii.eqb dot dot) with true.
      cbv iota. apply (split_dotted_gettable pos (Str.of_nat i)); [| assumption].
      eapply forallb_weaken; [| apply of_nat_digits]. apply digit_no_dot.
    + apply of_nat_nonempty.
    + eapply forallb_weaken; [| apply of_nat_digits]. apply digit_is_word.
Qed.

End GettablePaths.

Lemma routes_In P v pos r :
  routes P v = true -> In (pos, r) (scan v) -> forallb P pos = true.
Proof.
  unfold routes. intros H Hin. rewrite forallb_forall in H.
  apply (H (pos, r) Hin).
Qed.

(** C10 as it holds on the code: when every key on the way to a
    reference is not empty and holds neither a dot nor an opening bracket,
    and the objects that the scan walks leave [hasOwnProperty] to
    [Object.prototype], each entry of [extractRefs] is an address of its
    own reference: [walkGet] at the entry's path returns exactly the handle
    recorded in the entry.  Keys elsewhere in the value are free;
    [well_formed] is the representation invariant (an object has each key
    once, an array is no longer than an array can be). *)
Theorem extractRefs_paths_address_references
  (v : dval) (Hwf : well_formed v = true)
  (Hkeys : routes gettable_step v = true)
  (Hown : scannable v = true) :
  forall e, In e (extractRefs v "" []) -> walkGet v (path e) = Ok (ref e).
Proof.
  clear Hown. intros [p r] Hin. cbn [path ref].
  apply in_extractRefs in Hin as [pos [-> Ho]]; [| assumption].
  pose proof (proj2 (scan_outermost v Hwf pos r) Ho) as Hscan.
  destruct Ho as [Hne [Hf _]].
  unfold walkGet. rewrite path_keys_render_gettable; [| assumption |].
  - now apply walkGet_follow.
  - eapply routes_In; eauto.
Qed.

Lemma extractRefs_paths_address_references_witness :
  well_formed Scenario.odd_keys = true
  /\ routes gettable_step Scenario.odd_keys = true
  /\ scannable Scenario.odd_keys = true
  /\ length (extractRefs Scenario.odd_keys "" []) = 2
  /\ forall e, In e (extractRefs Scenario.odd_keys "" []) ->
               walkGet Scenario.odd_keys (path e) = Ok (ref e).
Proof.
  split; [reflexivity |]. split; [reflexivity |]. split; [reflexivity |].
  split; [reflexivity |].
  apply (extractRefs_paths_address_references Scenario.odd_keys
           eq_refl eq_refl eq_refl).
Defined.

(** C10 as stated fails: a field named [a.b] holding a reference is
    reported under the path [a.b], which [walkGet] reads as [b] inside
    [a] and resolves to [undefined]. *)
Lemma dotted_key_entry_is_not_an_address :
  extractRefs (VObj [("a.b", Scenario.handle 1)]) "" []
  = [Entry "a.b" (Scenario.handle 1)]
  /\ walkGet (VObj [("a.b", Scenario.handle 1)] : dval) "a.b" = Ok VUndef
  /\ ~ (forall e, In e (extractRefs (VObj [("a.b", Scenario.handle 1)]) "" []) ->
          walkGet (VObj [("a.b", Scenario.handle 1)] : dval) (path e) = Ok (ref e)).
Proof.
  split; [reflexivity |]. split; [reflexivity |].
  intros H. specialize (H (Entry "a.b" (Scenario.handle 1)) (or_introl eq_refl)).
  discriminate H.
Qed.

(** ** Property access on containers *)

Ltac inv_bind H :=
  match type of H with
  | mbind _ ?m = Ok _ =>
      let E := fresh "E" in
      destruct m eqn:E;
      [cbn [mbind outcome_bind bind] in H | discriminate H | discriminate H]
  end.

Ltac inv_bind_as H x E :=
  match type of H with
  | mbind _ ?m = Ok _ =>
      destruct m as [x | |] eqn:E;
      [cbn [mbind outcome_bind bind] in H | discriminate H | discriminate H]
  end.

Section ContainerFacts.
Context {I : Type}.
Implicit Types (o c v : value I).

Lemma lookup_assign_same k v (ps : list (string * value I)) :
  lookup_prop k (assign_prop k v ps) = Some v.
Proof.
  induction ps as [| [k' y] ps IH]; cbn [assign_prop lookup_prop].
  - now rewrite String.eqb_refl.
  - destruct (String.eqb_spec k' k) as [-> | Hne]; cbn [lookup_prop].
    + now rewrite String.eqb_refl.
    + apply String.eqb_neq in Hne. now rewrite Hne.
Qed.









End ContainerFacts.

(** ** Segments: what the two sides of the round trip see *)

Section SegmentFacts.
Import Chars.











End SegmentFacts.

Section SegmentPaths.
Import Chars.











End SegmentPaths.

(** ** The round trip through walkSet and walkGet *)

Section RoundTrip.
Context {I : Type}.
Implicit Types (obj v : value I).








End RoundTrip.


(** ** Writing at one path leaves the other paths alone *)

Section Frame.
Context {I : Type}.
Implicit Types (o obj v x y : value I).

Lemma lookup_assign_other a k v (ps : list (string * value I)) :
  a <> k -> lookup_prop a (assign_prop k v ps) = lookup_prop a ps.
Proof.
  intros Hne. induction ps as [| [k' y] ps IH]; cbn [assign_prop lookup_prop].
  - apply not_eq_sym, String.eqb_neq in Hne. now rewrite Hne.
  - destruct (String.eqb_spec k' k) as [-> | Hk]; cbn [lookup_prop].
    + apply not_eq_sym, String.eqb_neq in Hne. now rewrite Hne.
    + now rewrite IH.
Qed.




















End Frame.

(** ** A write that goes through, and is read back *)

Section Progress.
Context {I : Type}.
Implicit Types (o v x : value I).











End Progress.




(** ** Positions of a plain document are made of segments *)

Definition is_some {A : Type} (o : option A) : bool :=
  match o with Some _ => true | None => false end.

Definition segs_ok (top : bool) (pos : list step) : bool :=
  match pos with
  | Idx _ :: pos' => negb top && is_some (segs_of_pos pos')
  | _ => is_some (segs_of_pos pos)
  end.





Lemma segs_ok_weaken pos : segs_ok true pos = true -> segs_ok false pos = true.
Proof. destruct pos as [| [k | i] pos]; cbn [segs_ok negb andb]; auto; discriminate. Qed.





(** ** Filing children under the paths of a scan *)

Lemma step_eq_dec (s s' : step) : {s = s'} + {s <> s'}.
Proof. decide equality; [apply string_dec | apply Nat.eq_dec]. Qed.

Lemma child_keys_differ d s s' x y :
  child d s = Some x -> child d s' = Some y -> s <> s' ->
  step_key s <> step_key s'.
Proof.
  destruct d, s, s'; try discriminate; cbn [step_key]; intros _ _ Hne Heq.
  - congruence.
  - apply of_nat_inj in Heq. congruence.
Qed.

Lemma follow_diverge p : forall d q x y,
  follow d p = Some x -> follow d q = Some y ->
  (forall suf, q <> p ++ suf) -> (forall suf, p <> q ++ suf) ->
  diverge (map step_key p) (map step_key q).
Proof.
  induction p as [| s p IH]; intros d q x y Hp Hq Hpq Hqp.
  - exfalso. now apply (Hpq q).
  - destruct q as [| s' q]; [exfalso; now apply (Hqp (s :: p)) |].
    cbn [follow] in Hp, Hq.
    destruct (child d s) as [d1 |] eqn:H1; [| discriminate].
    destruct (child d s') as [d2 |] eqn:H2; [| discriminate].
    cbn [map]. destruct (step_eq_dec s s') as [<- | Hne].
    + apply diverge_later. rewrite H1 in H2. injection H2 as <-.
      apply (IH d1 q x y); auto.
      * intros suf ->. now apply (Hpq suf).
      * intros suf ->. now apply (Hqp suf).
    + apply diverge_here. eapply child_keys_differ; eauto.
Qed.

Lemma nth_error_map_fst {A B : Type} (l : list (A * B)) j a b :
  nth_error l j = Some (a, b) -> nth_error (map fst l) j = Some a.
Proof. intros H. rewrite nth_error_map, H. reflexivity. Qed.

Lemma nodup_nth {A : Type} (l : list A) j k a :
  List.NoDup l -> nth_error l j = Some a -> nth_error l k = Some a -> j = k.
Proof.
  intros Hnd Hj Hk. rewrite List.NoDup_nth_error in Hnd.
  apply Hnd; [| congruence]. apply nth_error_Some. congruence.
Qed.


(** ** The scanner stops at references *)

Lemma routes_diverge v :
  well_formed v = true -> routes gettable_step v = true ->
  forall j k ej ek,
    nth_error (extractRefs v "" []) j = Some ej ->
    nth_error (extractRefs v "" []) k = Some ek -> j <> k ->
    diverge (path_keys (path ej)) (path_keys (path ek)).
Proof.
  intros Hwf Hkeys j k ej ek Hj Hk Hjk.
  rewrite extractRefs_scan in Hj, Hk. cbn [app] in Hj, Hk.
  rewrite nth_error_map in Hj, Hk.
  destruct (nth_error (scan v) j) as [[pj rj] |] eqn:Ej; [| discriminate].
  destruct (nth_error (scan v) k) as [[pk rk] |] eqn:Ek; [| discriminate].
  injection Hj as <-. injection Hk as <-. unfold to_entry. cbn [path fst snd].
  assert (Hinj : In (pj, rj) (scan v)) by (eapply nth_error_In; eauto).
  assert (Hink : In (pk, rk) (scan v)) by (eapply nth_error_In; eauto).
  pose proof (proj1 (scan_outermost v Hwf pj rj) Hinj) as Hoj.
  pose proof (proj1 (scan_outermost v Hwf pk rk) Hink) as Hok.
  assert (Hne : pj <> pk).
  { intros ->. apply Hjk.
    eapply (nodup_nth (map fst (scan v)) j k pk); eauto using scan_nodup;
      eapply nth_error_map_fst; eauto. }
  pose proof Hoj as [Hnej [Hfj _]]. pose proof Hok as [Hnek [Hfk _]].
  rewrite (path_keys_render_gettable pj Hnej (routes_In _ _ _ _ Hkeys Hinj)).
  rewrite (path_keys_render_gettable pk Hnek (routes_In _ _ _ _ Hkeys Hink)).
  eapply follow_diverge; eauto.
  - intros suf Heq. apply Hne. subst pk.
    rewrite (outermost_antichain v pj suf rj rk Hoj Hok). now rewrite app_nil_r.
  - intros suf Heq. apply Hne. subst pj.
    rewrite (outermost_antichain v pk suf rk rj Hok Hoj). now rewrite app_nil_r.
Qed.

(** C7 as it holds on the code: on a value whose objects leave
    [hasOwnProperty] to [Object.prototype], the entries of [extractRefs]
    are, in order and once each, the outermost references: the positions
    that lead to a reference through values that are not references.  No
    entry lies below another entry, whatever the fields of a reference
    look like, and a value that is not an object adds no entry.  When the
    keys on the way to the references are not empty and hold neither a dot
    nor an opening bracket, the same is true of the paths: read as lists
    of keys, the paths of two entries part ways, so none extends
    another. *)
Theorem extractRefs_stops_at_references
  (v : dval) (base : string)
  (Hwf : well_formed v = true) (Hown : scannable v = true) :
  extractRefs v base [] = map (to_entry base) (scan v)
  /\ List.NoDup (map fst (scan v))
  /\ (forall pos r, In (pos, r) (scan v) <-> outermost v pos r)
  /\ (forall pos suf r r',
        outermost v pos r -> outermost v (pos ++ suf) r' -> suf = [])
  /\ (forall x subs, isObject x = false -> extractRefs x base subs = subs)
  /\ (routes gettable_step v = true ->
      forall j k ej ek,
        nth_error (extractRefs v "" []) j = Some ej ->
        nth_error (extractRefs v "" []) k = Some ek -> j <> k ->
        diverge (path_keys (path ej)) (path_keys (path ek))).
Proof.
  split; [apply (extractRefs_scan v base []) |].
  split; [now apply scan_nodup |].
  split; [now apply scan_outermost |].
  split; [apply outermost_antichain |].
  split; [intros x subs; apply extractRefs_leaf |].
  now apply routes_diverge.
Qed.

Lemma extractRefs_stops_at_references_witness :
  well_formed Scenario.holder = true
  /\ scannable Scenario.holder = true
  /\ extractRefs Scenario.holder "" []
     = [Entry "a.b" Scenario.reference_with_inner]
  /\ forall pos r, In (pos, r) (scan Scenario.holder)
                   <-> outermost Scenario.holder pos r.
Proof.
  split; [reflexivity |]. split; [reflexivity |]. split; [reflexivity |].
  apply (extractRefs_stops_at_references Scenario.holder "" eq_refl eq_refl).
Defined.

(** C7 as stated fails for paths: next to a reference under [a], a field
    named [a.b] that holds a reference is reported under the path [a.b],
    which extends the path [a] of the first although it does not lie
    below it. *)
Lemma dotted_key_extends_a_reference_path :
  extractRefs Scenario.two_handles "" []
  = [Entry "a" (Scenario.handle 1); Entry "a.b" (Scenario.handle 2)]
  /\ "a.b" = "a" +:+ ".b"
  /\ path_keys "a.b" = path_keys "a" ++ ["b"]
  /\ ~ (forall e e' s,
          In e (extractRefs Scenario.two_handles "" []) ->
          In e' (extractRefs Scenario.two_handles "" []) ->
          path e' = path e +:+ s -> s = EmptyString).
Proof.
  split; [reflexivity |]. split; [reflexivity |]. split; [reflexivity |].
  intros H.
  assert (Hs : ".b" = EmptyString).
  { apply (H (Entry "a" (Scenario.handle 1)) (Entry "a.b" (Scenario.handle 2)));
      [now left | right; now left | reflexivity]. }
  discriminate Hs.
Qed.





(** ** Unbinding only unsubscribes *)

(** [w'] differs from [w] at most in the [subscriptions] and [references]
    of its instances, in the handles still listened to, and by
    [LUnsubscribe] events at the end of the trace. *)
Definition quiet (w w' : world) : Prop :=
  next_inst w' = next_inst w
  /\ next_handle w' = next_handle w
  /\ (forall j, core <$> (insts w' !! j) = core <$> (insts w !! j))
  /\ exists U, trace w' = trace w ++ U /\ forallb is_unsubscribe U = true.

Lemma quiet_refl w : quiet w w.
Proof.
  repeat split; auto. exists []. now rewrite app_nil_r.
Qed.

Lemma quiet_trans w1 w2 w3 : quiet w1 w2 -> quiet w2 w3 -> quiet w1 w3.
Proof.
  intros [Hn [Hh [Hc [U [Ht HU]]]]] [Hn' [Hh' [Hc' [U' [Ht' HU']]]]].
  split; [congruence |]. split; [congruence |].
  split; [intros j; now rewrite Hc', Hc |].
  exists (U ++ U'). split.
  - now rewrite Ht', Ht, app_assoc.
  - now rewrite forallb_app, HU, HU'.
Qed.

Lemma the_instance_ok i w s : the_instance i w = Ok s <-> insts w !! i = Some s.
Proof.
  unfold the_instance. destruct (insts w !! i); split; intros H;
    try discriminate; congruence.
Qed.

Lemma quiet_update i f w :
  (forall s, core (f s) = core s) -> quiet w (update_inst i f w).
Proof.
  intros Hf. split; [reflexivity |]. split; [reflexivity |]. split.
  - intros j. cbn [update_inst set_insts insts].
    destruct (decide (i = j)) as [<- | Hne].
    + rewrite lookup_alter_eq. destruct (insts w !! i); cbn; [| reflexivity].
      now rewrite Hf.
    + now rewrite lookup_alter_ne.
  - exists []. now rewrite app_nil_r.
Qed.

Lemma release_quiet i w w' : release i w = Ok w' -> quiet w w'.
Proof.
  unfold release. intros H. inv_bind_as H s Es.
  destruct (unsubscription s) as [h |].
  - injection H as <-. repeat split; auto.
    exists [LUnsubscribe i h]. split; reflexivity.
  - injection H as <-. apply quiet_refl.
Qed.


Section UnbindQuiet.
Variable unbind_child : nat -> world -> outcome world.
Hypothesis child_quiet : forall c w w', unbind_child c w = Ok w' -> quiet w w'.

Lemma unbind_at_quiet subs p w w' :
  unbind_at unbind_child subs p w = Ok w' -> quiet w w'.
Proof.
  unfold unbind_at. destruct p as [p |]; [| discriminate].
  intros H. inv_bind_as H x Ex. destruct x; try discriminate. eauto.
Qed.

Lemma unbind_each_quiet subs paths : forall w w',
  unbind_each unbind_child subs paths w = Ok w' -> quiet w w'.
Proof.
  induction paths as [| p paths IH]; intros w w' H.
  - injection H as <-. apply quiet_refl.
  - cbn [unbind_each] in H. inv_bind_as H w1 E1.
    eapply quiet_trans; [eapply unbind_at_quiet; eauto | eauto].
Qed.

Lemma unbindReferences_quiet i index w w' :
  unbindReferences unbind_child i index w = Ok w' -> quiet w w'.
Proof.
  unfold unbindReferences. intros H. inv_bind_as H s Es.
  destruct index as [n |].
  - inv_bind_as H subs Esubs.
    destruct (nth_error (references s) n) as [[e | es] |]; try discriminate.
    inv_bind_as H w1 E1. inv_bind_as H container Ec. injection H as <-.
    eapply quiet_trans; [eapply unbind_each_quiet; eauto |].
    apply quiet_update. reflexivity.
  - inv_bind_as H w1 E1. injection H as <-.
    eapply quiet_trans; [eapply unbind_each_quiet; eauto |].
    apply quiet_update. reflexivity.
Qed.

End UnbindQuiet.

Lemma unbind_fuel_quiet fuel : forall c w w',
  unbind_fuel fuel c w = Ok w' -> quiet w w'.
Proof.
  induction fuel as [| fuel IH]; intros c w w' H; [discriminate |].
  cbn [unbind_fuel] in H. inv_bind_as H w1 E1.
  eapply quiet_trans.
  - eapply unbindReferences_quiet; [| exact E1]. exact IH.
  - eapply release_quiet; eauto.
Qed.

Lemma unbind_Subscription_quiet c w w' :
  unbind_Subscription c w = Ok w' -> quiet w w'.
Proof. apply unbind_fuel_quiet. Qed.


(** ** Writing to the target, binding the references *)

Lemma write_target_facts i w w' s :
  insts w !! i = Some s -> write_target i w = Ok w' ->
  trace w' = trace w ++ [LWrite i (targetObject s) (targetProperty s) (data s)]
  /\ next_inst w' = next_inst w /\ next_handle w' = next_handle w
  /\ (forall j, set_data VUndef <$> (insts w' !! j)
                = set_data VUndef <$> (insts w !! j))
  /\ (forall j, owner (targetObject s) <> Some j -> insts w' !! j = insts w !! j).
Proof.
  intros Hs H. unfold write_target in H. apply the_instance_ok in Hs.
  rewrite Hs in H. cbn [mbind outcome_bind bind] in H.
  assert (Hupd : forall p d,
    (forall j, set_data VUndef <$>
                 (insts (update_inst p (set_data d)
                    (emit (LWrite i (targetObject s) (targetProperty s) (data s)) w))
                  !! j)
               = set_data VUndef <$> (insts w !! j))
    /\ (forall j, p <> j ->
          insts (update_inst p (set_data d)
                   (emit (LWrite i (targetObject s) (targetProperty s) (data s)) w))
          !! j = insts w !! j)).
  { intros p d. split; intros j; cbn [update_inst set_insts insts emit].
    - destruct (decide (p = j)) as [<- | Hne].
      + rewrite lookup_alter_eq. now destruct (insts w !! p).
      + now rewrite lookup_alter_ne.
    - intros Hne. now rewrite lookup_alter_ne. }
  destruct (targetObject s) as [| p | p it] eqn:Ht.
  - inv_bind_as H res Eres. destruct res as [st ret]. injection H as <-.
    repeat split; auto.
  - inv_bind_as H sp Esp. inv_bind_as H res Eres. destruct res as [this ret].
    inv_bind_as H d Ed. injection H as <-.
    destruct (Hupd p d) as [H1 H2].
    repeat split; auto. intros j Hj. apply H2. cbn in Hj. congruence.
  - inv_bind_as H sp Esp. destruct (index_of it (items sp)) as [j0 |].
    + inv_bind_as H item Eitem. inv_bind_as H res Eres.
      destruct res as [item' ret]. inv_bind_as H d Ed. injection H as <-.
      destruct (Hupd p d) as [H1 H2].
      repeat split; auto. intros j Hj. apply H2. cbn in Hj. congruence.
    + injection H as <-. repeat split; auto.
Qed.

Lemma children_of_S i0 h0 n :
  children_of i0 h0 (S n) = (i0, h0) :: children_of (S i0) (S h0) n.
Proof.
  unfold children_of. cbn [seq map]. rewrite !Nat.add_0_r. f_equal.
  rewrite <- seq_shift, map_map. apply map_ext. intros k.
  now rewrite !Nat.add_succ_r.
Qed.

Lemma bind_reference_facts t sp depth r c w c' w' :
  bind_reference t sp depth r (c, w) = Ok (c', w') ->
  trace w' = trace w ++ [LSubscribe (next_inst w) (next_handle w)]
  /\ next_inst w' = S (next_inst w) /\ next_handle w' = S (next_handle w)
  /\ (forall j, j <> next_inst w -> insts w' !! j = insts w !! j)
  /\ (exists s, insts w' !! (next_inst w) = Some s
                /\ references s = [] /\ unsubscription s = Some (next_handle w)
                /\ maxRefDepth s = depth)
  /\ exists ret, walkSet c (path r) (VInst (next_inst w)) = Ok (c', ret).
Proof.
  unfold bind_reference. intros H. inv_bind_as H res Enew.
  destruct res as [n w1]. unfold new_Subscription in Enew.
  inv_bind_as Enew single Esingle. injection Enew as <- <-.
  inv_bind_as H w2 Ebind. inv_bind_as H res Eset. destruct res as [c1 ret].
  injection H as <- <-.
  unfold bind_Subscription, setOptions in Ebind.
  cbn [update_inst set_insts insts next_inst next_handle] in Ebind.
  rewrite lookup_alter_eq, lookup_insert_eq in Ebind.
  cbn [fmap option_fmap option_map query] in Ebind.
  destruct (truthy (ref r)); [| discriminate].
  rewrite Esingle in Ebind. cbn [mbind outcome_bind bind] in Ebind.
  injection Ebind as <-.
  cbn [emit trace next_inst next_handle insts update_inst set_insts].
  split; [reflexivity |]. split; [reflexivity |]. split; [reflexivity |].
  split; [| split; [| eauto]].
  - intros j Hj. rewrite !lookup_alter_ne, lookup_insert_ne by congruence.
    reflexivity.
  - rewrite !lookup_alter_eq, lookup_insert_eq. eexists. split; [reflexivity |].
    repeat split; reflexivity.
Qed.

Lemma bind_each_facts t sp depth refs : forall c w c' w',
  bind_each t sp depth refs (c, w) = Ok (c', w') ->
  trace w' = trace w
             ++ subscribes (children_of (next_inst w) (next_handle w) (length refs))
  /\ next_inst w' = next_inst w + length refs
  /\ next_handle w' = next_handle w + length refs
  /\ (forall j, j < next_inst w -> insts w' !! j = insts w !! j)
  /\ (forall k, k < length refs ->
        exists s, insts w' !! (next_inst w + k) = Some s
                  /\ references s = []
                  /\ unsubscription s = Some (next_handle w + k)
                  /\ maxRefDepth s = depth)
  /\ file_each (next_inst w) refs c = Ok c'.
Proof.
  induction refs as [| r refs IH]; intros c w c' w' H.
  - injection H as <- <-. cbn [length]. rewrite !Nat.add_0_r, app_nil_r.
    repeat split; auto. intros k Hk. lia.
  - cbn [bind_each] in H. inv_bind_as H acc Eacc. destruct acc as [c1 w1].
    apply bind_reference_facts in Eacc
      as [Ht [Hn [Hh [Hold [[s [Hs [Hr [Hu Hdepth]]]] [ret Hset]]]]]].
    apply IH in H as [Ht' [Hn' [Hh' [Hold' [Hnew' Hfile']]]]].
    cbn [length]. rewrite children_of_S. split; [| split; [| split; [| split; [| split]]]].
    + rewrite Ht', Ht, Hn, Hh, <- app_assoc. reflexivity.
    + lia.
    + lia.
    + intros j Hj. rewrite Hold' by lia. apply Hold. lia.
    + intros [| k] Hk.
      * rewrite Nat.add_0_r. rewrite Hold' by lia. exists s.
        rewrite Nat.add_0_r. auto.
      * destruct (Hnew' k ltac:(lia)) as [s' Hs'].
        exists s'. replace (next_inst w + S k) with (next_inst w1 + k) by lia.
        replace (next_handle w + S k) with (next_handle w1 + k) by lia.
        exact Hs'.
    + cbn [file_each]. rewrite Hset. cbn [mbind outcome_bind bind].
      now rewrite <- Hn.
Qed.

(** Binding an instance that the constructor has just made. *)
Lemma bind_constructed q t p depth w (f : gmap string nat -> gmap string nat)
      single :
  isSingleDocumentQuery q = Ok single ->
  exists w2 s,
    bind_Subscription (next_inst w)
      (setOptions (next_inst w) depth
         (World (<[next_inst w :=
                     Instance q t p DEFAULT_maxRefDepth
                       (if single : bool then VObj [] else VArr [])
                       [] VUndef [] None]> (insts w))
                (S (next_inst w)) (f (registry w)) (state w) (listening w)
                (next_handle w) (next_item w) (trace w)))
    = Ok w2
    /\ trace w2 = trace w ++ [LSubscribe (next_inst w) (next_handle w)]
    /\ listening w2 = {[next_handle w]} ∪ listening w
    /\ next_handle w2 = S (next_handle w)
    /\ next_inst w2 = S (next_inst w)
    /\ registry w2 = f (registry w) /\ state w2 = state w
    /\ (forall j, j <> next_inst w -> insts w2 !! j = insts w !! j)
    /\ insts w2 !! next_inst w = Some s
    /\ query s = q /\ targetObject s = t /\ targetProperty s = p
    /\ unsubscription s = Some (next_handle w)
    /\ references s = [] /\ data s = VUndef
    /\ maxRefDepth s = match depth with
                       | Some d => d
                       | None => DEFAULT_maxRefDepth
                       end.
Proof.
  intros Esingle.
  assert (Hq : truthy q = true) by (destruct q; try discriminate; reflexivity).
  unfold bind_Subscription.
  destruct depth as [d |]; cbn [setOptions update_inst set_insts insts].
  - rewrite lookup_alter_eq, lookup_insert_eq.
    cbn [fmap option_fmap option_map query]. rewrite Hq, Esingle.
    cbn [mbind outcome_bind bind]. eexists. eexists.
    split; [reflexivity |].
    cbn [emit trace listening next_handle next_inst registry state insts
         update_inst set_insts].
    repeat (split; [reflexivity |]). split.
    + intros j Hj. rewrite !lookup_alter_ne, lookup_insert_ne by congruence.
      reflexivity.
    + rewrite !lookup_alter_eq, lookup_insert_eq. repeat split; reflexivity.
  - rewrite lookup_insert_eq. cbn [query]. rewrite Hq, Esingle.
    cbn [mbind outcome_bind bind]. eexists. eexists.
    split; [reflexivity |].
    cbn [emit trace listening next_handle next_inst registry state insts
         update_inst set_insts].
    repeat (split; [reflexivity |]). split.
    + intros j Hj. rewrite !lookup_alter_ne, lookup_insert_ne by congruence.
      reflexivity.
    + rewrite !lookup_alter_eq, lookup_insert_eq. repeat split; reflexivity.
Qed.




Section LeafChildren.
(** Any way of unbinding a child that, on a child without references,
    releases its handle and touches nothing else. *)
Variable u : nat -> world -> outcome world.
Hypothesis u_leaf : forall c w s h,
  insts w !! c = Some s -> references s = [] -> unsubscription s = Some h ->
  exists w', u c w = Ok w'
             /\ trace w' = trace w ++ [LUnsubscribe c h]
             /\ next_inst w' = next_inst w /\ next_handle w' = next_handle w
             /\ (forall j, j <> c -> insts w' !! j = insts w !! j)
             /\ listening w' = listening w ∖ {[h]}
             /\ registry w' = registry w /\ state w' = state w.


End LeafChildren.


(** [#unbindReferences()] leaves the instance without references. *)
Lemma unbindReferences_reset u i w w' :
  unbindReferences u i None w = Ok w' ->
  exists w1 s, the_instance i w = Ok s
               /\ unbind_each u (subscriptions s) (map slot_path (references s)) w
                  = Ok w1
               /\ w' = update_inst i (fun s => set_subscriptions (VObj [])
                                                 (set_references [] s)) w1.
Proof.
  unfold unbindReferences. intros H. inv_bind_as H s Es. inv_bind_as H w1 E1.
  injection H as <-. eauto.
Qed.

(** ** One run of the document listener *)


Lemma same_but_data (a : option instance) x :
  set_data VUndef <$> a = set_data VUndef <$> Some x ->
  exists y, a = Some y
            /\ references y = references x
            /\ subscriptions y = subscriptions x
            /\ unsubscription y = unsubscription x.
Proof.
  destruct a as [y |]; cbn [fmap option_fmap option_map]; intros H;
    [| discriminate].
  assert (E : set_data VUndef y = set_data VUndef x) by congruence.
  exists y. split; [reflexivity |]. split; [| split].
  - change (references (set_data VUndef y) = references (set_data VUndef x)).
    now rewrite E.
  - change (subscriptions (set_data VUndef y) = subscriptions (set_data VUndef x)).
    now rewrite E.
  - change (unsubscription (set_data VUndef y) = unsubscription (set_data VUndef x)).
    now rewrite E.
Qed.






(** ** Splicing lists *)

Section Splices.
Context {A : Type}.

Lemma insert_at_length n (x : A) l : length (insert_at n x l) = S (length l).
Proof.
  unfold insert_at. rewrite List.length_app. cbn [length].
  rewrite Nat.add_succ_r, <- List.length_app, firstn_skipn. reflexivity.
Qed.

Lemma remove_at_length n (l : list A) :
  n < length l -> length (remove_at n l) = length l - 1.
Proof.
  intros Hn. unfold remove_at.
  rewrite List.length_app, List.length_firstn, List.length_skipn. lia.
Qed.

Lemma replace_inserted n (x y : A) l :
  n <= length l ->
  firstn n (insert_at n x l) ++ y :: skipn (S n) (insert_at n x l)
  = insert_at n y l.
Proof.
  intros Hn. unfold insert_at.
  assert (Hlen : length (firstn n l) = n) by (rewrite List.length_firstn; lia).
  rewrite firstn_app, Hlen, Nat.sub_diag. cbn [firstn].
  rewrite app_nil_r, firstn_firstn, Nat.min_id.
  rewrite skipn_app, Hlen.
  replace (S n - n) with 1 by lia. cbn [skipn].
  rewrite skipn_all2 by lia. reflexivity.
Qed.

Lemma remove_replaced n (y : A) l :
  n < length l ->
  remove_at n (firstn n l ++ y :: skipn (S n) l) = remove_at n l.
Proof.
  intros Hn. unfold remove_at.
  assert (Hlen : length (firstn n l) = n) by (rewrite List.length_firstn; lia).
  rewrite firstn_app, Hlen, Nat.sub_diag. cbn [firstn].
  rewrite app_nil_r, firstn_firstn, Nat.min_id.
  rewrite skipn_app, Hlen.
  replace (S n - n) with 1 by lia. cbn [skipn].
  rewrite skipn_all2 by lia. reflexivity.
Qed.

Lemma nth_error_insert_at n (x : A) l :
  n <= length l -> nth_error (insert_at n x l) n = Some x.
Proof.
  intros Hn. unfold insert_at.
  assert (Hlen : length (firstn n l) = n) by (rewrite List.length_firstn; lia).
  rewrite nth_error_app2 by lia. rewrite Hlen, Nat.sub_diag. reflexivity.
Qed.

End Splices.

Lemma assign_elem_length {I : Type} n (v : value I) : forall es,
  n < length es -> length (assign_elem n v es) = length es.
Proof.
  induction n as [| n IH]; intros [| e es] Hn; cbn in *; try lia.
  rewrite IH by lia. reflexivity.
Qed.

(** Assigning to an index of an array. *)
Lemma set_prop_arr_index {I : Type} (es : list (option (value I))) n v o :
  set_prop (VArr es) (Str.of_nat n) v = Ok o ->
  index_of_key (Str.of_nat n) = Some n /\ o = VArr (assign_elem n v es).
Proof.
  cbn [set_prop]. rewrite of_nat_not_length.
  destruct (index_of_key (Str.of_nat n)) as [m |] eqn:E; [| discriminate].
  apply index_of_key_sound in E as Hm. apply of_nat_inj in Hm. subst m.
  intros H. injection H as <-. auto.
Qed.

Lemma get_prop_arr_index {I : Type} (es : list (option (value I))) n x :
  index_of_key (Str.of_nat n) = Some n -> nth_error es n = Some (Some x) ->
  get_prop (VArr es) (Str.of_nat n) = Ok x.
Proof.
  intros Hk Hn. cbn [get_prop]. rewrite of_nat_not_length, Hk.
  unfold elem_at. now rewrite Hn.
Qed.

(** ** One change of a batch *)

Lemma addItem_facts i n d w w' s es ss :
  insts w !! i = Some s -> i < next_inst w ->
  data s = VArr es -> subscriptions s = VArr ss ->
  n <= length es -> n <= length ss -> n <= length (references s) ->
  addItem i n d w = Ok w' ->
  let refs := refs_of (0 <? maxRefDepth s)%Z d in
  trace w' = trace w
             ++ subscribes (children_of (next_inst w) (next_handle w) (length refs))
  /\ next_inst w <= next_inst w'
  /\ exists s' ss',
       insts w' !! i = Some s'
       /\ data s' = VArr (insert_at n (Some d) es)
       /\ references s' = insert_at n (SlotList refs) (references s)
       /\ subscriptions s' = VArr ss' /\ length ss' = S (length ss)
       /\ targetObject s' = targetObject s
       /\ targetProperty s' = targetProperty s
       /\ maxRefDepth s' = maxRefDepth s.
Proof.
  intros Hs Hi Hd Hss Hn Hns Hnr H refs. unfold addItem in H.
  rewrite (proj2 (the_instance_ok _ _ _) Hs) in H.
  cbn [mbind outcome_bind bind] in H. rewrite Hd, Hss in H.
  cbn [splice_in mbind outcome_bind bind] in H.
  unfold bindReferences, the_instance in H.
  cbn [insts update_inst set_insts next_inst next_handle] in H.
  rewrite lookup_alter_eq, Hs in H.
  cbn [fmap option_fmap option_map mbind outcome_bind bind] in H.
  cbn [maxRefDepth data subscriptions references items set_items set_data
       set_subscriptions set_references] in H.
  subst refs. unfold refs_of. destruct (0 <? maxRefDepth s)%Z eqn:Hdepth.
  - inv_bind_as H item Eitem. inv_bind_as H o Eo.
    apply set_prop_arr_index in Eo as [Hk _].
    rewrite (get_prop_arr_index _ n d Hk (nth_error_insert_at n _ es Hn)) in Eitem.
    injection Eitem as <-.
    inv_bind_as H res Eres. destruct res as [c w5].
    inv_bind_as H subs Esubs. injection H as <-.
    apply set_prop_arr_index in Esubs as [_ ->].
    apply bind_each_facts in Eres as [Ht [Hn5 [Hh5 [Hold _]]]].
    cbn [trace next_inst next_handle insts] in Ht, Hn5, Hh5, Hold.
    cbn [trace next_inst insts update_inst set_insts].
    split; [exact Ht |]. split; [lia |].
    rewrite lookup_alter_eq, (Hold i Hi), lookup_alter_eq, Hs.
    cbn [fmap option_fmap option_map].
    eexists. eexists. split; [reflexivity |].
    cbn [data references subscriptions targetObject targetProperty maxRefDepth
         set_items set_data set_subscriptions set_references].
    split; [reflexivity |]. split; [apply replace_inserted; exact Hnr |].
    split; [reflexivity |]. split; [| auto].
    rewrite assign_elem_length; rewrite insert_at_length; [reflexivity | lia].
  - injection H as <-. cbn [trace next_inst next_handle insts length].
    rewrite app_nil_r. split; [reflexivity |]. split; [lia |].
    rewrite lookup_alter_eq, Hs. cbn [fmap option_fmap option_map].
    eexists. eexists. split; [reflexivity |].
    cbn [data references subscriptions targetObject targetProperty maxRefDepth
         set_items set_data set_subscriptions set_references].
    split; [reflexivity |]. split; [reflexivity |]. split; [reflexivity |].
    split; [apply insert_at_length | auto].
Qed.

(** * Further properties of the helpers *)

(** ** walkGet is total *)

Lemma split_nonempty sep s : Str.split sep s <> [].
Proof.
  destruct s as [| c s]; cbn [Str.split]; [discriminate |].
  destruct (Ascii.eqb c sep); [discriminate |].
  destruct (Str.split sep s); discriminate.
Qed.

Lemma walkGet_keys_total (ks : list string) : forall o : dval,
  exists x, walkGet_keys o ks = Ok x.
Proof.
  induction ks as [| k ks IH]; intros o; [now exists o |].
  cbn [walkGet_keys].
  destruct (truthy o && typeof_object o) eqn:Ho; [| now exists VUndef].
  destruct o as [| | b | n | s | f | [] | ps | es];
    cbn [truthy typeof_object] in Ho; rewrite ?andb_false_r in Ho;
    try discriminate.
  - cbn [has_prop get_prop mbind outcome_bind bind].
    destruct (lookup_prop k ps) as [x |]; [apply IH | now exists VUndef].
  - cbn [has_prop get_prop].
    destruct (String.eqb k length_key); cbn [mbind outcome_bind bind];
      [apply IH |].
    destruct (index_of_key k) as [i |]; cbn [mbind outcome_bind bind];
      [| now exists VUndef].
    destruct (elem_at i es) as [x |]; [apply IH | now exists VUndef].
Qed.

(** X2.  [walkGet] never throws: for every data value and every path it
    returns a value.  When the root is not an object ([null], [undefined],
    a number, a string, a boolean or a function) the value is
    [undefined], whatever the path. *)
Theorem walkGet_never_throws (o : dval) (p : string) :
  exists x, walkGet o p = Ok x /\ (isObject o = false -> x = VUndef).
Proof.
  destruct (walkGet_keys_total (path_keys p) o) as [x Hx].
  exists x. split; [exact Hx |].
  intros Ho. unfold walkGet in Hx. 
  destruct (path_keys p) as [| k ks] eqn:Hk;
    [exfalso; eapply split_nonempty; exact Hk |].
  cbn [walkGet_keys] in Hx. unfold isObject in Ho. rewrite Ho in Hx.
  now injection Hx.
Qed.

(** ** The converter *)

Lemma lookup_fold_assign k (fields : list (string * dval)) : forall ps,
  List.NoDup (map fst fields) ->
  lookup_prop k (fold_left (fun ps kv => assign_prop (fst kv) (snd kv) ps)
                           fields ps)
  = match lookup_prop k fields with
    | Some v => Some v
    | None => lookup_prop k ps
    end.
Proof.
  induction fields as [| [k' v'] fields IH]; intros ps Hnd; [reflexivity |].
  cbn [fold_left fst snd lookup_prop map] in *.
  apply List.NoDup_cons_iff in Hnd as [Hnotin Hnd].
  rewrite IH by assumption.
  destruct (String.eqb_spec k' k) as [-> | Hne].
  - destruct (lookup_prop k fields) as [x |] eqn:Hx.
    + exfalso. apply Hnotin. apply lookup_prop_In in Hx.
      apply (in_map fst) in Hx. exact Hx.
    + apply lookup_assign_same.
  - destruct (lookup_prop k fields); [reflexivity |].
    apply lookup_assign_other. congruence.
Qed.

(** X3.  The converter keeps every field of the document under its name
    and adds [id], the document id; a field of the document that is itself
    named [id] takes the place of the document id.  A name that is neither
    [id], nor a field, nor a member that every object inherits reads
    [undefined]. *)
Theorem fromFirestore_fields (id : string) (fields : list (string * dval)) :
  List.NoDup (map fst fields) ->
  (forall k v, lookup_prop k fields = Some v ->
               get_prop (fromFirestore id fields) k = Ok v)
  /\ (lookup_prop "id" fields = None ->
      get_prop (fromFirestore id fields) "id" = Ok (VStr id))
  /\ (forall k, k <> "id" -> inherited_name k = false ->
                lookup_prop k fields = None ->
                get_prop (fromFirestore id fields) k = Ok VUndef).
Proof.
  intros Hnd. unfold fromFirestore. cbn [get_prop].
  split; [| split].
  - intros k v Hk. now rewrite lookup_fold_assign, Hk.
  - intros Hk. rewrite lookup_fold_assign, Hk by assumption. reflexivity.
  - intros k Hne _ Hk. rewrite lookup_fold_assign, Hk by assumption.
    cbn [lookup_prop]. destruct (String.eqb_spec "id" k); [congruence | reflexivity].
Qed.

Lemma fromFirestore_fields_witness :
  List.NoDup (map fst [("name", VStr "a" : dval); ("id", VNum 7)])
  /\ get_prop (fromFirestore "P" [("name", VStr "a"); ("id", VNum 7)]) "id"
     = Ok (VNum 7)
  /\ get_prop (fromFirestore "P" [("name", VStr "a"); ("id", VNum 7)]) "name"
     = Ok (VStr "a").
Proof.
  assert (Hnd : List.NoDup (map fst [("name", VStr "a" : dval); ("id", VNum 7)])).
  { repeat constructor; cbn; intuition discriminate. }
  split; [exact Hnd |].
  destruct (fromFirestore_fields "P" [("name", VStr "a"); ("id", VNum 7)] Hnd)
    as [H _].
  split; apply H; reflexivity.
Defined.

(** ** extractRefs and its accumulator *)

(** X4.  [extractRefs] only appends to the list it is handed: what was in
    [subs] stays in front, in order, and what is added does not depend on
    it.  A target that is not an object adds nothing. *)
Theorem extractRefs_appends (v : dval) (cur : string) (subs : list entry) :
  extractRefs v cur subs = subs ++ extractRefs v cur []
  /\ (isObject v = false -> extractRefs v cur subs = subs).
Proof.
  split.
  - rewrite (extractRefs_scan v cur subs), (extractRefs_scan v cur []).
    reflexivity.
  - destruct v; try reflexivity; discriminate.
Qed.

(** ** A fill that finds nothing to fetch *)



(** * Further properties of the listeners *)

(** ** Constructing and binding *)

(** X6.  A subscription that was constructed on a query that carries the
    method [withConverter] can be bound: the test for a missing query in
    [bind] never fires, because the constructor has already evaluated
    ['update' in query] and thrown on anything that is not an object.
    Binding allocates one fresh handle, stores it in the instance and
    starts listening on it; the instance starts without data and without
    references, with the depth it was given or the default. *)
Theorem bind_after_construction q t p depth w i w1 :
  has_method q "withConverter" = true ->
  new_Subscription q t p w = Ok (i, w1) ->
  exists w2 s,
    bind_Subscription i (setOptions i depth w1) = Ok w2
    /\ i = next_inst w
    /\ trace w2 = trace w ++ [LSubscribe i (next_handle w)]
    /\ listening w2 = {[next_handle w]} ∪ listening w
    /\ next_handle w2 = S (next_handle w)
    /\ next_inst w2 = S (next_inst w)
    /\ registry w2 = registry w /\ state w2 = state w
    /\ (forall j, j <> i -> insts w2 !! j = insts w !! j)
    /\ insts w2 !! i = Some s
    /\ query s = q /\ targetObject s = t /\ targetProperty s = p
    /\ unsubscription s = Some (next_handle w)
    /\ references s = [] /\ data s = VUndef
    /\ maxRefDepth s = match depth with
                       | Some d => d
                       | None => DEFAULT_maxRefDepth
                       end.
Proof.
  unfold new_Subscription. intros _ H. inv_bind_as H single Esingle.
  injection H as <- <-.
  destruct (bind_constructed q t p depth w (fun r => r) single Esingle)
    as [w2 [s [Hb Hrest]]].
  exists w2, s. split; [exact Hb |]. split; [reflexivity | exact Hrest].
Qed.

Lemma bind_after_construction_witness :
  exists w1 w2,
    new_Subscription Scenario.document_query TState "profile"
      (empty_world (VObj [])) = Ok (0, w1)
    /\ bind_Subscription 0 (setOptions 0 (Some 5%Z) w1) = Ok w2
    /\ trace w2 = [LSubscribe 0 0].
Proof.
  eexists. 
  destruct (bind_after_construction Scenario.document_query TState "profile"
              (Some 5%Z) (empty_world (VObj [])) 0 _ eq_refl eq_refl)
    as [w2 [s [Hb [_ [Ht _]]]]].
  exists w2. split; [reflexivity |]. split; [exact Hb | exact Ht].
Defined.

(** ** Binding and unbinding a key *)





(** ** The children of a document listener *)






(** ** Unbinding a document listener *)




(** ** What unbinding never does *)

Definition calm (w w' : world) : Prop :=
  registry w' = registry w /\ state w' = state w
  /\ next_item w' = next_item w /\ listening w' ⊆ listening w.

Lemma calm_refl w : calm w w.
Proof. repeat split; auto. Qed.

Lemma calm_trans w1 w2 w3 : calm w1 w2 -> calm w2 w3 -> calm w1 w3.
Proof.
  intros [Hr [Hs [Hi Hl]]] [Hr' [Hs' [Hi' Hl']]].
  repeat split; try congruence. etransitivity; eassumption.
Qed.

Lemma release_calm i w w' : release i w = Ok w' -> calm w w'.
Proof.
  unfold release. intros H. inv_bind_as H s Es.
  destruct (unsubscription s) as [h |]; injection H as <-;
    [| apply calm_refl].
  repeat split; auto. cbn [emit listening].
  apply subseteq_difference_l. reflexivity.
Qed.

Section UnbindCalm.
Variable unbind_child : nat -> world -> outcome world.
Hypothesis child_calm : forall c w w', unbind_child c w = Ok w' -> calm w w'.

Lemma unbind_each_calm subs paths : forall w w',
  unbind_each unbind_child subs paths w = Ok w' -> calm w w'.
Proof.
  induction paths as [| p paths IH]; intros w w' H.
  - injection H as <-. apply calm_refl.
  - cbn [unbind_each] in H. inv_bind_as H w1 E1.
    eapply calm_trans; [| eauto].
    unfold unbind_at in E1. destruct p as [p |]; [| discriminate].
    inv_bind_as E1 x Ex. destruct x; try discriminate. eauto.
Qed.

Lemma unbindReferences_calm i w w' :
  unbindReferences unbind_child i None w = Ok w' -> calm w w'.
Proof.
  intros H. apply unbindReferences_reset in H as [w1 [s [_ [H ->]]]].
  apply unbind_each_calm in H. exact H.
Qed.

End UnbindCalm.

Lemma unbind_fuel_calm fuel : forall c w w',
  unbind_fuel fuel c w = Ok w' -> calm w w'.
Proof.
  induction fuel as [| fuel IH]; intros c w w' H; [discriminate |].
  cbn [unbind_fuel] in H. inv_bind_as H w1 E1.
  eapply calm_trans.
  - eapply unbindReferences_calm; [| exact E1]. exact IH.
  - eapply release_calm; eauto.
Qed.

(** X11.  Whatever the instance and the world, an [unbind()] that
    completes has only released handles: the events it adds are all
    unsubscriptions, no handle is added to those listened to, no instance
    or handle is created, the registry and the state are untouched, and
    every instance is as before except for its [subscriptions] and
    [references]. *)
Theorem unbind_only_unsubscribes c w w' :
  unbind_Subscription c w = Ok w' ->
  (exists U, trace w' = trace w ++ U /\ forallb is_unsubscribe U = true)
  /\ listening w' ⊆ listening w
  /\ next_inst w' = next_inst w /\ next_handle w' = next_handle w
  /\ registry w' = registry w /\ state w' = state w
  /\ (forall j, core <$> (insts w' !! j) = core <$> (insts w !! j)).
Proof.
  intros H.
  destruct (unbind_fuel_quiet _ _ _ _ H) as [Hn [Hh [Hc HU]]].
  destruct (unbind_fuel_calm _ _ _ _ H) as [Hr [Hs [_ Hl]]].
  auto 10.
Qed.

Lemma unbind_only_unsubscribes_witness :
  exists w',
    unbind_Subscription 0 Scenario.friend_world = Ok w'
    /\ listening w' ⊆ listening Scenario.friend_world
    /\ state w' = state Scenario.friend_world.
Proof.
  exists (Scenario.after (unbind_Subscription 0 Scenario.friend_world)).
  assert (H : unbind_Subscription 0 Scenario.friend_world
              = Ok (Scenario.after (unbind_Subscription 0 Scenario.friend_world)))
    by (vm_compute; reflexivity).
  split; [exact H |].
  destruct (unbind_only_unsubscribes 0 Scenario.friend_world _ H)
    as [_ [Hl [_ [_ [_ [Hs _]]]]]].
  split; [exact Hl | exact Hs].
Defined.

(** * Further properties of the collection listener *)

Definition same_binding (s s' : instance) : Prop :=
  targetObject s' = targetObject s
  /\ targetProperty s' = targetProperty s
  /\ maxRefDepth s' = maxRefDepth s.

Lemma same_binding_trans s1 s2 s3 :
  same_binding s1 s2 -> same_binding s2 s3 -> same_binding s1 s3.
Proof. unfold same_binding. intuition congruence. Qed.

Lemma forallb_subscribes l : forallb is_subscribe (subscribes l) = true.
Proof. induction l as [| ch l IH]; cbn; auto. Qed.

Lemma subscribes_length i0 h0 n :
  length (subscribes (children_of i0 h0 n)) = n.
Proof. unfold subscribes, children_of. now rewrite !length_map, length_seq. Qed.

(** [#addItem]: the document goes into the list at its index, and one
    child is bound per reference found in it. *)
Lemma addItem_data i n d w w' s es :
  insts w !! i = Some s -> i < next_inst w ->
  data s = VArr es -> n <= length es ->
  addItem i n d w = Ok w' ->
  let refs := refs_of (0 <? maxRefDepth s)%Z d in
  trace w' = trace w
             ++ subscribes (children_of (next_inst w) (next_handle w) (length refs))
  /\ next_inst w <= next_inst w'
  /\ exists s', insts w' !! i = Some s'
                /\ data s' = VArr (insert_at n (Some d) es)
                /\ same_binding s s'.
Proof.
  intros Hs Hi Hd Hn H refs. unfold addItem in H.
  rewrite (proj2 (the_instance_ok _ _ _) Hs) in H.
  cbn [mbind outcome_bind bind] in H. rewrite Hd in H.
  cbn [splice_in mbind outcome_bind bind] in H.
  inv_bind_as H subs' Esubs.
  assert (Hss : exists ss, subs' = VArr ss).
  { destruct (subscriptions s); try discriminate.
    injection Esubs as <-. eauto. }
  destruct Hss as [ss ->].
  unfold bindReferences, the_instance in H.
  cbn [insts update_inst set_insts next_inst next_handle] in H.
  rewrite lookup_alter_eq, Hs in H.
  cbn [fmap option_fmap option_map mbind outcome_bind bind] in H.
  cbn [maxRefDepth data subscriptions references items set_items set_data
       set_subscriptions set_references] in H.
  subst refs. unfold refs_of. destruct (0 <? maxRefDepth s)%Z eqn:Hdepth.
  - inv_bind_as H item Eitem. inv_bind_as H o Eo.
    apply set_prop_arr_index in Eo as [Hk _].
    rewrite (get_prop_arr_index _ n d Hk (nth_error_insert_at n _ es Hn)) in Eitem.
    injection Eitem as <-.
    inv_bind_as H res Eres. destruct res as [c w5].
    inv_bind_as H subs Esubs2. injection H as <-.
    apply bind_each_facts in Eres as [Ht [Hn5 [Hh5 [Hold _]]]].
    cbn [trace next_inst next_handle insts] in Ht, Hn5, Hh5, Hold.
    cbn [trace next_inst insts update_inst set_insts].
    split; [exact Ht |]. split; [lia |].
    rewrite lookup_alter_eq, (Hold i Hi), lookup_alter_eq, Hs.
    cbn [fmap option_fmap option_map].
    eexists. split; [reflexivity |]. split; [reflexivity |].
    repeat split.
  - injection H as <-. cbn [trace next_inst next_handle insts length].
    rewrite app_nil_r. split; [reflexivity |]. split; [lia |].
    rewrite lookup_alter_eq, Hs. cbn [fmap option_fmap option_map].
    eexists. split; [reflexivity |]. split; [reflexivity |].
    repeat split.
Qed.

(** [#removeItem]: only unsubscriptions happen, and the document at the
    index leaves the list. *)
Lemma removeItem_data i n w w' s es :
  insts w !! i = Some s -> data s = VArr es ->
  removeItem i n w = Ok w' ->
  (exists U, trace w' = trace w ++ U /\ forallb is_unsubscribe U = true)
  /\ next_inst w' = next_inst w
  /\ exists s', insts w' !! i = Some s'
                /\ data s' = VArr (remove_at n es)
                /\ same_binding s s'.
Proof.
  intros Hs Hd H. unfold removeItem in H.
  inv_bind_as H w1 E1.
  destruct (unbindReferences_quiet _ unbind_Subscription_quiet _ _ _ _ E1)
    as [Hn1 [_ [Hc HU]]].
  specialize (Hc i). rewrite Hs in Hc.
  destruct (insts w1 !! i) as [s1 |] eqn:Hs1; [| discriminate].
  assert (Hcs : core s1 = core s)
    by (cbn [fmap option_fmap option_map] in Hc; congruence).
  rewrite (proj2 (the_instance_ok _ _ _) Hs1) in H.
  cbn [mbind outcome_bind bind] in H.
  assert (Hd1 : data s1 = VArr es).
  { change (data (core s1) = VArr es). rewrite Hcs. exact Hd. }
  rewrite Hd1 in H. cbn [splice_out mbind outcome_bind bind] in H.
  inv_bind_as H subs' Esubs. injection H as <-.
  cbn [trace next_inst insts update_inst set_insts].
  split; [exact HU |]. split; [exact Hn1 |].
  rewrite lookup_alter_eq, Hs1. cbn [fmap option_fmap option_map].
  eexists. split; [reflexivity |]. split; [reflexivity |].
  unfold same_binding.
  cbn [targetObject targetProperty maxRefDepth set_items set_data
       set_subscriptions set_references].
  repeat split.
  - change (targetObject (core s1) = targetObject (core s)). now rewrite Hcs.
  - change (targetProperty (core s1) = targetProperty (core s)). now rewrite Hcs.
  - change (maxRefDepth (core s1) = maxRefDepth (core s)). now rewrite Hcs.
Qed.

Lemma apply_changes_data i cs : forall w w' s es,
  insts w !! i = Some s -> i < next_inst w ->
  data s = VArr es -> in_range cs (length es) = true ->
  apply_changes i cs w = Ok w' ->
  exists s' E,
    insts w' !! i = Some s'
    /\ data s' = VArr (mirror cs es)
    /\ trace w' = trace w ++ E
    /\ batch_events (0 <? maxRefDepth s)%Z cs E
    /\ same_binding s s'
    /\ i < next_inst w'.
Proof.
  induction cs as [| c cs IH]; intros w w' s es Hs Hi Hd Hr H.
  - injection H as <-. exists s, []. rewrite app_nil_r.
    repeat split; auto. constructor.
  - cbn [apply_changes] in H. inv_bind_as H w1 E1.
    destruct c as [n doc | o n doc | o doc];
      cbn [apply_change in_range] in E1, Hr.
    + apply andb_true_iff in Hr as [Hn%Nat.leb_le Hr].
      destruct (addItem_data i n _ w w1 s es Hs Hi Hd Hn E1)
        as [Ht [Hmono [s1 [Hs1 [Hd1 Hb1]]]]].
      destruct (IH w1 w' s1 _ Hs1 ltac:(lia) Hd1) as
        [s' [E [Hs' [Hd' [Ht' [HE [Hb' Hi']]]]]]]; [| exact H |].
      { now rewrite insert_at_length. }
      exists s', (subscribes (children_of (next_inst w) (next_handle w)
                    (length (refs_of (0 <? maxRefDepth s)%Z (snapshot_data doc))))
                  ++ E).
      split; [exact Hs' |]. split; [exact Hd' |].
      split; [rewrite Ht', Ht, <- app_assoc; reflexivity |].
      split; [| split; [eapply same_binding_trans; eauto | exact Hi']].
      destruct Hb1 as [_ [_ Hdepth]]. rewrite Hdepth in HE.
      constructor; auto using forallb_subscribes, subscribes_length.
    + apply andb_true_iff in Hr as [Hr Hr3].
      apply andb_true_iff in Hr as [Ho%Nat.ltb_lt Hn%Nat.leb_le].
      inv_bind_as E1 w0 E0.
      destruct (removeItem_data i o w w0 s es Hs Hd E0)
        as [[U [Ht0 HU]] [Hn0 [s0 [Hs0 [Hd0 Hb0]]]]].
      assert (Hlen0 : length (remove_at o es) = length es - 1)
        by now apply remove_at_length.
      destruct (addItem_data i n _ w0 w1 s0 _ Hs0 ltac:(lia) Hd0
                  ltac:(lia) E1)
        as [Ht [Hmono [s1 [Hs1 [Hd1 Hb1]]]]].
      destruct (IH w1 w' s1 _ Hs1 ltac:(lia) Hd1) as
        [s' [E [Hs' [Hd' [Ht' [HE [Hb' Hi']]]]]]]; [| exact H |].
      { rewrite insert_at_length, Hlen0.
        replace (S (length es - 1)) with (length es) by lia. exact Hr3. }
      exists s', (U ++ subscribes (children_of (next_inst w0) (next_handle w0)
                    (length (refs_of (0 <? maxRefDepth s0)%Z (snapshot_data doc))))
                  ++ E).
      split; [exact Hs' |]. split; [exact Hd' |].
      split; [rewrite Ht', Ht, Ht0, <- !app_assoc; reflexivity |].
      split; [| split; [| exact Hi']].
      * destruct Hb0 as [_ [_ Hdepth0]]. destruct Hb1 as [_ [_ Hdepth1]].
        rewrite Hdepth1, Hdepth0 in HE. rewrite Hdepth0.
        constructor; auto using forallb_subscribes, subscribes_length.
      * eapply same_binding_trans; [exact Hb0 |].
        eapply same_binding_trans; eauto.
    + apply andb_true_iff in Hr as [Ho%Nat.ltb_lt Hr].
      destruct (removeItem_data i o w w1 s es Hs Hd E1)
        as [[U [Ht0 HU]] [Hn0 [s0 [Hs0 [Hd0 Hb0]]]]].
      destruct (IH w1 w' s0 _ Hs0 ltac:(lia) Hd0) as
        [s' [E [Hs' [Hd' [Ht' [HE [Hb' Hi']]]]]]]; [| exact H |].
      { now rewrite remove_at_length. }
      exists s', (U ++ E).
      split; [exact Hs' |]. split; [exact Hd' |].
      split; [rewrite Ht', Ht0, <- app_assoc; reflexivity |].
      split; [| split; [eapply same_binding_trans; eauto | exact Hi']].
      destruct Hb0 as [_ [_ Hdepth0]]. rewrite Hdepth0 in HE.
      constructor; auto.
Qed.

Lemma forallb_imp {A : Type} (p q : A -> bool) l :
  (forall x, p x = true -> q x = true) ->
  forallb p l = true -> forallb q l = true.
Proof.
  intros Hpq. induction l as [| x l IH]; cbn [forallb]; [auto |].
  intros [Hx Hl]%andb_true_iff. now rewrite (Hpq x Hx), IH.
Qed.

Lemma batch_events_binding budget cs E :
  batch_events budget cs E -> forallb is_binding E = true.
Proof.
  assert (Hs : forall B, forallb is_subscribe B = true ->
                         forallb is_binding B = true).
  { intros B HB. eapply forallb_imp; [| exact HB].
    intros e He. unfold is_binding. now rewrite He. }
  assert (Hu : forall U, forallb is_unsubscribe U = true ->
                         forallb is_binding U = true).
  { intros U HU. eapply forallb_imp; [| exact HU].
    intros e He. unfold is_binding. rewrite He. apply orb_true_r. }
  induction 1; rewrite ?forallb_app; auto.
  - rewrite Hs, IHbatch_events; auto.
  - rewrite Hu, Hs, IHbatch_events; auto.
  - rewrite Hu, IHbatch_events; auto.
Qed.

(** X12.  A batch of changes that the collection listener handles to the
    end, on indices that fit the list: the changes are applied in the
    order given, an added document going in at its index, a removed one
    leaving, a modified one leaving its old index and going in at the new
    one; the events are, change by change, one subscription per reference
    of an added document and only unsubscriptions for a removed one; and
    the list that results is written to the target once, after the last
    change. *)
Theorem collection_batch i cs w w' s :
  insts w !! i = Some s -> i < next_inst w ->
  owner (targetObject s) <> Some i ->
  in_range cs (length (elems_of (data s))) = true ->
  on_collection i cs w = Ok w' ->
  exists s' E,
    insts w' !! i = Some s'
    /\ data s' = VArr (mirror cs (elems_of (data s)))
    /\ batch_events (0 <? maxRefDepth s)%Z cs E
    /\ forallb is_binding E = true
    /\ trace w' = trace w ++ E
                  ++ [LWrite i (targetObject s) (targetProperty s)
                             (VArr (mirror cs (elems_of (data s))))].
Proof.
  intros Hs Hi Hown Hr H. unfold on_collection in H.
  rewrite (proj2 (the_instance_ok _ _ _) Hs) in H.
  cbn [mbind outcome_bind bind] in H. inv_bind_as H w2 E2.
  assert (Hstart : exists s1,
    insts (if isArray (data s) then w
           else update_inst i (fun s => set_items [] (set_data (VArr []) s)) w)
      !! i = Some s1
    /\ data s1 = VArr (elems_of (data s)) /\ same_binding s s1
    /\ i < next_inst (if isArray (data s) then w
                      else update_inst i
                             (fun s => set_items [] (set_data (VArr []) s)) w)
    /\ trace (if isArray (data s) then w
              else update_inst i
                     (fun s => set_items [] (set_data (VArr []) s)) w)
       = trace w).
  { destruct (data s) eqn:Hd; cbn [isArray elems_of];
      try (exists (set_items [] (set_data (VArr []) s));
           cbn [update_inst set_insts insts next_inst trace];
           rewrite lookup_alter_eq, Hs;
           repeat split; auto).
    exists s. repeat split; auto. }
  destruct Hstart as [s1 [Hs1 [Hd1 [Hb1 [Hi1 Ht1]]]]].
  destruct (apply_changes_data i cs _ _ s1 _ Hs1 Hi1 Hd1 Hr E2)
    as [s2 [E [Hs2 [Hd2 [Ht2 [HE [Hb2 Hi2]]]]]]].
  destruct (write_target_facts _ _ _ _ Hs2 H) as [Ht [_ [_ [_ Hkeep]]]].
  destruct Hb1 as [Hto1 [Htp1 Hdepth1]]. destruct Hb2 as [Hto2 [Htp2 Hdepth2]].
  exists s2, E. split.
  { rewrite Hkeep; [exact Hs2 |]. now rewrite Hto2, Hto1. }
  split; [exact Hd2 |].
  split; [now rewrite <- Hdepth1 |].
  split; [eapply batch_events_binding; eauto |].
  rewrite Ht, Ht2, Ht1, Hto2, Hto1, Htp2, Htp1, Hd2, <- app_assoc. reflexivity.
Qed.

Lemma collection_batch_witness :
  insts Scenario.two_employees !! 0 = Some Scenario.employees_instance
  /\ in_range [Removed 0 Scenario.with_friend]
       (length (elems_of (data Scenario.employees_instance))) = true
  /\ on_collection 0 [Removed 0 Scenario.with_friend] Scenario.two_employees
     = Ok (Scenario.after
             (on_collection 0 [Removed 0 Scenario.with_friend]
                Scenario.two_employees))
  /\ exists s' E,
       insts (Scenario.after
                (on_collection 0 [Removed 0 Scenario.with_friend]
                   Scenario.two_employees)) !! 0 = Some s'
       /\ data s' = VArr [Some (snapshot_data Scenario.docB)]
       /\ trace (Scenario.after
                   (on_collection 0 [Removed 0 Scenario.with_friend]
                      Scenario.two_employees))
          = trace Scenario.two_employees ++ E
            ++ [LWrite 0 TState "employees"
                  (VArr [Some (snapshot_data Scenario.docB)])].
Proof.
  assert (Hs : insts Scenario.two_employees !! 0
               = Some Scenario.employees_instance) by (vm_compute; reflexivity).
  assert (Hr : in_range [Removed 0 Scenario.with_friend]
                 (length (elems_of (data Scenario.employees_instance))) = true)
    by reflexivity.
  assert (H : on_collection 0 [Removed 0 Scenario.with_friend]
                Scenario.two_employees
              = Ok (Scenario.after
                      (on_collection 0 [Removed 0 Scenario.with_friend]
                         Scenario.two_employees)))
    by (vm_compute; reflexivity).
  assert (Hi : 0 < next_inst Scenario.two_employees) by (vm_compute; lia).
  assert (Hown : owner (targetObject Scenario.employees_instance) <> Some 0)
    by discriminate.
  repeat (split; [assumption |]).
  destruct (collection_batch 0 [Removed 0 Scenario.with_friend]
              Scenario.two_employees _ Scenario.employees_instance
              Hs Hi Hown Hr H)
    as [s' [E [Hs' [Hd' [_ [_ Ht]]]]]].
  exists s', E. split; [exact Hs' |]. split; [exact Hd' | exact Ht].
Defined.

(** * Further properties of walkSet *)

(** ** A root that holds nothing *)

Section PrimitiveRoot.
Context {I : Type}.
Implicit Types (o v : value I).

Lemma get_prop_of_primitive o k :
  primitive o = true ->
  get_prop o k = Throw TypeError
  \/ exists x, get_prop o k = Ok x /\ primitive x = true.
Proof.
  destruct o as [| | b | n | s | f | i | ps | es]; try discriminate; intros _;
    cbn [get_prop]; auto; try (right; exists VUndef; now split).
  destruct (String.eqb k length_key); [right; eexists; now split |].
  destruct (index_of_key k) as [i |]; [| right; exists VUndef; now split].
  destruct (String.get i s); right; eexists; now split.
Qed.

Lemma set_prop_of_primitive o k v :
  primitive o = true -> set_prop o k v = Throw TypeError.
Proof. destruct o; try discriminate; reflexivity. Qed.

Lemma length_of_primitive o :
  primitive o = true ->
  get_prop o length_key = Throw TypeError
  \/ get_prop o length_key = Ok VUndef
  \/ exists n, get_prop o length_key = Ok (VNum n).
Proof.
  destruct o as [| | b | n | s | f | i | ps | es]; try discriminate; intros _;
    cbn [get_prop]; auto.
  rewrite String.eqb_refl. right. right. eauto.
Qed.

Lemma primitive_array_prefix o name ix
      (k : value I -> value I -> outcome (value I * value I)) :
  primitive o = true ->
  (forall arr1, primitive arr1 = true -> k o arr1 = Throw TypeError) ->
  (cur ← get_prop o name;
   obj1 ← (if truthy cur then Ok o else set_prop o name (VArr []));
   arr ← get_prop obj1 name;
   len ← get_prop arr length_key;
   short ← lt_number len (Z.of_nat ix + 1);
   arr1 ← (if short : bool
           then set_prop arr length_key (VNum (Z.of_nat ix + 1))
           else Ok arr);
   k obj1 arr1) = Throw TypeError.
Proof.
  intros Ho Hk.
  destruct (get_prop_of_primitive o name Ho) as [E | [cur [E Hcur]]];
    rewrite E; cbn [mbind outcome_bind bind]; [reflexivity |].
  destruct (truthy cur);
    [| rewrite (set_prop_of_primitive o _ _ Ho); reflexivity].
  cbn [mbind outcome_bind bind]. rewrite E. cbn [mbind outcome_bind bind].
  destruct (length_of_primitive cur Hcur) as [El | [El | [n El]]];
    rewrite El; cbn [mbind outcome_bind bind lt_number]; [reflexivity | auto |].
  destruct (n <? Z.of_nat ix + 1)%Z; cbn [mbind outcome_bind bind]; [| auto].
  rewrite (set_prop_of_primitive cur _ _ Hcur). reflexivity.
Qed.

Lemma walkSet_from_throws segs : forall o v,
  segs <> [] -> primitive o = true ->
  walkSet_from o segs v = Throw TypeError.
Proof.
  induction segs as [| sg segs IH]; [congruence |].
  intros o v _ Ho.
  destruct (Regex.array_match sg) as [[name ix] |] eqn:Hm.
  - destruct segs as [| s2 segs].
    + rewrite (walkSet_from_array_last _ _ _ _ _ Hm).
      apply (primitive_array_prefix o name ix
               (fun obj1 arr1 =>
                  arr2 ← set_prop arr1 (Str.of_nat ix) v;
                  Ok (store_back obj1 name arr2, store_back obj1 name arr2)));
        [exact Ho |].
      intros arr1 Harr1. now rewrite (set_prop_of_primitive arr1 _ _ Harr1).
    + rewrite (walkSet_from_array_more _ _ _ _ _ _ _ Hm).
      apply (primitive_array_prefix o name ix
               (fun obj1 arr1 =>
                  item ← get_prop arr1 (Str.of_nat ix);
                  arr2 ← (if truthy item then Ok arr1
                          else set_prop arr1 (Str.of_nat ix) (VObj []));
                  next ← get_prop arr2 (Str.of_nat ix);
                  '(next', res) ← walkSet_from next (s2 :: segs) v;
                  Ok (store_back obj1 name
                        (store_back arr2 (Str.of_nat ix) next'), res)));
        [exact Ho |].
      intros arr1 Harr1.
      destruct (get_prop_of_primitive arr1 (Str.of_nat ix) Harr1)
        as [E | [item [E Hitem]]];
        rewrite E; cbn [mbind outcome_bind bind]; [reflexivity |].
      destruct (truthy item);
        [| rewrite (set_prop_of_primitive arr1 _ _ Harr1); reflexivity].
      cbn [mbind outcome_bind bind]. rewrite E. cbn [mbind outcome_bind bind].
      rewrite (IH item v ltac:(discriminate) Hitem). reflexivity.
  - destruct segs as [| s2 segs].
    + rewrite (walkSet_from_plain_last _ _ _ Hm).
      now rewrite (set_prop_of_primitive o _ _ Ho).
    + rewrite (walkSet_from_plain_more _ _ _ _ _ Hm).
      destruct (get_prop_of_primitive o sg Ho) as [E | [cur [E Hcur]]];
        rewrite E; cbn [mbind outcome_bind bind]; [reflexivity |].
      destruct (truthy cur);
        [| rewrite (set_prop_of_primitive o _ _ Ho); reflexivity].
      cbn [mbind outcome_bind bind]. rewrite E. cbn [mbind outcome_bind bind].
      rewrite (IH cur v ltac:(discriminate) Hcur). reflexivity.
Qed.

End PrimitiveRoot.

(** X13.  [walkSet] cannot write through [null] or [undefined]: with such
    a root, every path and every value end in a [TypeError]. *)
Theorem walkSet_throws_on_null (root : dval) (p : string) (v : dval) :
  root = VNull \/ root = VUndef -> walkSet root p v = Throw TypeError.
Proof.
  intros Hroot. unfold walkSet.
  apply walkSet_from_throws; [apply split_nonempty |].
  destruct Hroot as [-> | ->]; reflexivity.
Qed.

Lemma walkSet_throws_on_null_witness :
  walkSet (VNull : dval) "a.b[2]" (VNum 1) = Throw TypeError.
Proof.
  apply (walkSet_throws_on_null VNull "a.b[2]" (VNum 1)). now left.
Defined.

(** * Further properties of the scan *)




(** * Further properties of get *)



(** * Parents before children *)

Section AllInsts.
Variable p : nat -> bool.
Implicit Types (o v c : value nat).

Lemma all_insts_lookup k (ps : list (string * value nat)) x :
  all_insts p (VObj ps) = true -> lookup_prop k ps = Some x ->
  all_insts p x = true.
Proof.
  cbn [all_insts]. intros Hall Hk. apply lookup_prop_In in Hk.
  rewrite forallb_forall in Hall. apply (Hall (k, x) Hk).
Qed.

Lemma all_insts_elem i (es : list (option (value nat))) x :
  all_insts p (VArr es) = true -> elem_at i es = Some x ->
  all_insts p x = true.
Proof.
  cbn [all_insts]. intros Hall Hi. apply elem_at_nth, nth_error_In in Hi.
  rewrite forallb_forall in Hall. apply (Hall (Some x) Hi).
Qed.

Lemma get_prop_all o k x :
  all_insts p o = true -> get_prop o k = Ok x -> all_insts p x = true.
Proof.
  destruct o as [| | b | n | s | f | i | ps | es]; cbn [get_prop];
    intros Hall H; try discriminate; try (now injection H as <-).
  - destruct (String.eqb k length_key); [now injection H as <- |].
    destruct (index_of_key k) as [i |]; [| now injection H as <-].
    destruct (String.get i s); now injection H as <-.
  - destruct (lookup_prop k ps) as [y |] eqn:E; injection H as <-;
      [eapply all_insts_lookup; eauto | reflexivity].
  - destruct (String.eqb k length_key); [now injection H as <- |].
    destruct (index_of_key k) as [i |]; [| now injection H as <-].
    destruct (elem_at i es) as [y |] eqn:E; injection H as <-;
      [eapply all_insts_elem; eauto | reflexivity].
Qed.

Lemma assign_prop_all k v (ps : list (string * value nat)) :
  all_insts p (VObj ps) = true -> all_insts p v = true ->
  all_insts p (VObj (assign_prop k v ps)) = true.
Proof.
  cbn [all_insts]. intros Hall Hv.
  induction ps as [| [k' y] ps IH]; cbn [assign_prop forallb snd] in *.
  - now rewrite Hv.
  - apply andb_true_iff in Hall as [Hy Hall].
    destruct (String.eqb k' k); cbn [forallb snd].
    + now rewrite Hv, Hall.
    + now rewrite Hy, IH.
Qed.

Lemma assign_elem_all i v : forall (es : list (option (value nat))),
  all_insts p (VArr es) = true -> all_insts p v = true ->
  all_insts p (VArr (assign_elem i v es)) = true.
Proof.
  cbn [all_insts].
  induction i as [| i IH]; intros [| e es] Hall Hv;
    cbn [assign_elem forallb] in *.
  - now rewrite Hv.
  - apply andb_true_iff in Hall as [_ Hall]. now rewrite Hv, Hall.
  - now rewrite IH.
  - apply andb_true_iff in Hall as [He Hall]. now rewrite He, IH.
Qed.

Lemma resize_all n : forall (es : list (option (value nat))),
  all_insts p (VArr es) = true -> all_insts p (VArr (resize n es)) = true.
Proof.
  cbn [all_insts].
  induction n as [| n IH]; intros [| e es] Hall; cbn [resize forallb] in *;
    auto.
  - now apply (IH []).
  - apply andb_true_iff in Hall as [He Hall]. now rewrite He, IH.
Qed.

Lemma set_prop_all o k v o' :
  all_insts p o = true -> all_insts p v = true ->
  set_prop o k v = Ok o' -> all_insts p o' = true.
Proof.
  destruct o as [| | b | n | s | f | i | ps | es]; cbn [set_prop];
    intros Hall Hv H; try discriminate.
  - injection H as <-. now apply assign_prop_all.
  - destruct (String.eqb k length_key).
    + destruct v as [| | | n | | | | |]; try discriminate.
      destruct ((0 <=? n)%Z && (n <=? max_array_length)%Z); [| discriminate].
      injection H as <-. now apply resize_all.
    + destruct (index_of_key k) as [i |]; [| discriminate].
      injection H as <-. now apply assign_elem_all.
Qed.

Lemma store_back_all o k c :
  all_insts p o = true -> all_insts p c = true ->
  all_insts p (store_back o k c) = true.
Proof.
  intros Ho Hc. unfold store_back.
  destruct (set_prop o k c) as [o' | |] eqn:E; auto.
  eapply set_prop_all; [| | exact E]; assumption.
Qed.

Lemma fill_all (b : bool) o k v o1 :
  all_insts p o = true -> all_insts p v = true ->
  (if b then Ok o else set_prop o k v) = Ok o1 -> all_insts p o1 = true.
Proof.
  intros Ho Hv H. destruct b; [now injection H as <- |].
  eapply set_prop_all; [| | exact H]; assumption.
Qed.

Lemma grow_all (b : bool) o k v o1 :
  all_insts p o = true -> all_insts p v = true ->
  (if b then set_prop o k v else Ok o) = Ok o1 -> all_insts p o1 = true.
Proof.
  intros Ho Hv H. destruct b; [| now injection H as <-].
  eapply set_prop_all; [| | exact H]; assumption.
Qed.

Lemma walkSet_from_all segs : forall o v o' res,
  all_insts p o = true -> all_insts p v = true ->
  walkSet_from o segs v = Ok (o', res) -> all_insts p o' = true.
Proof.
  induction segs as [| sg segs IH]; intros o v o' res Ho Hv H.
  - injection H as <- _. exact Ho.
  - destruct (Regex.array_match sg) as [[name ix] |] eqn:Hm.
    + assert (Hpre : forall (k : value nat -> value nat
                                 -> outcome (value nat * value nat)),
        (forall obj1 arr1, all_insts p obj1 = true -> all_insts p arr1 = true ->
                           k obj1 arr1 = Ok (o', res) -> all_insts p o' = true) ->
        (cur ← get_prop o name;
         obj1 ← (if truthy cur then Ok o else set_prop o name (VArr []));
         arr ← get_prop obj1 name;
         len ← get_prop arr length_key;
         short ← lt_number len (Z.of_nat ix + 1);
         arr1 ← (if short : bool
                 then set_prop arr length_key (VNum (Z.of_nat ix + 1))
                 else Ok arr);
         k obj1 arr1) = Ok (o', res) -> all_insts p o' = true).
      { intros k Hk Hp.
        inv_bind_as Hp cur Ecur. inv_bind_as Hp obj1 Eobj1.
        assert (Hobj1 : all_insts p obj1 = true)
          by (eapply fill_all; [exact Ho | | exact Eobj1]; reflexivity).
        inv_bind_as Hp arr Earr.
        assert (Harr : all_insts p arr = true)
          by (eapply get_prop_all; [| exact Earr]; assumption).
        inv_bind_as Hp len Elen. inv_bind_as Hp short Eshort.
        inv_bind_as Hp arr1 Earr1.
        assert (Harr1 : all_insts p arr1 = true)
          by (eapply grow_all; [exact Harr | | exact Earr1]; reflexivity).
        eauto. }
      destruct segs as [| s2 segs].
      * rewrite (walkSet_from_array_last _ _ _ _ _ Hm) in H. revert H.
        apply (Hpre (fun obj1 arr1 =>
                 arr2 ← set_prop arr1 (Str.of_nat ix) v;
                 Ok (store_back obj1 name arr2, store_back obj1 name arr2))).
        intros obj1 arr1 Hobj1 Harr1 H. inv_bind_as H arr2 Earr2.
        injection H as <- _. apply store_back_all; [exact Hobj1 |].
        eapply set_prop_all; [| | exact Earr2]; assumption.
      * rewrite (walkSet_from_array_more _ _ _ _ _ _ _ Hm) in H. revert H.
        apply (Hpre (fun obj1 arr1 =>
                 item ← get_prop arr1 (Str.of_nat ix);
                 arr2 ← (if truthy item then Ok arr1
                         else set_prop arr1 (Str.of_nat ix) (VObj []));
                 next ← get_prop arr2 (Str.of_nat ix);
                 '(next', res) ← walkSet_from next (s2 :: segs) v;
                 Ok (store_back obj1 name
                       (store_back arr2 (Str.of_nat ix) next'), res))).
        intros obj1 arr1 Hobj1 Harr1 H.
        inv_bind_as H item Eitem. inv_bind_as H arr2 Earr2.
        assert (Harr2 : all_insts p arr2 = true)
          by (eapply fill_all; [exact Harr1 | | exact Earr2]; reflexivity).
        inv_bind_as H next Enext. inv_bind_as H r Er. destruct r as [next' res'].
        injection H as <- _.
        apply store_back_all; [exact Hobj1 |].
        apply store_back_all; [exact Harr2 |].
        eapply (IH next v next' res'); [| exact Hv | exact Er].
        eapply get_prop_all; [| exact Enext]; assumption.
    + destruct segs as [| s2 segs].
      * rewrite (walkSet_from_plain_last _ _ _ Hm) in H.
        inv_bind_as H obj1 Eobj1. injection H as <- _.
        eapply set_prop_all; [| | exact Eobj1]; assumption.
      * rewrite (walkSet_from_plain_more _ _ _ _ _ Hm) in H.
        inv_bind_as H cur Ecur. inv_bind_as H obj1 Eobj1.
        assert (Hobj1 : all_insts p obj1 = true)
          by (eapply fill_all; [exact Ho | | exact Eobj1]; reflexivity).
        inv_bind_as H next Enext. inv_bind_as H r Er. destruct r as [next' res'].
        injection H as <- _.
        apply store_back_all; [exact Hobj1 |].
        eapply (IH next v next' res'); [| exact Hv | exact Er].
        eapply get_prop_all; [| exact Enext]; assumption.
Qed.

Lemma walkGet_keys_all ks : forall o x,
  all_insts p o = true -> walkGet_keys o ks = Ok x -> all_insts p x = true.
Proof.
  induction ks as [| k ks IH]; intros o x Ho H.
  - now injection H as <-.
  - cbn [walkGet_keys] in H.
    destruct (truthy o && typeof_object o); [| now injection H as <-].
    inv_bind_as H present Ep. destruct present; [| now injection H as <-].
    inv_bind_as H next En. eapply IH; [| exact H].
    eapply get_prop_all; [| exact En]; assumption.
Qed.

Lemma file_each_all refs : forall n c c',
  all_insts p c = true -> (forall k, k < length refs -> p (n + k) = true) ->
  file_each n refs c = Ok c' -> all_insts p c' = true.
Proof.
  induction refs as [| r refs IH]; intros n c c' Hc Hp H.
  - now injection H as <-.
  - cbn [file_each] in H. inv_bind_as H res Eres. destruct res as [c1 ret].
    eapply (IH (S n) c1 c'); [| | exact H].
    + unfold walkSet in Eres. eapply walkSet_from_all; [exact Hc | | exact Eres].
      cbn [all_insts]. rewrite <- (Nat.add_0_r n). apply Hp. cbn. lia.
    + intros k Hk. replace (S n + k) with (n + S k) by lia.
      apply Hp. cbn. lia.
Qed.

Lemma insert_at_all n x (es : list (option (value nat))) :
  all_insts p (VArr es) = true -> all_insts p x = true ->
  all_insts p (VArr (insert_at n (Some x) es)) = true.
Proof.
  cbn [all_insts]. intros Hall Hx. unfold insert_at.
  rewrite <- (firstn_skipn n es), forallb_app in Hall.
  apply andb_true_iff in Hall as [H1 H2].
  rewrite forallb_app. cbn [forallb]. now rewrite H1, Hx, H2.
Qed.

Lemma remove_at_all n (es : list (option (value nat))) :
  all_insts p (VArr es) = true ->
  all_insts p (VArr (remove_at n es)) = true.
Proof.
  cbn [all_insts]. intros Hall. unfold remove_at.
  rewrite <- (firstn_skipn n es), forallb_app in Hall.
  apply andb_true_iff in Hall as [H1 H2].
  rewrite forallb_app, H1. cbn [andb].
  destruct (skipn n es) as [| e rest] eqn:E.
  - rewrite skipn_all2; [reflexivity |].
    assert (length (skipn n es) = 0) by now rewrite E.
    rewrite length_skipn in *. lia.
  - replace (skipn (S n) es) with rest.
    + cbn [forallb] in H2. now apply andb_true_iff in H2 as [_ H2].
    + change (S n) with (1 + n). rewrite <- skipn_skipn, E. reflexivity.
Qed.

End AllInsts.

Lemma ordered_lookup w :
  ordered w <->
  forall j s, insts w !! j = Some s -> above j (subscriptions s) = true.
Proof. apply map_Forall_lookup. Qed.

Lemma ordered_update i f w :
  ordered w ->
  (forall s, insts w !! i = Some s -> above i (subscriptions (f s)) = true) ->
  ordered (update_inst i f w).
Proof.
  rewrite !ordered_lookup. intros Hw Hf j s.
  cbn [update_inst set_insts insts].
  destruct (decide (i = j)) as [<- | Hne].
  - rewrite lookup_alter_eq.
    destruct (insts w !! i) as [s0 |] eqn:E; [| discriminate].
    cbn [fmap option_fmap option_map]. intros H. injection H as <-. auto.
  - rewrite lookup_alter_ne by assumption. apply Hw.
Qed.

Lemma release_insts i w w' : release i w = Ok w' -> insts w' = insts w.
Proof.
  unfold release. intros H. inv_bind_as H s Es.
  destruct (unsubscription s); injection H as <-; reflexivity.
Qed.

Lemma above_inst i c : above i (VInst c) = true -> i < c.
Proof. cbn. apply Nat.ltb_lt. Qed.

Section Below.
Variable u : nat -> world -> outcome world.
Hypothesis u_below : forall c w w',
  ordered w -> u c w = Ok w' ->
  ordered w' /\ forall j, j < c -> insts w' !! j = insts w !! j.

Lemma unbind_each_below subs i paths : forall w w',
  ordered w -> above i subs = true ->
  unbind_each u subs paths w = Ok w' ->
  ordered w' /\ forall j, j <= i -> insts w' !! j = insts w !! j.
Proof.
  induction paths as [| pth paths IH]; intros w w' Hw Hsubs H.
  - injection H as <-. auto.
  - cbn [unbind_each] in H. inv_bind_as H w1 E1.
    unfold unbind_at in E1. destruct pth as [pth |]; [| discriminate].
    inv_bind_as E1 x Ex. destruct x as [| | | | | | c | |]; try discriminate.
    assert (Hc : i < c).
    { apply above_inst. unfold walkGet in Ex.
      eapply walkGet_keys_all; [| exact Ex]. exact Hsubs. }
    destruct (u_below c w w1 Hw E1) as [Hw1 Hsame1].
    destruct (IH w1 w' Hw1 Hsubs H) as [Hw' Hsame'].
    split; [exact Hw' |].
    intros j Hj. rewrite Hsame' by assumption. apply Hsame1. lia.
Qed.

End Below.

(** Unbinding an instance touches the instance and what is filed below
    it, and nothing that was constructed before it. *)
Lemma unbind_fuel_below fuel : forall c w w',
  ordered w -> unbind_fuel fuel c w = Ok w' ->
  ordered w' /\ forall j, j < c -> insts w' !! j = insts w !! j.
Proof.
  induction fuel as [| fuel IH]; intros c w w' Hw H; [discriminate |].
  cbn [unbind_fuel] in H. inv_bind_as H w1 E1.
  apply unbindReferences_reset in E1 as [wu [s [Es [Eun ->]]]].
  apply the_instance_ok in Es.
  assert (Hs : above c (subscriptions s) = true)
    by (apply (proj1 (ordered_lookup w) Hw c s Es)).
  destruct (unbind_each_below _ IH _ c _ _ _ Hw Hs Eun) as [Hwu Hsame].
  apply release_insts in H.
  split.
  - unfold ordered. rewrite H. apply ordered_update; [exact Hwu |].
    intros s0 _. reflexivity.
  - intros j Hj. rewrite H. cbn [update_inst set_insts insts].
    rewrite lookup_alter_ne by lia. apply Hsame. lia.
Qed.

Lemma unbind_Subscription_below c w w' :
  ordered w -> unbind_Subscription c w = Ok w' ->
  ordered w' /\ forall j, j < c -> insts w' !! j = insts w !! j.
Proof. apply unbind_fuel_below. Qed.

Lemma bind_reference_ordered t sp depth r c w c' w' :
  ordered w -> bind_reference t sp depth r (c, w) = Ok (c', w') -> ordered w'.
Proof.
  intros Hw. unfold bind_reference. intros H. inv_bind_as H res Enew.
  destruct res as [n w1]. unfold new_Subscription in Enew.
  inv_bind_as Enew single Esingle. injection Enew as <- <-.
  inv_bind_as H w2 Ebind. inv_bind_as H res Eset. destruct res as [c1 ret].
  injection H as <- <-.
  unfold bind_Subscription, setOptions in Ebind.
  cbn [update_inst set_insts insts next_inst next_handle] in Ebind.
  rewrite lookup_alter_eq, lookup_insert_eq in Ebind.
  cbn [fmap option_fmap option_map query] in Ebind.
  destruct (truthy (ref r)); [| discriminate].
  rewrite Esingle in Ebind. cbn [mbind outcome_bind bind] in Ebind.
  injection Ebind as <-.
  apply ordered_lookup. intros j s0.
  cbn [emit insts update_inst set_insts].
  destruct (decide (j = next_inst w)) as [-> | Hne].
  - rewrite !lookup_alter_eq, lookup_insert_eq.
    cbn [fmap option_fmap option_map]. intros H. injection H as <-.
    cbn [subscriptions set_unsubscription]. now destruct single.
  - rewrite !lookup_alter_ne, lookup_insert_ne by congruence.
    apply (proj1 (ordered_lookup w) Hw).
Qed.

Lemma bind_each_ordered t sp depth refs : forall c w c' w',
  ordered w -> bind_each t sp depth refs (c, w) = Ok (c', w') -> ordered w'.
Proof.
  induction refs as [| r refs IH]; intros c w c' w' Hw H.
  - now injection H as <- <-.
  - cbn [bind_each] in H. inv_bind_as H acc Eacc. destruct acc as [c1 w1].
    eapply IH; [| exact H]. eapply bind_reference_ordered; eauto.
Qed.

Lemma above_new_children i n0 len :
  i < n0 -> forall k, k < len -> Nat.ltb i (n0 + k) = true.
Proof. intros Hi k _. apply Nat.ltb_lt. lia. Qed.

(** [#addItem] keeps the three lists aligned: a slot goes into
    [references] and into [subscriptions] at the index of the document. *)
Lemma addItem_slots i n d w w' s es ss :
  insts w !! i = Some s -> i < next_inst w -> ordered w ->
  data s = VArr es -> subscriptions s = VArr ss ->
  n <= length es -> n <= length ss -> n <= length (references s) ->
  addItem i n d w = Ok w' ->
  ordered w'
  /\ exists s' ss',
       insts w' !! i = Some s'
       /\ references s'
          = insert_at n (SlotList (refs_of (0 <? maxRefDepth s)%Z d))
                      (references s)
       /\ subscriptions s' = VArr ss' /\ length ss' = S (length ss).
Proof.
  intros Hs Hi Hw Hd Hss Hn Hns Hnr H.
  destruct (addItem_facts i n d w w' s es ss Hs Hi Hd Hss Hn Hns Hnr H)
    as [_ [_ [s' [ss' [Hs' [_ [Hr' [Hss' [Hl' _]]]]]]]]].
  split; [| eauto 10].
  assert (Hss0 : above i (VArr ss) = true)
    by (rewrite <- Hss; apply (proj1 (ordered_lookup w) Hw i s Hs)).
  unfold addItem in H.
  rewrite (proj2 (the_instance_ok _ _ _) Hs) in H.
  cbn [mbind outcome_bind bind] in H. rewrite Hd, Hss in H.
  cbn [splice_in mbind outcome_bind bind] in H.
  match type of H with
  | bindReferences _ _ ?w2 = _ =>
      assert (Hw2 : ordered w2)
  end.
  { apply (ordered_update i _ w Hw). intros s0 _.
    cbn [subscriptions set_items set_data set_subscriptions set_references].
    apply insert_at_all; [exact Hss0 | reflexivity]. }
  unfold bindReferences, the_instance in H.
  cbn [insts update_inst set_insts next_inst next_handle] in H.
  rewrite lookup_alter_eq, Hs in H.
  cbn [fmap option_fmap option_map mbind outcome_bind bind] in H.
  cbn [maxRefDepth data subscriptions references items set_items set_data
       set_subscriptions set_references] in H.
  destruct (0 <? maxRefDepth s)%Z; [| injection H as <-; exact Hw2].
  inv_bind_as H item Eitem. inv_bind_as H o Eo.
  inv_bind_as H res Eres. destruct res as [c w5].
  inv_bind_as H subs Esubs2. injection H as <-.
  pose proof (bind_each_ordered _ _ _ _ _ _ _ _ Hw2 Eres) as Hw5.
  apply bind_each_facts in Eres as [_ [_ [_ [_ [_ Hfile]]]]].
  cbn [next_inst] in Hfile.
  apply ordered_update; [exact Hw5 |]. intros s0 _.
  cbn [subscriptions set_subscriptions set_references].
  eapply set_prop_all; [| | exact Esubs2].
  - apply insert_at_all; [exact Hss0 | reflexivity].
  - eapply file_each_all; [| | exact Hfile]; [reflexivity |].
    apply above_new_children. exact Hi.
Qed.

(** [#removeItem] keeps them aligned too: the slot at the index leaves
    [references] and [subscriptions]. *)
Lemma removeItem_slots i n w w' s es ss :
  insts w !! i = Some s -> ordered w ->
  data s = VArr es -> subscriptions s = VArr ss -> n < length ss ->
  removeItem i n w = Ok w' ->
  ordered w'
  /\ n < length (references s)
  /\ exists s' ss',
       insts w' !! i = Some s'
       /\ references s' = remove_at n (references s)
       /\ subscriptions s' = VArr ss' /\ length ss' = length ss - 1.
Proof.
  intros Hs Hw Hd Hss Hn H.
  assert (Hss0 : above i (VArr ss) = true)
    by (rewrite <- Hss; apply (proj1 (ordered_lookup w) Hw i s Hs)).
  unfold removeItem in H. inv_bind_as H w1 E1.
  unfold unbindReferences in E1.
  rewrite (proj2 (the_instance_ok _ _ _) Hs) in E1.
  cbn [mbind outcome_bind bind] in E1. rewrite Hss in E1.
  inv_bind_as E1 subs Esubs.
  destruct (nth_error (references s) n) as [[e | refs] |] eqn:Enth;
    try discriminate.
  inv_bind_as E1 wu Eun. inv_bind_as E1 container Ec. injection E1 as <-.
  assert (Hnr : n < length (references s))
    by (apply nth_error_Some; congruence).
  assert (Hsubs : above i subs = true)
    by (eapply get_prop_all; [exact Hss0 | exact Esubs]).
  destruct (unbind_each_below _ unbind_Subscription_below _ i _ _ _ Hw Hsubs Eun)
    as [Hwu Hsame].
  apply set_prop_arr_index in Ec as [_ ->].
  unfold the_instance in H. cbn [update_inst set_insts insts] in H.
  rewrite lookup_alter_eq, (Hsame i (le_n i)), Hs in H.
  cbn [fmap option_fmap option_map mbind outcome_bind bind] in H.
  cbn [data subscriptions set_subscriptions set_references] in H.
  rewrite Hd in H. cbn [splice_out mbind outcome_bind bind] in H.
  injection H as <-.
  split; [| split; [exact Hnr |]].
  - apply ordered_update.
    + apply ordered_update; [exact Hwu |]. intros s0 _.
      cbn [subscriptions set_subscriptions].
      apply assign_elem_all; [exact Hss0 | reflexivity].
    + intros s0 _.
      cbn [subscriptions set_items set_data set_subscriptions set_references].
      apply remove_at_all, assign_elem_all; [exact Hss0 | reflexivity].
  - cbn [update_inst set_insts insts].
    rewrite !lookup_alter_eq, (Hsame i (le_n i)), Hs.
    cbn [fmap option_fmap option_map].
    eexists. eexists. split; [reflexivity |].
    cbn [references subscriptions set_items set_data set_subscriptions
         set_references].
    split; [apply remove_replaced; exact Hnr |]. split; [reflexivity |].
    rewrite remove_at_length; rewrite assign_elem_length; auto.
Qed.

Lemma apply_changes_slots i cs : forall w w' s es ss,
  insts w !! i = Some s -> i < next_inst w -> ordered w ->
  data s = VArr es -> subscriptions s = VArr ss ->
  length ss = length es -> length (references s) = length es ->
  in_range cs (length es) = true ->
  apply_changes i cs w = Ok w' ->
  ordered w'
  /\ exists s' ss',
       insts w' !! i = Some s'
       /\ data s' = VArr (mirror cs es)
       /\ references s' = slots (0 <? maxRefDepth s)%Z cs (references s)
       /\ subscriptions s' = VArr ss'
       /\ length ss' = length (mirror cs es)
       /\ length (references s') = length (mirror cs es).
Proof.
  induction cs as [| c cs IH]; intros w w' s es ss Hs Hi Hw Hd Hss Hls Hlr Hr H.
  - injection H as <-. split; [exact Hw |]. exists s, ss.
    cbn [mirror slots fold_left]. auto 10.
  - cbn [apply_changes] in H. inv_bind_as H w1 E1.
    destruct c as [n doc | o n doc | o doc];
      cbn [apply_change in_range] in E1, Hr.
    + apply andb_true_iff in Hr as [Hn%Nat.leb_le Hr].
      destruct (addItem_data i n _ w w1 s es Hs Hi Hd Hn E1)
        as [_ [Hmono [s1 [Hs1 [Hd1 [_ [_ Hdepth]]]]]]].
      destruct (addItem_slots i n _ w w1 s es ss Hs Hi Hw Hd Hss Hn
                  ltac:(lia) ltac:(lia) E1)
        as [Hw1 [s1' [ss1 [Hs1' [Hr1 [Hss1 Hl1]]]]]].
      assert (s1' = s1) by congruence. subst s1'.
      destruct (IH w1 w' s1 _ ss1 Hs1 ltac:(lia) Hw1 Hd1 Hss1) as [Hw' Hrest];
        try exact H.
      { rewrite insert_at_length. lia. }
      { rewrite Hr1, !insert_at_length. lia. }
      { now rewrite insert_at_length. }
      split; [exact Hw' |]. rewrite Hdepth, Hr1 in Hrest. exact Hrest.
    + apply andb_true_iff in Hr as [Hr Hr3].
      apply andb_true_iff in Hr as [Ho%Nat.ltb_lt Hn%Nat.leb_le].
      inv_bind_as E1 w0 E0.
      destruct (removeItem_data i o w w0 s es Hs Hd E0)
        as [_ [Hn0 [s0 [Hs0 [Hd0 [_ [_ Hdepth0]]]]]]].
      destruct (removeItem_slots i o w w0 s es ss Hs Hw Hd Hss ltac:(lia) E0)
        as [Hw0 [_ [s0' [ss0 [Hs0' [Hr0 [Hss0 Hl0]]]]]]].
      assert (s0' = s0) by congruence. subst s0'.
      assert (Hlen0 : length (remove_at o es) = length es - 1)
        by now apply remove_at_length.
      assert (Hlr0 : length (references s0) = length es - 1)
        by (rewrite Hr0, remove_at_length; lia).
      destruct (addItem_data i n _ w0 w1 s0 _ Hs0 ltac:(lia) Hd0
                  ltac:(lia) E1)
        as [_ [Hmono [s1 [Hs1 [Hd1 [_ [_ Hdepth1]]]]]]].
      destruct (addItem_slots i n _ w0 w1 s0 _ ss0 Hs0 ltac:(lia) Hw0 Hd0 Hss0
                  ltac:(lia) ltac:(lia) ltac:(lia) E1)
        as [Hw1 [s1' [ss1 [Hs1' [Hr1 [Hss1 Hl1]]]]]].
      assert (s1' = s1) by congruence. subst s1'.
      destruct (IH w1 w' s1 _ ss1 Hs1 ltac:(lia) Hw1 Hd1 Hss1) as [Hw' Hrest];
        try exact H.
      { rewrite insert_at_length. lia. }
      { rewrite Hr1, !insert_at_length. lia. }
      { rewrite insert_at_length, Hlen0.
        replace (S (length es - 1)) with (length es) by lia. exact Hr3. }
      split; [exact Hw' |].
      rewrite Hdepth1, Hr1, Hdepth0, Hr0 in Hrest. exact Hrest.
    + apply andb_true_iff in Hr as [Ho%Nat.ltb_lt Hr].
      destruct (removeItem_data i o w w1 s es Hs Hd E1)
        as [_ [Hn0 [s0 [Hs0 [Hd0 [_ [_ Hdepth0]]]]]]].
      destruct (removeItem_slots i o w w1 s es ss Hs Hw Hd Hss ltac:(lia) E1)
        as [Hw0 [_ [s0' [ss0 [Hs0' [Hr0 [Hss0 Hl0]]]]]]].
      assert (s0' = s0) by congruence. subst s0'.
      assert (Hlen0 : length (remove_at o es) = length es - 1)
        by now apply remove_at_length.
      destruct (IH w1 w' s0 _ ss0 Hs0 ltac:(lia) Hw0 Hd0 Hss0) as [Hw' Hrest];
        try exact H.
      { lia. }
      { rewrite Hr0, remove_at_length; lia. }
      { now rewrite Hlen0. }
      split; [exact Hw' |]. rewrite Hdepth0, Hr0 in Hrest. exact Hrest.
Qed.

Lemma ordered_but_data w w' :
  (forall j, set_data VUndef <$> (insts w' !! j)
             = set_data VUndef <$> (insts w !! j)) ->
  ordered w -> ordered w'.
Proof.
  rewrite !ordered_lookup. intros Hsame Hw j s' Hs'.
  specialize (Hsame j). rewrite Hs' in Hsame. symmetry in Hsame.
  apply same_but_data in Hsame as [s [Hs [_ [Hsub _]]]].
  rewrite <- Hsub. eauto.
Qed.

(** X17.  The collection listener keeps its three parallel lists
    aligned.  In a world where instances are numbered parents first, a
    batch with fitting indices that is handled to the end leaves
    [references] and [subscriptions] as long as [data]; [references] is
    the old list with, change by change, a slot holding the references of
    the added document inserted at its index and the slot of a removed
    document deleted; and instances are still numbered parents first. *)
Theorem collection_lists_stay_aligned i cs w w' s :
  insts w !! i = Some s -> i < next_inst w -> ordered w ->
  owner (targetObject s) <> Some i ->
  aligned s ->
  in_range cs (length (elems_of (data s))) = true ->
  on_collection i cs w = Ok w' ->
  exists s',
    insts w' !! i = Some s'
    /\ aligned s'
    /\ references s' = slots (0 <? maxRefDepth s)%Z cs (references s)
    /\ ordered w'.
Proof.
  intros Hs Hi Hw Hown [Hlr [ss [Hss Hls]]] Hr H. unfold on_collection in H.
  rewrite (proj2 (the_instance_ok _ _ _) Hs) in H.
  cbn [mbind outcome_bind bind] in H. inv_bind_as H w2 E2.
  assert (Hstart : exists w1 s1,
    apply_changes i cs w1 = Ok w2
    /\ insts w1 !! i = Some s1 /\ i < next_inst w1 /\ ordered w1
    /\ data s1 = VArr (elems_of (data s))
    /\ subscriptions s1 = VArr ss /\ references s1 = references s
    /\ maxRefDepth s1 = maxRefDepth s
    /\ targetObject s1 = targetObject s).
  { destruct (isArray (data s)) eqn:Harr.
    - exists w, s. repeat (split; [assumption |]).
      split; [| auto]. destruct (data s); try discriminate. reflexivity.
    - eexists. eexists. split; [exact E2 |].
      cbn [update_inst set_insts insts next_inst].
      rewrite lookup_alter_eq, Hs. cbn [fmap option_fmap option_map].
      split; [reflexivity |]. split; [exact Hi |].
      split.
      { apply ordered_update; [exact Hw |]. intros s0 Hs0.
        cbn [subscriptions set_items set_data].
        apply (proj1 (ordered_lookup w) Hw i s0 Hs0). }
      cbn [data references subscriptions maxRefDepth targetObject
           set_items set_data].
      split; [| auto]. destruct (data s); try discriminate; reflexivity. }
  destruct Hstart as [w1 [s1 [E1 [Hs1 [Hi1 [Hw1 [Hd1 [Hss1 [Hr1 [Hdep1 Hto1]]]]]]]]]].
  destruct (apply_changes_slots i cs w1 w2 s1 _ ss Hs1 Hi1 Hw1 Hd1 Hss1
              Hls ltac:(now rewrite Hr1) Hr E1)
    as [Hw2 [s2 [ss2 [Hs2 [Hd2 [Hr2 [Hss2 [Hls2 Hlr2]]]]]]]].
  destruct (apply_changes_data i cs w1 w2 s1 _ Hs1 Hi1 Hd1 Hr E1)
    as [s2' [_ [Hs2' [_ [_ [_ [[Hto2 _] _]]]]]]].
  assert (s2' = s2) by congruence. subst s2'.
  destruct (write_target_facts _ _ _ _ Hs2 H) as [_ [_ [_ [Hsame Hkeep]]]].
  exists s2. split.
  { rewrite Hkeep; [exact Hs2 |]. now rewrite Hto2, Hto1. }
  split; [| split].
  - split; [now rewrite Hd2 |]. exists ss2. rewrite Hd2. auto.
  - now rewrite Hr2, Hdep1, Hr1.
  - eapply ordered_but_data; eauto.
Qed.

Lemma collection_lists_stay_aligned_witness :
  insts Scenario.two_employees !! 0 = Some Scenario.employees_instance
  /\ ordered Scenario.two_employees
  /\ aligned Scenario.employees_instance
  /\ on_collection 0 [Removed 0 Scenario.with_friend; Added 1 Scenario.with_team]
       Scenario.two_employees
     = Ok (Scenario.after
             (on_collection 0
                [Removed 0 Scenario.with_friend; Added 1 Scenario.with_team]
                Scenario.two_employees))
  /\ exists s',
       insts (Scenario.after
                (on_collection 0
                   [Removed 0 Scenario.with_friend; Added 1 Scenario.with_team]
                   Scenario.two_employees)) !! 0 = Some s'
       /\ aligned s'
       /\ references s'
          = [SlotList [];
             SlotList [Entry "team[0]" (Scenario.handle 2);
                       Entry "team[1]" (Scenario.handle 3)]].
Proof.
  assert (Hs : insts Scenario.two_employees !! 0
               = Some Scenario.employees_instance) by (vm_compute; reflexivity).
  assert (Hw : ordered Scenario.two_employees)
    by (apply (bool_decide_unpack _); vm_compute; exact I).
  assert (Ha : aligned Scenario.employees_instance)
    by (split; [reflexivity | eexists; split; reflexivity]).
  assert (H : on_collection 0
                [Removed 0 Scenario.with_friend; Added 1 Scenario.with_team]
                Scenario.two_employees
              = Ok (Scenario.after
                      (on_collection 0
                         [Removed 0 Scenario.with_friend;
                          Added 1 Scenario.with_team]
                         Scenario.two_employees)))
    by (vm_compute; reflexivity).
  assert (Hi : 0 < next_inst Scenario.two_employees) by (vm_compute; lia).
  assert (Hown : owner (targetObject Scenario.employees_instance) <> Some 0)
    by discriminate.
  repeat (split; [assumption |]).
  destruct (collection_lists_stay_aligned 0
              [Removed 0 Scenario.with_friend; Added 1 Scenario.with_team]
              Scenario.two_employees _ Scenario.employees_instance
              Hs Hi Hw Hown Ha eq_refl H)
    as [s' [Hs' [Ha' [Hr' _]]]].
  exists s'. split; [exact Hs' |]. split; [exact Ha' | exact Hr'].
Defined.

(** * The collection listener, change by change *)





(** * The update callback *)










(** ** A reference, from its listener to the state *)








(** * The numbering of instances is kept *)

Lemma ordered_same_insts w w' : insts w' = insts w -> ordered w -> ordered w'.
Proof. unfold ordered. now intros ->. Qed.

Lemma bindReferences_document_ordered i w w' s :
  insts w !! i = Some s -> i < next_inst w -> ordered w ->
  bindReferences i None w = Ok w' -> ordered w'.
Proof.
  intros Hs Hi Hw H. unfold bindReferences in H.
  rewrite (proj2 (the_instance_ok _ _ _) Hs) in H.
  cbn [mbind outcome_bind bind] in H.
  destruct (0 <? maxRefDepth s)%Z; [| now injection H as <-].
  inv_bind_as H res Eres. destruct res as [c w5]. injection H as <-.
  pose proof (bind_each_ordered _ _ _ _ _ _ _ _ Hw Eres) as Hw5.
  apply bind_each_facts in Eres as [_ [_ [_ [_ [_ Hfile]]]]].
  apply ordered_update; [exact Hw5 |]. intros s0 _.
  cbn [subscriptions set_subscriptions set_references].
  eapply file_each_all; [| | exact Hfile]; [reflexivity |].
  apply above_new_children. exact Hi.
Qed.

Lemma unbindReferences_document_ordered i w w' :
  ordered w -> unbindReferences unbind_Subscription i None w = Ok w' ->
  ordered w'.
Proof.
  intros Hw H. apply unbindReferences_reset in H as [wu [s [Es [Eun ->]]]].
  apply the_instance_ok in Es.
  assert (Hs : above i (subscriptions s) = true)
    by (apply (proj1 (ordered_lookup w) Hw i s Es)).
  destruct (unbind_each_below _ unbind_Subscription_below _ i _ _ _ Hw Hs Eun)
    as [Hwu _].
  apply ordered_update; [exact Hwu |]. intros s0 _. reflexivity.
Qed.

Lemma set_data_ordered i d w : ordered w -> ordered (update_inst i (set_data d) w).
Proof.
  intros Hw. apply ordered_update; [exact Hw |]. intros s0 Hs0.
  apply (proj1 (ordered_lookup w) Hw i s0 Hs0).
Qed.

Lemma write_target_ordered i w w' :
  ordered w -> write_target i w = Ok w' -> ordered w'.
Proof.
  intros Hw H.
  destruct (insts w !! i) as [s |] eqn:Hs.
  - destruct (write_target_facts _ _ _ _ Hs H) as [_ [_ [_ [Hsame _]]]].
    eapply ordered_but_data; eauto.
  - unfold write_target, the_instance in H. rewrite Hs in H. discriminate.
Qed.

Lemma on_document_ordered i doc w w' :
  i < next_inst w -> ordered w -> on_document i doc w = Ok w' -> ordered w'.
Proof.
  intros Hi Hw H. unfold on_document in H.
  inv_bind_as H s Es. apply the_instance_ok in Es.
  inv_bind_as H wa Ewa. inv_bind_as H wb Ewb. inv_bind_as H w4 Ew4.
  injection H as <-.
  assert (Hwa : ordered wa).
  { eapply write_target_ordered; [| exact Ewa].
    apply (ordered_same_insts (update_inst i (set_data (data_or_null doc)) w));
      [reflexivity | now apply set_data_ordered]. }
  pose proof (unbindReferences_document_ordered _ _ _ Hwa Ewb) as Hwb.
  destruct (unbindReferences_quiet _ unbind_Subscription_quiet _ _ _ _ Ewb)
    as [Hnb [_ [Hcb _]]].
  assert (Hs1 : insts (emit (LSetData i (data_or_null doc))
                         (update_inst i (set_data (data_or_null doc)) w)) !! i
                = Some (set_data (data_or_null doc) s)).
  { cbn [emit insts update_inst set_insts]. now rewrite lookup_alter_eq, Es. }
  destruct (write_target_facts _ _ _ _ Hs1 Ewa) as [_ [Hna [_ [Hsame _]]]].
  assert (Hsb : exists sb, insts wb !! i = Some sb).
  { specialize (Hcb i). specialize (Hsame i). rewrite Hs1 in Hsame.
    destruct (insts wa !! i) as [sa |]; [| discriminate].
    destruct (insts wb !! i) as [sb |]; [eauto | discriminate]. }
  destruct Hsb as [sb Hsb].
  apply (ordered_same_insts w4); [reflexivity |].
  eapply (bindReferences_document_ordered i wb w4 sb); eauto.
  rewrite Hnb, Hna. exact Hi.
Qed.

Lemma addItem_ordered i n d w w' s :
  insts w !! i = Some s -> i < next_inst w -> ordered w ->
  addItem i n d w = Ok w' ->
  ordered w' /\ next_inst w <= next_inst w' /\ is_Some (insts w' !! i).
Proof.
  intros Hs Hi Hw H.
  assert (Hss0 : above i (subscriptions s) = true)
    by (apply (proj1 (ordered_lookup w) Hw i s Hs)).
  unfold addItem in H.
  rewrite (proj2 (the_instance_ok _ _ _) Hs) in H.
  cbn [mbind outcome_bind bind] in H.
  inv_bind_as H data' Ed. inv_bind_as H subs' Esubs.
  assert (Hsubs' : above i subs' = true).
  { destruct (subscriptions s) as [| | | | | | | | ss]; try discriminate.
    injection Esubs as <-. apply insert_at_all; [exact Hss0 | reflexivity]. }
  match type of H with
  | bindReferences _ _ ?w2 = _ => assert (Hw2 : ordered w2)
  end.
  { apply (ordered_update i _ w Hw). intros s0 _.
    cbn [subscriptions set_items set_data set_subscriptions set_references].
    exact Hsubs'. }
  unfold bindReferences, the_instance in H.
  cbn [insts update_inst set_insts next_inst next_handle] in H.
  rewrite lookup_alter_eq, Hs in H.
  cbn [fmap option_fmap option_map mbind outcome_bind bind] in H.
  cbn [maxRefDepth data subscriptions references items set_items set_data
       set_subscriptions set_references] in H.
  destruct (0 <? maxRefDepth s)%Z.
  - inv_bind_as H item Eitem. inv_bind_as H o Eo.
    inv_bind_as H res Eres. destruct res as [c w5].
    inv_bind_as H subs Esubs2. injection H as <-.
    pose proof (bind_each_ordered _ _ _ _ _ _ _ _ Hw2 Eres) as Hw5.
    apply bind_each_facts in Eres as [_ [Hn5 [_ [Hold [_ Hfile]]]]].
    cbn [next_inst insts] in Hfile, Hn5, Hold.
    split; [| split].
    + apply ordered_update; [exact Hw5 |]. intros s0 _.
      cbn [subscriptions set_subscriptions set_references].
      eapply set_prop_all; [exact Hsubs' | | exact Esubs2].
      eapply file_each_all; [| | exact Hfile]; [reflexivity |].
      apply above_new_children. exact Hi.
    + cbn [next_inst update_inst set_insts]. lia.
    + cbn [insts update_inst set_insts].
      rewrite lookup_alter_eq, (Hold i Hi), lookup_alter_eq, Hs. eauto.
  - injection H as <-. split; [exact Hw2 |].
    cbn [next_inst insts]. split; [lia |].
    rewrite lookup_alter_eq, Hs. eauto.
Qed.

Lemma removeItem_ordered i n w w' s :
  insts w !! i = Some s -> ordered w ->
  removeItem i n w = Ok w' ->
  ordered w' /\ next_inst w' = next_inst w /\ is_Some (insts w' !! i).
Proof.
  intros Hs Hw H.
  assert (Hss0 : above i (subscriptions s) = true)
    by (apply (proj1 (ordered_lookup w) Hw i s Hs)).
  unfold removeItem in H. inv_bind_as H w1 E1.
  destruct (unbindReferences_quiet _ unbind_Subscription_quiet _ _ _ _ E1)
    as [Hn1 _].
  unfold unbindReferences in E1.
  rewrite (proj2 (the_instance_ok _ _ _) Hs) in E1.
  cbn [mbind outcome_bind bind] in E1.
  inv_bind_as E1 subs Esubs.
  destruct (nth_error (references s) n) as [[e | refs] |] eqn:Enth;
    try discriminate.
  inv_bind_as E1 wu Eun. inv_bind_as E1 container Ec. injection E1 as <-.
  assert (Hsubs : above i subs = true)
    by (eapply get_prop_all; [exact Hss0 | exact Esubs]).
  assert (Hcont : above i container = true)
    by (eapply set_prop_all; [exact Hss0 | | exact Ec]; reflexivity).
  destruct (unbind_each_below _ unbind_Subscription_below _ i _ _ _ Hw Hsubs Eun)
    as [Hwu Hsame].
  unfold the_instance in H. cbn [update_inst set_insts insts] in H.
  rewrite lookup_alter_eq, (Hsame i (le_n i)), Hs in H.
  cbn [fmap option_fmap option_map mbind outcome_bind bind] in H.
  cbn [data subscriptions set_subscriptions set_references] in H.
  inv_bind_as H data' Ed. inv_bind_as H subs' Esubs'. injection H as <-.
  split; [| split].
  - apply ordered_update.
    + apply ordered_update; [exact Hwu |]. intros s0 _. exact Hcont.
    + intros s0 _.
      cbn [subscriptions set_items set_data set_subscriptions set_references].
      destruct container as [| | | | | | | | cs]; try discriminate.
      injection Esubs' as <-. now apply remove_at_all.
  - cbn [next_inst update_inst set_insts] in *. exact Hn1.
  - cbn [insts update_inst set_insts].
    rewrite !lookup_alter_eq, (Hsame i (le_n i)), Hs. eauto.
Qed.

Lemma apply_changes_ordered i cs : forall w w' s,
  insts w !! i = Some s -> i < next_inst w -> ordered w ->
  apply_changes i cs w = Ok w' -> ordered w'.
Proof.
  induction cs as [| c cs IH]; intros w w' s Hs Hi Hw H.
  - now injection H as <-.
  - cbn [apply_changes] in H. inv_bind_as H w1 E1.
    assert (Hstep : ordered w1 /\ next_inst w <= next_inst w1
                    /\ is_Some (insts w1 !! i)).
    { destruct c as [n doc | o n doc | o doc]; cbn [apply_change] in E1.
      - eapply addItem_ordered; eauto.
      - inv_bind_as E1 w0 E0.
        destruct (removeItem_ordered i o w w0 s Hs Hw E0)
          as [Hw0 [Hn0 [s0 Hs0]]].
        destruct (addItem_ordered i n _ w0 w1 s0 Hs0 ltac:(lia) Hw0 E1)
          as [Hw1 [Hn1 Hs1]].
        split; [exact Hw1 |]. split; [lia | exact Hs1].
      - destruct (removeItem_ordered i o w w1 s Hs Hw E1)
          as [Hw1 [Hn1 Hs1]].
        split; [exact Hw1 |]. split; [lia | exact Hs1]. }
    destruct Hstep as [Hw1 [Hn1 [s1 Hs1]]].
    eapply (IH w1 w' s1); eauto. lia.
Qed.

Lemma on_collection_ordered i cs w w' :
  i < next_inst w -> ordered w -> on_collection i cs w = Ok w' -> ordered w'.
Proof.
  intros Hi Hw H. unfold on_collection in H.
  inv_bind_as H s Es. apply the_instance_ok in Es.
  inv_bind_as H w2 E2.
  eapply write_target_ordered; [| exact H].
  destruct (isArray (data s)).
  - eapply apply_changes_ordered; eauto.
  - eapply (apply_changes_ordered i cs _ w2); [| | | exact E2].
    + cbn [update_inst set_insts insts]. now rewrite lookup_alter_eq, Es.
    + exact Hi.
    + apply ordered_update; [exact Hw |]. intros s0 Hs0.
      apply (proj1 (ordered_lookup w) Hw i s0 Hs0).
Qed.

Lemma bindFirestoreRef_ordered key q depth w w' :
  ordered w -> bindFirestoreRef key q depth w = Ok w' -> ordered w'.
Proof.
  intros Hw H. unfold bindFirestoreRef, new_Subscription in H.
  destruct (isSingleDocumentQuery q) as [single | |] eqn:Esingle;
    try discriminate.
  cbn [mbind outcome_bind bind] in H. unfold set_registry in H.
  cbn [insts next_inst registry state listening next_handle next_item trace] in H.
  destruct (bind_constructed q TState key depth w (<[key := next_inst w]>)
              single Esingle)
    as [w2 [s [Hb [_ [_ [_ [_ [_ [_ [Hold [Hi _]]]]]]]]]]].
  rewrite Hb in H. injection H as <-.
  unfold bind_Subscription in Hb.
  destruct depth as [d |]; cbn [setOptions update_inst set_insts insts] in Hb.
  - rewrite lookup_alter_eq, lookup_insert_eq in Hb.
    cbn [fmap option_fmap option_map query] in Hb.
    destruct (truthy q); [| discriminate]. rewrite Esingle in Hb.
    cbn [mbind outcome_bind bind] in Hb. injection Hb as <-.
    apply ordered_lookup. intros j s0. cbn [emit insts update_inst set_insts].
    destruct (decide (j = next_inst w)) as [-> | Hne].
    + rewrite !lookup_alter_eq, lookup_insert_eq.
      cbn [fmap option_fmap option_map]. intros H. injection H as <-.
      cbn [subscriptions set_unsubscription]. now destruct single.
    + rewrite !lookup_alter_ne, lookup_insert_ne by congruence.
      apply (proj1 (ordered_lookup w) Hw).
  - rewrite lookup_insert_eq in Hb. cbn [query] in Hb.
    destruct (truthy q); [| discriminate]. rewrite Esingle in Hb.
    cbn [mbind outcome_bind bind] in Hb. injection Hb as <-.
    apply ordered_lookup. intros j s0. cbn [emit insts update_inst set_insts].
    destruct (decide (j = next_inst w)) as [-> | Hne].
    + rewrite !lookup_alter_eq, lookup_insert_eq.
      cbn [fmap option_fmap option_map]. intros H. injection H as <-.
      cbn [subscriptions set_unsubscription]. now destruct single.
    + rewrite !lookup_alter_ne, lookup_insert_ne by congruence.
      apply (proj1 (ordered_lookup w) Hw).
Qed.

Lemma unbind_ordered call key reset w w' :
  ordered w -> unbind call key reset w = Ok w' -> ordered w'.
Proof.
  intros Hw H. unfold unbind in H. inv_bind_as H w1 E1.
  assert (Hw1 : ordered w1).
  { destruct (registry w !! key) as [i |].
    - now apply (unbind_Subscription_below i w w1 Hw) in E1 as [Hw1 _].
    - now injection E1 as <-. }
  destruct reset as [| | [|] | | | | | |]; try inv_bind_as H st Est;
    injection H as <-; exact Hw1.
Qed.

Lemma run_update_ordered i w w' :
  ordered w -> run_update i w = Ok w' -> ordered w'.
Proof.
  intros Hw H. unfold run_update in H.
  destruct (callback_owner (next_inst w) i w) as [r |]; [| discriminate].
  unfold default_update in H. inv_bind_as H s Es. inv_bind_as H copy Ec.
  eapply write_target_ordered; [| exact H]. now apply set_data_ordered.
Qed.

(** X20.  Instances stay numbered parents first: starting from the empty
    world, where it holds, the property that every instance filed in the
    [subscriptions] of an instance has a larger number than that instance
    is kept by binding a key, by the document and the collection
    listener, by the update callback and by unbinding a key. *)
Theorem numbering_is_kept w :
  ordered w ->
  (forall key q depth w', bindFirestoreRef key q depth w = Ok w' -> ordered w')
  /\ (forall i doc w', i < next_inst w -> on_document i doc w = Ok w' ->
                       ordered w')
  /\ (forall i cs w', i < next_inst w -> on_collection i cs w = Ok w' ->
                      ordered w')
  /\ (forall i w', run_update i w = Ok w' -> ordered w')
  /\ (forall call key reset w', unbind call key reset w = Ok w' -> ordered w').
Proof.
  intros Hw. split; [| split; [| split; [| split]]].
  - intros key q depth w'. now apply bindFirestoreRef_ordered.
  - intros i doc w' Hi. now apply on_document_ordered.
  - intros i cs w' Hi. now apply on_collection_ordered.
  - intros i w'. now apply run_update_ordered.
  - intros call key reset w'. now apply unbind_ordered.
Qed.

Lemma ordered_empty st : ordered (empty_world st).
Proof. apply ordered_lookup. intros j s H. discriminate H. Qed.

Lemma numbering_is_kept_witness :
  ordered (empty_world (VObj []))
  /\ ordered Scenario.bound_document
  /\ ordered Scenario.friend_world.
Proof.
  split; [apply ordered_empty |].
  assert (H1 : ordered Scenario.bound_document).
  { destruct (numbering_is_kept (empty_world (VObj [])) (ordered_empty _))
      as [Hbind _].
    apply (Hbind "profile" Scenario.document_query None).
    vm_compute. reflexivity. }
  split; [exact H1 |].
  destruct (numbering_is_kept Scenario.bound_document H1) as [_ [Hdoc _]].
  apply (Hdoc 0 Scenario.with_friend); [vm_compute; lia |].
  vm_compute. reflexivity.
Defined.

(** * One pass of the fill on any plain document *)


































(** * One-time mode: resolving level by level *)

(** ** The shape of a substitution *)

Lemma subst_obj f ps :
  subst f (VObj ps) = VObj (map (fun kx => (fst kx, subst_visit f (snd kx))) ps).
Proof.
  cbn [subst]. f_equal. induction ps as [| [k x] ps IH]; [reflexivity |].
  cbn [map fst snd]. unfold subst_visit. f_equal. apply IH.
Qed.



(** ** What holds of every reference that the scan reports *)



Lemma on_refs_imp (G G' : dval -> Prop) v :
  (forall r, G r -> G' r) -> on_refs G v -> on_refs G' v.
Proof. intros H Hv pos r Hin. eapply H, Hv; eauto. Qed.







(** ** The references of a substitution *)





(** ** Plain documents stay plain *)










(** ** Substituting twice *)


(** ** Putting a value at every reference is a substitution *)














(** ** The copy in the state sees the later splices *)





(** ** Level by level *)



Lemma fetched_served store r doc :
  get_doc store r = Some doc -> fetched store r = snapshot_data doc.
Proof. unfold fetched. now intros ->. Qed.













(** ** The references that are left *)


(** ** get on a document, to the end of the passes *)







(** ** The chain is such a document, at every depth *)

Section ChainLevels.
Import Chain.

Lemma chain_fetch k :
  get_doc store (link (S k))
  = Some (Snapshot (name (S k)) (Some [("next", link (S (S k)))])).
Proof.
  unfold store, get_doc.
  change (get_prop (link (S k)) "level")
    with (Ok (VNum (Z.of_nat (S k))) : outcome dval).
  cbv iota. now rewrite Nat2Z.id.
Qed.

Lemma chain_resolvable n : forall k,
  resolvable store n (nest 0 k (link (S k))) = true.
Proof.
  induction n as [| n IH]; intros k; [reflexivity |].
  unfold resolvable. cbn [levels]. apply andb_true_iff. split.
  - vm_compute. reflexivity.
  - change (scan (nest 0 k (link (S k)))) with [([Key "next"], link (S k))].
    cbn [forallb snd]. rewrite chain_fetch.
    change (snapshot_data (Snapshot (name (S k)) (Some [("next", link (S (S k)))])))
      with (nest 0 (S k) (link (S (S k)))).
    change (isFirestoreRef (nest 0 (S k) (link (S (S k))))) with false.
    cbn [negb andb]. rewrite andb_true_r. apply IH.
Qed.

Lemma chain_resolve n : forall k,
  resolve store n (nest 0 k (link (S k))) = nest n k (link (S (k + n))).
Proof.
  induction n as [| n IH]; intros k.
  - cbn [resolve]. now rewrite Nat.add_0_r.
  - cbn [resolve]. unfold nest at 1. rewrite subst_obj.
    cbn [map fst snd]. unfold subst_visit.
    change (isObject (VStr (name k))) with false.
    change (isObject (link (S k))) with true.
    change (isFirestoreRef (link (S k))) with true. cbv iota.
    rewrite (fetched_served store _ _ (chain_fetch k)).
    change (snapshot_data (Snapshot (name (S k)) (Some [("next", link (S (S k)))])))
      with (nest 0 (S k) (link (S (S k)))).
    rewrite IH. cbn [nest]. now rewrite Nat.add_succ_r.
Qed.

Lemma chain_resolved N :
  resolvable store N (resolved 0) = true
  /\ resolve store N (resolved 0) = resolved N.
Proof.
  unfold resolved. split; [apply chain_resolvable |].
  now rewrite chain_resolve.
Qed.

End ChainLevels.
